(** * riffkey: key model, pattern compiler, trie router, dispatcher and
      terminal decoder, embedded from [riffkey.go].

    Conventions of the embedding.
    - A Go [string] is a byte string: Rocq's [string] (a list of 8-bit
      [ascii]).  A Go [byte] is a [Z] in [0, 256); a [rune] is a [Z].
    - [Modifier] and [Special] are [uint8] in the source and [Z] here, with
      the source's constants.
    - A [Handler] is an opaque callback.  It is represented by an identifier,
      [nil] by [None]; invoking a handler is recorded as an event
      (handler, Match) returned by the operation that makes the call.
    - [map[Key]*trieNode] is a [gmap Key trieNode].
    - Time is not modelled.  The timer armed by [Dispatch] is a field of the
      Input and its expiry a separate step, [timerFire]; a sequence of
      dispatched keys is a sequence of calls with no expiry in between.  The
      bounded waits of the Reader are answered by a scheduler that is part of
      the Reader's environment. *)

From Stdlib Require Import ZArith List Ascii String Bool Lia.
From stdpp Require Import base decidable countable gmap strings list fin_maps.

Local Open Scope Z_scope.

(** ** Key model *)

Definition Modifier := Z.
Definition ModNone : Modifier := 0.
Definition ModCtrl : Modifier := 2.   (* 1 << iota, iota = 1 *)
Definition ModAlt : Modifier := 4.
Definition ModShift : Modifier := 8.

Definition Special := Z.
Definition SpecialNone : Special := 0.
Definition SpecialEscape : Special := 1.
Definition SpecialEnter : Special := 2.
Definition SpecialTab : Special := 3.
Definition SpecialSpace : Special := 4.
Definition SpecialBackspace : Special := 5.
Definition SpecialUp : Special := 6.
Definition SpecialDown : Special := 7.
Definition SpecialLeft : Special := 8.
Definition SpecialRight : Special := 9.
Definition SpecialHome : Special := 10.
Definition SpecialEnd : Special := 11.
Definition SpecialPageUp : Special := 12.
Definition SpecialPageDown : Special := 13.
Definition SpecialInsert : Special := 14.
Definition SpecialDelete : Special := 15.
Definition SpecialF1 : Special := 16.
Definition SpecialF2 : Special := 17.
Definition SpecialF3 : Special := 18.
Definition SpecialF4 : Special := 19.
Definition SpecialF5 : Special := 20.
Definition SpecialF6 : Special := 21.
Definition SpecialF7 : Special := 22.
Definition SpecialF8 : Special := 23.
Definition SpecialF9 : Special := 24.
Definition SpecialF10 : Special := 25.
Definition SpecialF11 : Special := 26.
Definition SpecialF12 : Special := 27.

Record Key := mkKey { Rune : Z; Mod : Modifier; KSpecial : Special }.

(** [Key{Rune: r}], [Key{Special: s}], the composite literals of the source. *)
Definition KeyRune (r : Z) : Key := mkKey r ModNone SpecialNone.
Definition KeySpecial (s : Special) : Key := mkKey 0 ModNone s.
Definition KeyZero : Key := mkKey 0 ModNone SpecialNone.

#[global] Instance Key_eq_dec : EqDecision Key.
Proof. solve_decision. Defined.

#[global] Instance Key_countable : Countable Key.
Proof.
  refine (inj_countable' (fun k => (Rune k, Mod k, KSpecial k))
                         (fun t => mkKey t.1.1 t.1.2 t.2) _).
  by intros [].
Defined.

(** ** Go strings: bytes, UTF-8 and the [strings] functions the source calls *)

Definition byteOf (c : ascii) : Z := Z.of_N (N_of_ascii c).
Definition asciiOf (b : Z) : ascii := ascii_of_N (Z.to_N b).

Fixpoint bytesOf (s : string) : list Z :=
  match s with
  | EmptyString => []
  | String c s' => byteOf c :: bytesOf s'
  end.

Fixpoint stringOf (bs : list Z) : string :=
  match bs with
  | [] => EmptyString
  | b :: bs' => String (asciiOf b) (stringOf bs')
  end.

Definition RuneError : Z := 65533.
Definition MaxRune : Z := 1114111.

(** [utf8.AppendRune], which is what the conversion [string(r)] of a rune
    does: runes out of range and surrogates encode as U+FFFD. *)
Definition encodeRune (r : Z) : list Z :=
  if (0 <=? r) && (r <=? 127) then [r]
  else if (0 <=? r) && (r <=? 2047) then
    [Z.lor 192 (Z.shiftr r 6); Z.lor 128 (Z.land r 63)]
  else if (r <? 0) || (MaxRune <? r) || ((55296 <=? r) && (r <=? 57343)) then
    [239; 191; 189]
  else if r <=? 65535 then
    [Z.lor 224 (Z.shiftr r 12); Z.lor 128 (Z.land (Z.shiftr r 6) 63);
     Z.lor 128 (Z.land r 63)]
  else
    [Z.lor 240 (Z.shiftr r 18); Z.lor 128 (Z.land (Z.shiftr r 12) 63);
     Z.lor 128 (Z.land (Z.shiftr r 6) 63); Z.lor 128 (Z.land r 63)].

Definition stringOfRune (r : Z) : string := stringOf (encodeRune r).
Definition stringOfRunes (rs : list Z) : string :=
  stringOf (concat (map encodeRune rs)).

(** The entry of [utf8.first] and [utf8.acceptRanges] for a leading byte:
    the length of the sequence and the range accepted for the second byte;
    [None] for a byte that starts no sequence. *)
Definition utf8First (b0 : Z) : option (nat * Z * Z) :=
  if (194 <=? b0) && (b0 <=? 223) then Some (2%nat, 128, 191)
  else if b0 =? 224 then Some (3%nat, 160, 191)
  else if b0 =? 237 then Some (3%nat, 128, 159)
  else if (225 <=? b0) && (b0 <=? 239) then Some (3%nat, 128, 191)
  else if b0 =? 240 then Some (4%nat, 144, 191)
  else if (241 <=? b0) && (b0 <=? 243) then Some (4%nat, 128, 191)
  else if b0 =? 244 then Some (4%nat, 128, 143)
  else None.

Definition isCont (b : Z) : bool := (128 <=? b) && (b <=? 191).

(** The conversion [[]rune(s)]: [utf8.DecodeRuneInString] repeated; a byte
    that is not part of a valid sequence yields U+FFFD and is skipped alone. *)
Fixpoint decodeRunes (bs : list Z) : list Z :=
  match bs with
  | [] => []
  | b0 :: rest =>
      if b0 <? 128 then b0 :: decodeRunes rest
      else
        match utf8First b0 with
        | None => RuneError :: decodeRunes rest
        | Some (sz, lo, hi) =>
            match rest with
            | [] => RuneError :: decodeRunes rest
            | b1 :: rest1 =>
                if (b1 <? lo) || (hi <? b1) then RuneError :: decodeRunes rest
                else if (sz <=? 2)%nat then
                  Z.lor (Z.shiftl (Z.land b0 31) 6) (Z.land b1 63)
                    :: decodeRunes rest1
                else
                  match rest1 with
                  | [] => RuneError :: decodeRunes rest
                  | b2 :: rest2 =>
                      if negb (isCont b2) then RuneError :: decodeRunes rest
                      else if (sz <=? 3)%nat then
                        Z.lor (Z.lor (Z.shiftl (Z.land b0 15) 12)
                                     (Z.shiftl (Z.land b1 63) 6))
                              (Z.land b2 63)
                          :: decodeRunes rest2
                      else
                        match rest2 with
                        | [] => RuneError :: decodeRunes rest
                        | b3 :: rest3 =>
                            if negb (isCont b3) then RuneError :: decodeRunes rest
                            else
                              Z.lor (Z.lor (Z.lor (Z.shiftl (Z.land b0 7) 18)
                                                  (Z.shiftl (Z.land b1 63) 12))
                                           (Z.shiftl (Z.land b2 63) 6))
                                    (Z.land b3 63)
                                :: decodeRunes rest3
                        end
                  end
            end
        end
  end.

Definition runesOf (s : string) : list Z := decodeRunes (bytesOf s).

(** [unicode.ToLower] on runes above ASCII reads Go's Unicode case tables,
    which are not part of the repository: they are a parameter of the
    development. *)
Class CaseTables := unicodeLower : Z -> Z.

(** A table that folds no rune above ASCII; it instantiates the parameter
    where an example has to run. *)
Definition noFolding : CaseTables := fun r => r.

Definition isUpperASCII (b : Z) : bool := (65 <=? b) && (b <=? 90).

Definition unicode_ToLower `{CaseTables} (r : Z) : Z :=
  if r <=? 127 then (if isUpperASCII r then r + 32 else r) else unicodeLower r.

(** [strings.ToLower]: bytewise on an ASCII string, otherwise
    [strings.Map(unicode.ToLower, s)]. *)
Definition ToLower `{CaseTables} (s : string) : string :=
  let bs := bytesOf s in
  if forallb (fun b => b <? 128) bs
  then stringOf (map (fun b => if isUpperASCII b then b + 32 else b) bs)
  else stringOfRunes (map unicode_ToLower (decodeRunes bs)).

(** [strings.Split(s, sep)] for a one-byte separator: never empty. *)
Fixpoint Split (s : string) (sep : ascii) : list string :=
  match s with
  | EmptyString => [EmptyString]
  | String c s' =>
      if Ascii.eqb c sep then EmptyString :: Split s' sep
      else match Split s' sep with
           | [] => [String c EmptyString]
           | p :: ps => String c p :: ps
           end
  end.

(** [strings.Join(parts, sep)]. *)
Fixpoint Join (parts : list string) (sep : string) : string :=
  match parts with
  | [] => EmptyString
  | [p] => p
  | p :: ps => (p ++ sep ++ Join ps sep)%string
  end.

(** [strings.IndexByte(s, c)], [None] for -1. *)
Fixpoint IndexByte (s : string) (c : ascii) : option nat :=
  match s with
  | EmptyString => None
  | String c' s' =>
      if Ascii.eqb c' c then Some 0%nat else S <$> IndexByte s' c
  end.

(** The slice [s[lo:hi]] of a string. *)
Definition slice (s : string) (lo hi : nat) : string :=
  substring lo (hi - lo) s.

(** ** Textual form of a key and the pattern compiler *)

(** The map [specialToVim]; a key that is not in the map reads as [""]. *)
Definition specialToVim : gmap Z string :=
  list_to_map
    [(SpecialEscape, "Esc"); (SpecialEnter, "CR"); (SpecialTab, "Tab");
     (SpecialSpace, "Space"); (SpecialBackspace, "BS"); (SpecialUp, "Up");
     (SpecialDown, "Down"); (SpecialLeft, "Left"); (SpecialRight, "Right");
     (SpecialHome, "Home"); (SpecialEnd, "End"); (SpecialPageUp, "PageUp");
     (SpecialPageDown, "PageDown"); (SpecialInsert, "Insert");
     (SpecialDelete, "Del"); (SpecialF1, "F1"); (SpecialF2, "F2");
     (SpecialF3, "F3"); (SpecialF4, "F4"); (SpecialF5, "F5");
     (SpecialF6, "F6"); (SpecialF7, "F7"); (SpecialF8, "F8");
     (SpecialF9, "F9"); (SpecialF10, "F10"); (SpecialF11, "F11");
     (SpecialF12, "F12")].

Definition vimToSpecial : gmap string Z :=
  list_to_map
    [("esc", SpecialEscape); ("escape", SpecialEscape); ("cr", SpecialEnter);
     ("enter", SpecialEnter); ("return", SpecialEnter); ("tab", SpecialTab);
     ("space", SpecialSpace); ("bs", SpecialBackspace);
     ("backspace", SpecialBackspace); ("up", SpecialUp); ("down", SpecialDown);
     ("left", SpecialLeft); ("right", SpecialRight); ("home", SpecialHome);
     ("end", SpecialEnd); ("pageup", SpecialPageUp);
     ("pagedown", SpecialPageDown); ("insert", SpecialInsert);
     ("del", SpecialDelete); ("delete", SpecialDelete); ("f1", SpecialF1);
     ("f2", SpecialF2); ("f3", SpecialF3); ("f4", SpecialF4); ("f5", SpecialF5);
     ("f6", SpecialF6); ("f7", SpecialF7); ("f8", SpecialF8); ("f9", SpecialF9);
     ("f10", SpecialF10); ("f11", SpecialF11); ("f12", SpecialF12)].

(** [Key.String]. *)
Definition Key_String (k : Key) : string :=
  if (KSpecial k =? SpecialNone) && (Mod k =? ModNone) && negb (Rune k =? 0)
  then stringOfRune (Rune k)
  else
    let parts :=
      (if negb (Z.land (Mod k) ModCtrl =? 0) then ["C"%string] else []) ++
      (if negb (Z.land (Mod k) ModAlt =? 0) then ["A"%string] else []) ++
      (if negb (Z.land (Mod k) ModShift =? 0) then ["S"%string] else []) in
    let keyPart :=
      if negb (KSpecial k =? SpecialNone)
      then default EmptyString (specialToVim !! KSpecial k)
      else if negb (Rune k =? 0) then stringOfRune (Rune k)
      else EmptyString in
    if (0 <? length parts)%nat || negb (KSpecial k =? SpecialNone)
    then ("<" ++ Join (parts ++ [keyPart]) "-" ++ ">")%string
    else keyPart.

(** [rune(part[0])] for a non-empty string. *)
Definition firstByte (s : string) : Z :=
  match s with
  | EmptyString => 0
  | String c _ => byteOf c
  end.

(** The body of the loop of [parseVimKey] after the modifier switch: the part
    is a special-key name, a single byte, or something else whose first byte
    is taken. *)
Definition finalPart `{CaseTables} (key : Key) (part : string) : Key :=
  match vimToSpecial !! ToLower part with
  | Some special => mkKey (Rune key) (Mod key) special
  | None =>
      if (String.length part =? 1)%nat
      then mkKey (firstByte part) (Mod key) (KSpecial key)
      else if (0 <? String.length part)%nat
           then mkKey (firstByte part) (Mod key) (KSpecial key)
           else key
  end.

Definition orMod (key : Key) (m : Modifier) : Key :=
  mkKey (Rune key) (Z.lor (Mod key) m) (KSpecial key).

(** The loop [for i, part := range parts] of [parseVimKey]; [n] is
    [len(parts)]. *)
Fixpoint parseParts `{CaseTables} (parts : list string) (i n : nat) (key : Key)
  : Key :=
  match parts with
  | [] => key
  | part :: rest =>
      let lower := ToLower part in
      let next := parseParts rest (S i) n in
      if (i <? n - 1)%nat then
        if String.eqb lower "c" then next (orMod key ModCtrl)
        else if String.eqb lower "a" || String.eqb lower "m"
             then next (orMod key ModAlt)
        else if String.eqb lower "s" then next (orMod key ModShift)
        else next (finalPart key part)
      else next (finalPart key part)
  end.

Definition parseVimKey `{CaseTables} (s : string) : Key :=
  let parts := Split s "-" in
  parseParts parts 0 (length parts) KeyZero.

(** [for end < len(runes) && runes[end] != '>' { end++ }], run over the
    suffix [runes[end:]]. *)
Fixpoint scanClose (suffix : list Z) (end_ : nat) : nat :=
  match suffix with
  | [] => end_
  | r :: rest => if r =? 62 then end_ else scanClose rest (S end_)
  end.

(** The loop [for i < len(runes)] of [ParsePattern].  Every iteration
    advances [i], so [len(runes)] iterations are enough. *)
Fixpoint parseLoop `{CaseTables} (fuel : nat) (runes : list Z) (i : nat)
         (keys : list Key) : list Key :=
  match fuel with
  | O => keys
  | S fuel' =>
      match runes !! i with
      | None => keys
      | Some r =>
          let end_ := scanClose (drop (i + 1) runes) (i + 1) in
          if (r =? 60) && (end_ <? length runes)%nat then
            let inner := stringOfRunes (take (end_ - (i + 1)) (drop (i + 1) runes)) in
            parseLoop fuel' runes (end_ + 1) (keys ++ [parseVimKey inner])
          else
            parseLoop fuel' runes (i + 1) (keys ++ [KeyRune r])
      end
  end.

Definition ParsePattern `{CaseTables} (pattern : string) : list Key :=
  if String.eqb pattern "" then []
  else let runes := runesOf pattern in
       parseLoop (length runes) runes 0 [].

(** [generatesEscapeSequence]. *)
Definition generatesEscapeSequence (k : Key) : bool :=
  existsb (Z.eqb (KSpecial k))
    [SpecialUp; SpecialDown; SpecialLeft; SpecialRight; SpecialHome;
     SpecialEnd; SpecialPageUp; SpecialPageDown; SpecialInsert; SpecialDelete;
     SpecialF1; SpecialF2; SpecialF3; SpecialF4; SpecialF5; SpecialF6;
     SpecialF7; SpecialF8; SpecialF9; SpecialF10; SpecialF11; SpecialF12]
  || negb (Z.land (Mod k) ModAlt =? 0).

(** ** Match, Handler, trie *)

Record Match := mkMatch { Keys : list Key; Count : Z }.

Definition Handler := nat.

#[warnings="-register-all"]
Inductive trieNode : Type :=
  TrieNode { children : gmap Key trieNode; handler : option Handler }.

Definition emptyNode : trieNode := TrieNode ∅ None.

(** The loop of [Router.match]: [node] is the node reached, [i] the number of
    keys already walked, [lastHandler]/[lastConsumed] the record so far. *)
Fixpoint matchLoop (node : trieNode) (keys : list Key) (i : Z)
         (lastHandler : option Handler) (lastConsumed : Z)
  : option Handler * Z * bool :=
  match keys with
  | [] => (lastHandler, lastConsumed, negb (bool_decide (size (children node) = 0%nat)))
  | k :: rest =>
      match children node !! k with
      | None =>
          match lastHandler with
          | Some h => (Some h, lastConsumed, false)
          | None => (None, 0, false)
          end
      | Some child =>
          match handler child with
          | Some h => matchLoop child rest (i + 1) (Some h) (i + 1)
          | None => matchLoop child rest (i + 1) lastHandler lastConsumed
          end
      end
  end.

(** ** Router *)

Record namedBinding := mkNamedBinding {
  defaultPattern : string;
  currentPattern : string;
  nbHandler : option Handler
}.

Record Router := mkRouter {
  root : trieNode;
  timeout : Z;
  name : string;
  hasEscapeSequences : bool;
  aliases : option (gmap string string);
  namedBindings : gmap string namedBinding;
  bindingOrder : list string
}.

Definition NewRouter : Router :=
  mkRouter emptyNode 2000000000 "" false None ∅ [].

Definition HasEscapeSequences (r : Router) : bool := hasEscapeSequences r.

Definition SetAlias `{CaseTables} (r : Router) (nm expansion : string) : Router :=
  mkRouter (root r) (timeout r) (name r) (hasEscapeSequences r)
           (Some (<[ToLower nm := expansion]> (default ∅ (aliases r))))
           (namedBindings r) (bindingOrder r).

Fixpoint dropString (n : nat) (s : string) : string :=
  match n, s with
  | O, _ => s
  | S n', EmptyString => EmptyString
  | S n', String _ s' => dropString n' s'
  end.

(** The loop of [expandAliases]; [s] is [pattern[i:]].  Every iteration
    advances [i], so [len(pattern)] iterations are enough. *)
Fixpoint expandLoop `{CaseTables} (fuel : nat) (al : gmap string string)
         (s : string) : string :=
  match fuel with
  | O => EmptyString
  | S fuel' =>
      match s with
      | EmptyString => EmptyString
      | String c rest =>
          if Ascii.eqb c "<" then
            match IndexByte s ">" with
            | None => String c (expandLoop fuel' al rest)
            | Some end_ =>
                let nm := slice s 1 end_ in
                (match al !! ToLower nm with
                 | Some expansion => expansion
                 | None => slice s 0 (end_ + 1)
                 end ++ expandLoop fuel' al (dropString (end_ + 1) s))%string
            end
          else String c (expandLoop fuel' al rest)
      end
  end.

Definition expandAliases `{CaseTables} (r : Router) (pattern : string) : string :=
  match aliases r with
  | None => pattern
  | Some al => expandLoop (String.length pattern) al pattern
  end.

(** The walk of [registerPattern] from [node] along [keys], creating the
    missing children, and the assignment [node.handler = h] at its end. *)
Fixpoint insertPath (node : trieNode) (keys : list Key) (h : option Handler)
  : trieNode :=
  match keys with
  | [] => TrieNode (children node) h
  | k :: rest =>
      let child := default emptyNode (children node !! k) in
      TrieNode (<[k := insertPath child rest h]> (children node)) (handler node)
  end.

Definition registerPattern `{CaseTables} (r : Router) (pattern : string)
           (h : option Handler) : Router :=
  let keys := ParsePattern (expandAliases r pattern) in
  match keys with
  | [] => r
  | _ =>
      mkRouter (insertPath (root r) keys h) (timeout r) (name r)
               (if existsb generatesEscapeSequence keys then true
                else hasEscapeSequences r)
               (aliases r) (namedBindings r) (bindingOrder r)
  end.

(** The walk of [removePattern]: a missing child ends it with nothing
    changed, otherwise the handler of the node reached is cleared. *)
Fixpoint clearPath (node : trieNode) (keys : list Key) : trieNode :=
  match keys with
  | [] => TrieNode (children node) None
  | k :: rest =>
      match children node !! k with
      | None => node
      | Some child =>
          TrieNode (<[k := clearPath child rest]> (children node)) (handler node)
      end
  end.

Definition removePattern `{CaseTables} (r : Router) (pattern : string) : Router :=
  let keys := ParsePattern (expandAliases r pattern) in
  match keys with
  | [] => r
  | _ =>
      mkRouter (clearPath (root r) keys) (timeout r) (name r)
               (hasEscapeSequences r) (aliases r) (namedBindings r)
               (bindingOrder r)
  end.

Definition Handle `{CaseTables} (r : Router) (pattern : string)
           (h : option Handler) : Router :=
  registerPattern r pattern h.

Definition HandleNamed `{CaseTables} (r : Router) (nm defaultPat : string)
           (h : option Handler) : Router :=
  let r1 :=
    mkRouter (root r) (timeout r) (name r) (hasEscapeSequences r) (aliases r)
             (<[nm := mkNamedBinding defaultPat defaultPat h]> (namedBindings r))
             (bindingOrder r ++ [nm]) in
  registerPattern r1 defaultPat h.

Definition Rebind `{CaseTables} (r : Router) (nm pattern : string)
  : Router * bool :=
  match namedBindings r !! nm with
  | None => (r, false)
  | Some binding =>
      let r1 := removePattern r (currentPattern binding) in
      let r2 :=
        mkRouter (root r1) (timeout r1) (name r1) (hasEscapeSequences r1)
                 (aliases r1)
                 (<[nm := mkNamedBinding (defaultPattern binding) pattern
                                         (nbHandler binding)]>
                    (namedBindings r1))
                 (bindingOrder r1) in
      (registerPattern r2 pattern (nbHandler binding), true)
  end.

Definition Reset `{CaseTables} (r : Router) (nm : string) : Router * bool :=
  match namedBindings r !! nm with
  | None => (r, false)
  | Some binding =>
      if String.eqb (currentPattern binding) (defaultPattern binding)
      then (r, true)
      else Rebind r nm (defaultPattern binding)
  end.

(** [Router.match]. *)
Definition Router_match (r : Router) (keys : list Key)
  : option Handler * Z * bool :=
  matchLoop (root r) keys 0 None 0.

(** ** Input: the dispatch state machine *)

(** The timer armed by [time.AfterFunc]: its delay and the [pendingCount]
    its closure captured. *)
Record Timer := mkTimer { after : Z; pendingCount : Z }.

(** [stack] holds the routers themselves: no claim registers a pattern on a
    router while an Input dispatches through it. *)
Record Input := mkInput {
  stack : list Router;
  buffer : list Key;
  countBuffer : string;
  timer : option Timer;
  pending : option Handler;
  pendingKeys : list Key
}.

Definition NewInput (root : option Router) : Input :=
  mkInput (match root with Some r => [r] | None => [] end) [] "" None None [].

(** A call [h(Match{...})] made by an operation. *)
Definition Fire : Type := Handler * Match.

Definition isCountDigit (i : Input) (k : Key) : bool :=
  if negb (Mod k =? ModNone) || negb (KSpecial k =? SpecialNone) then false
  else if (String.length (countBuffer i) =? 0)%nat
       then (49 <=? Rune k) && (Rune k <=? 57)
       else (48 <=? Rune k) && (Rune k <=? 57).

(** The width of Go's [int]; 64 on the platforms the module targets. *)
Definition intSize : Z := 64.

Fixpoint digitsValue (bs : list Z) (acc : Z) : option Z :=
  match bs with
  | [] => Some acc
  | b :: rest =>
      if (48 <=? b) && (b <=? 57) then digitsValue rest (10 * acc + (b - 48))
      else None
  end.

(** [strconv.Atoi]: an optional sign and decimal digits; [None] is a
    non-nil error (syntax, or a value out of the range of [int]). *)
Definition Atoi (s : string) : option Z :=
  let bs := bytesOf s in
  let '(neg, ds) :=
    match bs with
    | b :: r => if b =? 43 then (false, r)
                else if b =? 45 then (true, r) else (false, bs)
    | [] => (false, bs)
    end in
  match ds with
  | [] => None
  | _ =>
      match digitsValue ds 0 with
      | None => None
      | Some v =>
          let n := if neg : bool then - v else v in
          if (- 2 ^ (intSize - 1) <=? n) && (n <=? 2 ^ (intSize - 1) - 1)
          then Some n else None
      end
  end.

Definition parseCount (i : Input) : Z :=
  if String.eqb (countBuffer i) "" then 1
  else match Atoi (countBuffer i) with
       | None => 1
       | Some n => if n <? 1 then 1 else n
       end.

(** [Input.Dispatch].  The result is the new state, the handler call made
    before the function returns (if any), and the returned boolean. *)
Definition Dispatch (i : Input) (key : Key) : Input * option Fire * bool :=
  match last (stack i) with
  | None => (i, None, false)
  | Some router =>
      if isCountDigit i key && (length (buffer i) =? 0)%nat then
        (mkInput (stack i) (buffer i)
                 (countBuffer i ++ stringOfRune (Rune key))%string
                 (timer i) (pending i) (pendingKeys i),
         None, true)
      else
        let wasPending := bool_decide (pending i ≠ None) in
        let buf := buffer i ++ [key] in
        let '(h, consumed, partial) := Router_match router buf in
        if wasPending && (consumed <? Z.of_nat (length buf)) && negb partial
        then (mkInput (stack i) [] "" None None [], None, false)
        else
          match h with
          | Some hd =>
              if negb partial then
                let matchedKeys := take (Z.to_nat consumed) buf in
                let count := parseCount i in
                (mkInput (stack i) (drop (Z.to_nat consumed) buf) "" None None [],
                 Some (hd, mkMatch matchedKeys count), true)
              else
                (mkInput (stack i) buf (countBuffer i)
                         (Some (mkTimer (timeout router) (parseCount i)))
                         (Some hd) (take (Z.to_nat consumed) buf),
                 None, true)
          | None =>
              if partial
              then (mkInput (stack i) buf (countBuffer i) None None [], None, true)
              else (mkInput (stack i) [] "" None None [], None, false)
          end
  end.

(** The function armed by [time.AfterFunc] in [Dispatch], run when the timer
    expires. *)
Definition timerFire (i : Input) : Input * option Fire :=
  match timer i, pending i with
  | Some t, Some hd =>
      (mkInput (stack i) (drop (length (pendingKeys i)) (buffer i)) ""
               (timer i) None [],
       Some (hd, mkMatch (pendingKeys i) (pendingCount t)))
  | _, _ => (i, None)
  end.

(** Keys dispatched one after the other with no timer expiring in between:
    the final state and, for every call in order, the handler call it made
    (if any) and the boolean it returned. *)
Fixpoint DispatchAll (i : Input) (keys : list Key)
  : Input * list (option Fire) * list bool :=
  match keys with
  | [] => (i, [], [])
  | k :: rest =>
      let '(i1, f, b) := Dispatch i k in
      let '(i2, fs, bs) := DispatchAll i1 rest in
      (i2, f :: fs, b :: bs)
  end.

(** ** Reader: the terminal decoder *)

(** What one call of [r.r.Read] delivers: the bytes read and whether the
    error is non-nil. *)
Record ReadEvent := mkEvent { ev_data : list Z; ev_err : bool }.

(** The result a read sends on [readCh]: the bytes left in [tmp[:n]] and
    whether [err] is non-nil. *)
Definition readResult : Type := list Z * bool.

(** [src] is the byte source [r.r], as the results of its future calls of
    [Read]; an exhausted source answers 0 bytes and [io.EOF].  [sched] is the
    scheduler: one boolean for every [select] that waits for [readCh],
    telling whether the result is there before the wait ends.  [readPending]
    holds, while a read is outstanding, the result its goroutine sends. *)
Record Reader := mkReader {
  src : list ReadEvent;
  sched : list bool;
  buf : list Z;
  pos : nat;
  end_ : nat;
  readPending : option readResult;
  parseEscapeSequences : bool
}.

Definition lenTmp : nat := 32.

Definition NewReader (source : list ReadEvent) (sc : list bool) : Reader :=
  mkReader source sc (repeat 0 64) 0 0 None true.


(** [r.r.Read(r.tmp[:space])]. *)
Definition srcRead (source : list ReadEvent) (space : nat)
  : readResult * list ReadEvent :=
  match source with
  | [] => (([], true), [])
  | ev :: rest =>
      if (length (ev_data ev) <=? space)%nat
      then ((ev_data ev, ev_err ev), rest)
      else ((take space (ev_data ev), false),
            mkEvent (drop space (ev_data ev)) (ev_err ev) :: rest)
  end.

(** The next answer of the scheduler; none left means the wait times out. *)
Definition nextTick (sc : list bool) : bool * list bool :=
  match sc with
  | [] => (false, [])
  | b :: rest => (b, rest)
  end.

(** [copy(b[off:], data)]. *)
Definition copyAt (b : list Z) (off : nat) (data : list Z) : list Z :=
  let d := take (length b - off) data in
  take off b ++ d ++ drop (off + length d) b.

(** The slice [b[lo:hi]]. *)
Definition sliceBytes (b : list Z) (lo hi : nat) : list Z :=
  take (hi - lo) (drop lo b).

(** "Shift remaining bytes to start of buffer". *)
Definition shiftBuffer (rd : Reader) : Reader :=
  let available := (end_ rd - pos rd)%nat in
  if (0 <? pos rd)%nat && (0 <? available)%nat then
    mkReader (src rd) (sched rd)
             (copyAt (buf rd) 0 (sliceBytes (buf rd) (pos rd) (end_ rd)))
             0 available (readPending rd) (parseEscapeSequences rd)
  else if (available =? 0)%nat then
    mkReader (src rd) (sched rd) (buf rd) 0 0 (readPending rd)
             (parseEscapeSequences rd)
  else rd.

(** The receipt of a result: [readPending = false] and, when [n > 0], the
    copy of [tmp[:n]] behind [end]. *)
Definition receive (rd : Reader) (res : readResult) : Reader :=
  if (0 <? length res.1)%nat then
    mkReader (src rd) (sched rd) (copyAt (buf rd) (end_ rd) res.1) (pos rd)
             (end_ rd + length res.1) None (parseEscapeSequences rd)
  else
    mkReader (src rd) (sched rd) (buf rd) (pos rd) (end_ rd) None
             (parseEscapeSequences rd).

Definition spaceFor (rd : Reader) : nat :=
  Nat.min (length (buf rd) - end_ rd) lenTmp.

(** The tail of [ensureBytes], "Try to read more"; the boolean is a
    non-nil error. *)
Definition readMore (rd : Reader) : Reader * bool :=
  let space := spaceFor rd in
  if (0 <? space)%nat then
    let '(res, source') := srcRead (src rd) space in
    let rd1 :=
      mkReader source' (sched rd) (buf rd) (pos rd) (end_ rd) (readPending rd)
               (parseEscapeSequences rd) in
    let rd2 :=
      if (0 <? length res.1)%nat then
        mkReader source' (sched rd) (copyAt (buf rd) (end_ rd) res.1) (pos rd)
                 (end_ rd + length res.1) (readPending rd)
                 (parseEscapeSequences rd)
      else rd1 in
    if res.2 && (end_ rd2 =? pos rd2)%nat then (rd2, true) else (rd2, false)
  else (rd, false).

(** [ensureBytes]. *)
Definition ensureBytes (rd : Reader) (n : nat) : Reader * bool :=
  if (n <=? end_ rd - pos rd)%nat then (rd, false)
  else
    let rd1 := shiftBuffer rd in
    match readPending rd1 with
    | Some res =>
        let rd2 := receive rd1 res in
        if res.2 && (end_ rd2 =? pos rd2)%nat then (rd2, true)
        else if (n <=? end_ rd2 - pos rd2)%nat then (rd2, false)
        else readMore rd2
    | None => readMore rd1
    end.

(** The tail of [ensureBytesWithTimeout], "Start new async read with
    timeout": the goroutine reads at once; the wait ends with its result or
    with the timeout, the read staying pending. *)
Definition startRead (rd : Reader) : Reader :=
  let space := spaceFor rd in
  if (0 <? space)%nat then
    let '(res, source') := srcRead (src rd) space in
    let '(inTime, sc') := nextTick (sched rd) in
    let rd1 :=
      mkReader source' sc' (buf rd) (pos rd) (end_ rd) (Some res)
               (parseEscapeSequences rd) in
    if inTime then receive rd1 res else rd1
  else rd.

(** [ensureBytesWithTimeout]. *)
Definition ensureBytesWithTimeout (rd : Reader) (n : nat) : Reader :=
  if (n <=? end_ rd - pos rd)%nat then rd
  else
    let rd1 := shiftBuffer rd in
    match readPending rd1 with
    | Some res =>
        let '(ready, sc1) := nextTick (sched rd1) in
        let rd2 :=
          mkReader (src rd1) sc1 (buf rd1) (pos rd1) (end_ rd1)
                   (readPending rd1) (parseEscapeSequences rd1) in
        if ready then
          let rd3 := receive rd2 res in
          if (n <=? end_ rd3 - pos rd3)%nat then rd3 else startRead rd3
        else
          let '(inTime, sc2) := nextTick sc1 in
          let rd3 :=
            mkReader (src rd1) sc2 (buf rd1) (pos rd1) (end_ rd1)
                     (readPending rd1) (parseEscapeSequences rd1) in
          if inTime then receive rd3 res else rd3
    | None => startRead rd1
    end.

(** [parseModifier]; [b - '1'] is computed on bytes. *)
Definition parseModifier (b : Z) : Modifier :=
  let n := (b - 49) mod 256 in
  let m1 := if negb (Z.land n 1 =? 0) then Z.lor ModNone ModShift else ModNone in
  let m2 := if negb (Z.land n 2 =? 0) then Z.lor m1 ModAlt else m1 in
  if negb (Z.land n 4 =? 0) then Z.lor m2 ModCtrl else m2.

(** [parseSingleByte]. *)
Definition parseSingleByte (b : Z) : Key :=
  if b =? 27 then KeySpecial SpecialEscape
  else if (b =? 13) || (b =? 10) then KeySpecial SpecialEnter
  else if b =? 9 then KeySpecial SpecialTab
  else if (b =? 127) || (b =? 8) then KeySpecial SpecialBackspace
  else if b =? 0 then mkKey 32 ModCtrl SpecialNone
  else if b <? 27 then mkKey ((97 + b - 1) mod 256) ModCtrl SpecialNone
  else if b =? 32 then KeySpecial SpecialSpace
  else KeyRune b.

(** [parseTildeSequence]. *)
Definition parseTildeSequence (b : list Z) : Key :=
  match b with
  | [] => KeySpecial SpecialEscape
  | _ =>
      let numStr := stringOf b in
      let '(md, numStr1) :=
        match IndexByte numStr ";" with
        | Some idx =>
            (if (idx + 1 <? String.length numStr)%nat
             then parseModifier (nth (idx + 1) b 0) else ModNone,
             slice numStr 0 idx)
        | None => (ModNone, numStr)
        end in
      match Atoi numStr1 with
      | None => KeySpecial SpecialEscape
      | Some num =>
          if num =? 1 then mkKey 0 md SpecialHome
          else if num =? 2 then mkKey 0 md SpecialInsert
          else if num =? 3 then mkKey 0 md SpecialDelete
          else if num =? 4 then mkKey 0 md SpecialEnd
          else if num =? 5 then mkKey 0 md SpecialPageUp
          else if num =? 6 then mkKey 0 md SpecialPageDown
          else if num =? 7 then mkKey 0 md SpecialHome
          else if num =? 8 then mkKey 0 md SpecialEnd
          else if (11 <=? num) && (num <=? 15)
               then mkKey 0 md ((SpecialF1 + (num - 11) mod 256) mod 256)
          else if (17 <=? num) && (num <=? 21)
               then mkKey 0 md ((SpecialF6 + (num - 17) mod 256) mod 256)
          else if (23 <=? num) && (num <=? 24)
               then mkKey 0 md ((SpecialF11 + (num - 23) mod 256) mod 256)
          else KeySpecial SpecialEscape
      end
  end.

(** [parseCSI]. *)
Definition parseCSI (b : list Z) : Key :=
  match b with
  | [] => KeySpecial SpecialEscape
  | b0 :: _ =>
      if b0 =? 65 then KeySpecial SpecialUp
      else if b0 =? 66 then KeySpecial SpecialDown
      else if b0 =? 67 then KeySpecial SpecialRight
      else if b0 =? 68 then KeySpecial SpecialLeft
      else if b0 =? 72 then KeySpecial SpecialHome
      else if b0 =? 70 then KeySpecial SpecialEnd
      else if b0 =? 90 then mkKey 0 ModShift SpecialTab
      else
        let md := parseModifier (nth 2 b 0) in
        let b3 := nth 3 b 0 in
        let modified := (4 <=? length b)%nat && (b0 =? 49) && (nth 1 b 0 =? 59) in
        if modified && (b3 =? 65) then mkKey 0 md SpecialUp
        else if modified && (b3 =? 66) then mkKey 0 md SpecialDown
        else if modified && (b3 =? 67) then mkKey 0 md SpecialRight
        else if modified && (b3 =? 68) then mkKey 0 md SpecialLeft
        else if modified && (b3 =? 72) then mkKey 0 md SpecialHome
        else if modified && (b3 =? 70) then mkKey 0 md SpecialEnd
        else if nth (length b - 1) b 0 =? 126
             then parseTildeSequence (take (length b - 1) b)
        else KeySpecial SpecialEscape
  end.

(** [parseSS3]. *)
Definition parseSS3 (b : list Z) : Key :=
  match b with
  | [] => KeySpecial SpecialEscape
  | b0 :: _ =>
      if b0 =? 80 then KeySpecial SpecialF1
      else if b0 =? 81 then KeySpecial SpecialF2
      else if b0 =? 82 then KeySpecial SpecialF3
      else if b0 =? 83 then KeySpecial SpecialF4
      else if b0 =? 72 then KeySpecial SpecialHome
      else if b0 =? 70 then KeySpecial SpecialEnd
      else if b0 =? 65 then KeySpecial SpecialUp
      else if b0 =? 66 then KeySpecial SpecialDown
      else if b0 =? 67 then KeySpecial SpecialRight
      else if b0 =? 68 then KeySpecial SpecialLeft
      else KeySpecial SpecialEscape
  end.

(** [parseEscapeSequence]. *)
Definition parseEscapeSequence (b : list Z) : Key :=
  let b1 := nth 1 b 0 in
  if (length b =? 1)%nat then KeySpecial SpecialEscape
  else if (length b =? 2)%nat && (32 <=? b1) && (b1 <? 127)
       then mkKey b1 ModAlt SpecialNone
  else if (3 <=? length b)%nat && (b1 =? 91) then parseCSI (drop 2 b)
  else if (3 <=? length b)%nat && (b1 =? 79) then parseSS3 (drop 2 b)
  else KeySpecial SpecialEscape.

(** [parseBytes]. *)
Definition parseBytes (b : list Z) : Key :=
  match b with
  | [] => KeyZero
  | [b0] => parseSingleByte b0
  | b0 :: _ => if b0 =? 27 then parseEscapeSequence b else KeyRune b0
  end.

Definition setPos (rd : Reader) (p : nat) : Reader :=
  mkReader (src rd) (sched rd) (buf rd) p (end_ rd) (readPending rd)
           (parseEscapeSequences rd).

(** The scan for the end of a CSI sequence in [ReadKey]: at most eleven
    bytes after ['['], up to the first letter or ['~']. *)
Fixpoint scanCSI (fuel : nat) (rd : Reader) (seqEnd : nat) : nat :=
  match fuel with
  | O => seqEnd
  | S fuel' =>
      if (seqEnd <? end_ rd)%nat && (seqEnd <? pos rd + 12)%nat then
        let c := nth seqEnd (buf rd) 0 in
        if ((65 <=? c) && (c <=? 90)) || ((97 <=? c) && (c <=? 122)) || (c =? 126)
        then S seqEnd
        else scanCSI fuel' rd (S seqEnd)
      else seqEnd
  end.

(** [ReadKey]: the reader after the call and the key, or [None] for the
    error of [ensureBytes]. *)
Definition ReadKey (rd : Reader) : Reader * option Key :=
  let '(rd1, err) := ensureBytes rd 1 in
  if err then (rd1, None)
  else
    let b := nth (pos rd1) (buf rd1) 0 in
    let rd2 := setPos rd1 (pos rd1 + 1) in
    if b =? 27 then
      if negb (parseEscapeSequences rd2) then (rd2, Some (KeySpecial SpecialEscape))
      else
        let rd3 := ensureBytesWithTimeout rd2 1 in
        if (pos rd3 <? end_ rd3)%nat then
          let nextByte := nth (pos rd3) (buf rd3) 0 in
          let rd4 := if nextByte =? 79 then ensureBytesWithTimeout rd3 2 else rd3 in
          if (nextByte =? 79) && (pos rd4 + 1 <? end_ rd4)%nat then
            (setPos rd4 (pos rd4 + 2),
             Some (parseBytes [27; 79; nth (pos rd4 + 1) (buf rd4) 0]))
          else if nextByte =? 91 then
            let rd5 := ensureBytesWithTimeout rd4 8 in
            let seqEnd := scanCSI 12 rd5 (pos rd5 + 1) in
            (setPos rd5 seqEnd,
             Some (parseBytes (27 :: sliceBytes (buf rd5) (pos rd5) seqEnd)))
          else if (32 <=? nextByte) && (nextByte <? 127) then
            (setPos rd4 (pos rd4 + 1), Some (mkKey nextByte ModAlt SpecialNone))
          else (rd4, Some (KeySpecial SpecialEscape))
        else (rd3, Some (KeySpecial SpecialEscape))
    else (rd2, Some (parseSingleByte b)).

(** ** Vocabulary of the statements about the trie *)

(** The node reached from [node] along [keys], if every key has a child. *)
Fixpoint descend (node : trieNode) (keys : list Key) : option trieNode :=
  match keys with
  | [] => Some node
  | k :: rest =>
      match children node !! k with
      | Some child => descend child rest
      | None => None
      end
  end.

(** The number of keys of [keys] that can be walked from [node]. *)
Fixpoint walked (node : trieNode) (keys : list Key) : nat :=
  match keys with
  | [] => 0
  | k :: rest =>
      match children node !! k with
      | Some child => S (walked child rest)
      | None => 0
      end
  end.

(** The handler of the node reached after [j] keys. *)
Definition handlerAtDepth (node : trieNode) (keys : list Key) (j : nat)
  : option Handler :=
  descend node (take j keys) ≫= handler.

(** The handler at [keys], the pattern [keys] being registered when there is
    one. *)
Definition handlerAt (node : trieNode) (keys : list Key) : option Handler :=
  descend node keys ≫= handler.

Definition hasChildren (node : trieNode) : bool :=
  negb (bool_decide (size (children node) = 0%nat)).

(** The result of [Router.match] in the words of its specification: going
    down from depth [j], the first node that carries a handler is the
    deepest one on the walked path. *)
Fixpoint deepestFrom (node : trieNode) (keys : list Key) (j : nat)
  : option Handler * Z :=
  match j with
  | O => (None, 0)
  | S j' =>
      match handlerAtDepth node keys j with
      | Some h => (Some h, Z.of_nat j)
      | None => deepestFrom node keys j'
      end
  end.

Definition hasLongerPrefix (node : trieNode) (keys : list Key) : bool :=
  if (walked node keys <? length keys)%nat then false
  else match descend node keys with
       | Some final => hasChildren final
       | None => false
       end.

Definition match_spec (node : trieNode) (keys : list Key)
  : option Handler * Z * bool :=
  (deepestFrom node keys (walked node keys), hasLongerPrefix node keys).

(** The condition of [Dispatch] under which a key is taken for the count
    prefix. *)
Definition takenAsCount (i : Input) (k : Key) : bool :=
  isCountDigit i k && (length (buffer i) =? 0)%nat.

(** ** Histories of a router *)

(** The operations that change the patterns of a router. *)
Inductive RouterOp :=
| OpHandle (pattern : string) (h : option Handler)
| OpHandleNamed (nm pattern : string) (h : option Handler)
| OpRebind (nm pattern : string)
| OpReset (nm : string)
| OpSetAlias (nm expansion : string).

Definition applyOp `{CaseTables} (r : Router) (op : RouterOp) : Router :=
  match op with
  | OpHandle p h => Handle r p h
  | OpHandleNamed nm p h => HandleNamed r nm p h
  | OpRebind nm p => (Rebind r nm p).1
  | OpReset nm => (Reset r nm).1
  | OpSetAlias nm e => SetAlias r nm e
  end.

Definition runOps `{CaseTables} (r : Router) (ops : list RouterOp) : Router :=
  fold_left applyOp ops r.

(** The key sequence that [op], applied to [r], hands to [registerPattern]. *)
Definition opRegisters `{CaseTables} (r : Router) (op : RouterOp) : list Key :=
  match op with
  | OpHandle p _ | OpHandleNamed _ p _ => ParsePattern (expandAliases r p)
  | OpRebind nm p =>
      match namedBindings r !! nm with
      | Some _ => ParsePattern (expandAliases r p)
      | None => []
      end
  | OpReset nm =>
      match namedBindings r !! nm with
      | Some b =>
          if String.eqb (currentPattern b) (defaultPattern b) then []
          else ParsePattern (expandAliases r (defaultPattern b))
      | None => []
      end
  | OpSetAlias _ _ => []
  end.

(** Every key sequence registered while [ops] run from [r], in order,
    whether or not it was removed later. *)
Fixpoint registrations `{CaseTables} (r : Router) (ops : list RouterOp)
  : list (list Key) :=
  match ops with
  | [] => []
  | op :: rest => opRegisters r op :: registrations (applyOp r op) rest
  end.

(** [ks] strictly extends [keys]. *)
Definition strictlyExtends (keys ks : list Key) : bool :=
  (length keys <? length ks)%nat && bool_decide (take (length keys) ks = keys).

(** A pattern is registered on a trie when the node at its key sequence
    carries a handler. *)
Definition registered (node : trieNode) (keys : list Key) : Prop :=
  keys <> [] /\ handlerAt node keys <> None.

(** ** Vocabulary of the statements about counts *)

(** The key of the decimal digit [d]. *)
Definition digitKey (d : Z) : Key := KeyRune (48 + d).

(** The number written by the decimal digits [ds]. *)
Definition decimal (ds : list Z) : Z :=
  fold_left (fun acc d => 10 * acc + d) ds 0.

(** An unmodified digit key. *)
Definition isDigitKey (k : Key) : bool :=
  (Mod k =? ModNone) && (KSpecial k =? SpecialNone)
  && (48 <=? Rune k) && (Rune k <=? 57).

(** The largest value of Go's [int]. *)
Definition maxInt : Z := 2 ^ (intSize - 1) - 1.

(** ** Vocabulary of the round trip of keys *)

(** A Unicode scalar value: what [string(r)] encodes as itself. *)
Definition validRune (r : Z) : bool :=
  (0 <=? r) && (r <=? MaxRune) && negb ((55296 <=? r) && (r <=? 57343)).

(** The combinations of [ModCtrl], [ModAlt] and [ModShift]. *)
Definition modifierSets : list Z := [0; 2; 4; 6; 8; 10; 12; 14].

(** The integers [lo], [lo + 1], ..., [lo + n - 1]. *)
Definition zrange (lo : Z) (n : nat) : list Z :=
  map (fun j => lo + Z.of_nat j) (seq 0 n).

(** The keys that [ParsePattern] reads back from [Key.String]: a modifier
    set with a special key and no rune, or an unmodified Unicode scalar value
    other than 0, or a modified ASCII rune other than ['-'] and ['>']. *)
Definition rendersFaithfully (k : Key) : bool :=
  bool_decide (Mod k ∈ modifierSets) &&
  (if negb (KSpecial k =? SpecialNone)
   then (SpecialEscape <=? KSpecial k) && (KSpecial k <=? SpecialF12)
        && (Rune k =? 0)
   else if Mod k =? ModNone
        then validRune (Rune k) && negb (Rune k =? 0)
        else (0 <=? Rune k) && (Rune k <=? 127)
             && negb (Rune k =? 45) && negb (Rune k =? 62)).

(** The round trip of one key, as a boolean. *)
Definition roundTrips `{CaseTables} (k : Key) : bool :=
  bool_decide (ParsePattern (Key_String k) = [k]).

(** ** Vocabulary of the statements about the decoder *)

(** The ASCII code of the CSI parameter [M = 1 + shift(1) + alt(2) +
    ctrl(4)]. *)
Definition csiModifier (shift alt ctrl : bool) : Z :=
  48 + (1 + (if shift then 1 else 0) + (if alt then 2 else 0)
          + (if ctrl then 4 else 0)).

Definition modifierOf (shift alt ctrl : bool) : Modifier :=
  Z.lor (Z.lor (if shift then ModShift else ModNone)
               (if alt then ModAlt else ModNone))
        (if ctrl then ModCtrl else ModNone).



(** ** More of the Input: stack, flush, clear *)

(** [clearBuffer]. *)
Definition clearBuffer (i : Input) : Input :=
  mkInput (stack i) [] "" None None [].

(** [Input.Push]. *)
Definition Push (i : Input) (r : Router) : Input :=
  let i1 := clearBuffer i in
  mkInput (stack i1 ++ [r]) (buffer i1) (countBuffer i1) (timer i1)
          (pending i1) (pendingKeys i1).

(** [Input.Pop]. *)
Definition Pop (i : Input) : Input :=
  if (1 <? length (stack i))%nat then
    let i1 := clearBuffer i in
    mkInput (take (length (stack i1) - 1) (stack i1)) (buffer i1)
            (countBuffer i1) (timer i1) (pending i1) (pendingKeys i1)
  else i.

(** [Input.Current]; [None] is nil. *)
Definition Current (i : Input) : option Router := last (stack i).

(** [Input.Depth]. *)
Definition Depth (i : Input) : nat := length (stack i).

(** [Input.Flush]: the new state and the handler call made, if any. *)
Definition Flush (i : Input) : Input * option Fire :=
  match pending i with
  | Some hd =>
      (mkInput (stack i) [] "" None None [],
       Some (hd, mkMatch (pendingKeys i) (parseCount i)))
  | None => (i, None)
  end.

(** [Input.Clear]. *)
Definition Clear (i : Input) : Input := clearBuffer i.

(** [Input.Pending]. *)
Definition Pending (i : Input) : string * list Key := (countBuffer i, buffer i).

(** The operations on an Input, the expiry of its timer among them. *)
Inductive InputOp :=
| IDispatch (k : Key)
| ITimer
| IFlush
| IClear
| IPush (r : Router)
| IPop.

(** One operation: the new state and the handler call it made, if any. *)
Definition applyInput (i : Input) (op : InputOp) : Input * option Fire :=
  match op with
  | IDispatch k => (Dispatch i k).1
  | ITimer => timerFire i
  | IFlush => Flush i
  | IClear => (Clear i, None)
  | IPush r => (Push i r, None)
  | IPop => (Pop i, None)
  end.

Definition runInput (i : Input) (ops : list InputOp) : Input :=
  fold_left (fun i op => (applyInput i op).1) ops i.

(** ** More of the Router: introspection of the named bindings *)

Record Binding := mkBinding {
  BName : string;
  BPattern : string;
  BDefaultPattern : string
}.

(** [Router.Bindings]. *)
Definition Bindings (r : Router) : list Binding :=
  flat_map (fun nm =>
              match namedBindings r !! nm with
              | Some b => [mkBinding nm (currentPattern b) (defaultPattern b)]
              | None => []
              end)
           (bindingOrder r).

(** [Router.BindingsMap] and [Router.DefaultBindingsMap]. *)
Definition BindingsMap (r : Router) : gmap string string :=
  currentPattern <$> namedBindings r.

Definition DefaultBindingsMap (r : Router) : gmap string string :=
  defaultPattern <$> namedBindings r.

(** [Router.ResetAll] ranges over the map [namedBindings], in an order Go
    does not fix: [order] is the order taken, a permutation of the names. *)
Definition ResetAll `{CaseTables} (r : Router) (order : list string) : Router :=
  fold_left (fun r nm => (Reset r nm).1) order r.

(** [Router.ApplyBindings] ranges over the map it is given in the same way:
    [order] lists that map's entries in the order taken. *)
Definition ApplyBindings `{CaseTables} (r : Router)
           (order : list (string * string)) : Router :=
  fold_left (fun r b => (Rebind r b.1 b.2).1) order r.

(** [Router.Timeout], [Router.Name], [Router.GetName]. *)
Definition Timeout (r : Router) (d : Z) : Router :=
  mkRouter (root r) d (name r) (hasEscapeSequences r) (aliases r)
           (namedBindings r) (bindingOrder r).

Definition Name (r : Router) (nm : string) : Router :=
  mkRouter (root r) (timeout r) nm (hasEscapeSequences r) (aliases r)
           (namedBindings r) (bindingOrder r).

Definition GetName (r : Router) : string := name r.

(** The names given to [HandleNamed] along a history, in order. *)
Definition namedOps (ops : list RouterOp) : list string :=
  flat_map (fun op => match op with
                      | OpHandleNamed nm _ _ => [nm]
                      | _ => []
                      end) ops.

(** Every name a router lists in [bindingOrder] has a binding. *)
Definition orderCovered (r : Router) : Prop :=
  forall nm, nm ∈ bindingOrder r -> is_Some (namedBindings r !! nm).

(** ** Vocabulary of the statements about the pending match *)

(** What the operations keep true of the pending match of an Input: while a
    handler is pending, the pending keys are a non-empty prefix of the
    buffer at which the active router holds that handler, and the timer is
    armed with that router's timeout and the count the accumulator still
    gives; with no handler pending there are no pending keys. *)
Definition pendingSound (i : Input) : Prop :=
  match pending i with
  | Some h =>
      pendingKeys i <> []
      /\ pendingKeys i `prefix_of` buffer i
      /\ exists r, last (stack i) = Some r
                   /\ handlerAt (root r) (pendingKeys i) = Some h
                   /\ timer i = Some (mkTimer (timeout r) (parseCount i))
  | None => pendingKeys i = []
  end.

(** ** Vocabulary of the statement about rendered key sequences *)

(** The textual form of a key sequence: the [String()] of its keys one
    after the other. *)
Definition renderKeys (ks : list Key) : string :=
  fold_right (fun k s => (Key_String k ++ s)%string) EmptyString ks.

(** The bytes [bs] are a bracket [<...>] of ASCII bytes whose first ['>'] is
    its last byte and whose inside [parseVimKey] reads as [k]. *)
Definition bracketOf `{CaseTables} (k : Key) (bs : list Z) : bool :=
  match bs with
  | b :: rest =>
      (b =? 60)
      && (S (scanClose rest 0) =? length rest)%nat
      && forallb (fun c => (0 <=? c) && (c <? 128)) rest
      && bool_decide
           (parseVimKey (stringOfRunes (take (scanClose rest 0) rest)) = k)
  | [] => false
  end.

(** ** Vocabulary of the statements about the Reader's buffer *)

(** A call of [Read] returns at least one byte or a non-nil error. *)
Definition eventOk (res : readResult) : Prop := res.1 <> [] \/ res.2 = true.

(** The bytes buffered and not yet consumed, [buf[pos:end]]. *)
Definition buffered (rd : Reader) : list Z :=
  sliceBytes (buf rd) (pos rd) (end_ rd).

(** The bytes not yet in the buffer: those an outstanding read holds, then
    those the source has yet to deliver. *)
Definition unread (rd : Reader) : list Z :=
  match readPending rd with Some res => res.1 | None => [] end
  ++ concat (map ev_data (src rd)).

(** The input no key has consumed yet, in order. *)
Definition stream (rd : Reader) : list Z := buffered rd ++ unread rd.

(** The indices of the buffer are in bounds, the source returns a byte or an
    error at every call, and the result of an outstanding read fits behind
    [end]. *)
Definition readerOk (rd : Reader) : Prop :=
  (pos rd <= end_ rd)%nat /\ (end_ rd <= length (buf rd))%nat
  /\ length (buf rd) = 64%nat
  /\ Forall (fun ev => eventOk (ev_data ev, ev_err ev)) (src rd)
  /\ match readPending rd with
     | Some res => eventOk res /\ (end_ rd + length res.1 <= length (buf rd))%nat
     | None => True
     end.

(** A step from [rd] to [rd'] that keeps the reader in order and only moves
    bytes, in order, from the unread input to the end of the buffered
    bytes. *)
Definition moved (rd rd' : Reader) : Prop :=
  readerOk rd'
  /\ exists extra, buffered rd' = buffered rd ++ extra
                   /\ unread rd = extra ++ unread rd'.

(** ** Run: the loop that reads and dispatches *)




(** ** Vocabulary of the statements about escape sequences *)

(** The bytes that end a CSI sequence for [ReadKey]: a letter or ['~']. *)
Definition isTerminator (c : Z) : bool :=
  ((65 <=? c) && (c <=? 90)) || ((97 <=? c) && (c <=? 122)) || (c =? 126).

(** A whole escape sequence: [ESC [], at most ten bytes that are no
    terminators, and a terminator; or [ESC O] and one byte; or [ESC] and a
    printable byte other than ['['] and ['O']. *)
Definition wholeSequence (seq : list Z) : bool :=
  match seq with
  | e :: c :: rest =>
      (e =? 27)
      && (if c =? 91 then
            (0 <? length rest)%nat && (length rest <=? 11)%nat
            && forallb (fun x => negb (isTerminator x)) (removelast rest)
            && isTerminator (List.last rest 0)
          else if c =? 79 then (length rest =? 1)%nat
          else (32 <=? c) && (c <? 127) && (length rest =? 0)%nat)
  | _ => false
  end.

(** ** Vocabulary of the statements about the CSI tables *)

(** The keys xterm numbers in [ESC [ N ~]: 1 to 8 for the editing keys, 11
    to 15 for F1 to F5, 17 to 21 for F6 to F10, 23 and 24 for F11 and F12. *)
Definition tildeKeys : list (Z * Special) :=
  [(1, SpecialHome); (2, SpecialInsert); (3, SpecialDelete); (4, SpecialEnd);
   (5, SpecialPageUp); (6, SpecialPageDown); (7, SpecialHome); (8, SpecialEnd);
   (11, SpecialF1); (12, SpecialF2); (13, SpecialF3); (14, SpecialF4);
   (15, SpecialF5); (17, SpecialF6); (18, SpecialF7); (19, SpecialF8);
   (20, SpecialF9); (21, SpecialF10); (23, SpecialF11); (24, SpecialF12)].

(** The keys lettered in [ESC [ 1 ; M X]. *)
Definition letterKeys : list (Z * Special) :=
  [(65, SpecialUp); (66, SpecialDown); (67, SpecialRight); (68, SpecialLeft);
   (72, SpecialHome); (70, SpecialEnd)].

(** The key a table gives to [n] under the modifiers [m]; Escape for a
    number or letter that is not in the table. *)
Definition tableKey (table : list (Z * Special)) (n : Z) (m : Modifier) : Key :=
  match (list_to_map table : gmap Z Special) !! n with
  | Some sp => mkKey 0 m sp
  | None => KeySpecial SpecialEscape
  end.

(** The modifier parameter [; M] of a sequence, if it has one. *)
Definition modifierParam (md : option (bool * bool * bool)) : list Z :=
  match md with
  | Some (shift, alt, ctrl) => [59; csiModifier shift alt ctrl]
  | None => []
  end.

Definition modifierGiven (md : option (bool * bool * bool)) : Modifier :=
  match md with
  | Some (shift, alt, ctrl) => modifierOf shift alt ctrl
  | None => ModNone
  end.

(** The bytes [ESC [ N ~] and [ESC [ N ; M ~] for the decimal digits [ds]
    of [N]. *)
Definition tildeSequence (ds : list Z) (md : option (bool * bool * bool))
  : list Z :=
  [27; 91] ++ map (Z.add 48) ds ++ modifierParam md ++ [126].

(** The lists of at most [n] decimal digits. *)
Fixpoint digitLists (n : nat) : list (list Z) :=
  match n with
  | O => [[]]
  | S n' => [] :: flat_map (fun d => map (cons d) (digitLists n')) (zrange 0 10)
  end.

(** Every choice of the modifier parameter. *)
Definition modifierParams : list (option (bool * bool * bool)) :=
  None :: flat_map (fun s => flat_map (fun a => map (fun c => Some (s, a, c))
                                                    [false; true])
                                      [false; true])
                   [false; true].

(** ** Vocabulary of the statement about modifier prefixes *)

(** The letters that name a modifier before the last part of a bracket:
    C for Ctrl, A or M for Alt, S for Shift, in either case. *)
Definition modifierLetter (s : string) : option Modifier :=
  if String.eqb s "C" || String.eqb s "c" then Some ModCtrl
  else if String.eqb s "A" || String.eqb s "a"
          || String.eqb s "M" || String.eqb s "m" then Some ModAlt
  else if String.eqb s "S" || String.eqb s "s" then Some ModShift
  else None.

(** Some part of [mods] names the modifier [m]. *)
Definition namesModifier (mods : list string) (m : Modifier) : bool :=
  existsb (fun s => bool_decide (modifierLetter s = Some m)) mods.

(** * Theorems *)

(** ** The loops of the pattern compiler and of the alias expansion *)

Section LoopFuel.

Context `{CaseTables}.

Lemma scanClose_ge suffix : forall e, (e <= scanClose suffix e)%nat.
Proof.
  induction suffix as [|r suffix IH]; intros e; cbn; [lia|].
  destruct (r =? 62); [lia|]. specialize (IH (S e)). lia.
Qed.

(** [parseLoop] never runs out of fuel: any fuel that covers the runes left
    gives the same keys. *)
Lemma parseLoop_fuel runes : forall fuel1 fuel2 i keys,
  (length runes - i <= fuel1)%nat -> (length runes - i <= fuel2)%nat ->
  parseLoop fuel1 runes i keys = parseLoop fuel2 runes i keys.
Proof.
  induction fuel1 as [|fuel1 IH]; intros fuel2 i keys H1 H2.
  - destruct fuel2 as [|fuel2]; [done|]. cbn [parseLoop].
    by rewrite lookup_ge_None_2 by lia.
  - cbn [parseLoop]. destruct (runes !! i) as [r|] eqn:Hi.
    + pose proof (lookup_lt_Some _ _ _ Hi) as Hlt.
      destruct fuel2 as [|fuel2]; [lia|]. cbn [parseLoop]. rewrite Hi.
      pose proof (scanClose_ge (drop (i + 1) runes) (i + 1)).
      destruct (_ && _); apply IH; lia.
    + destruct fuel2 as [|fuel2]; [done|]. cbn [parseLoop]. by rewrite Hi.
Qed.

Lemma dropString_length n : forall s,
  String.length (dropString n s) = (String.length s - n)%nat.
Proof.
  induction n as [|n IH]; intros s; cbn; [lia|].
  destruct s as [|c s]; [done|]. cbn. apply IH.
Qed.

(** [expandLoop] never runs out of fuel either. *)
Lemma expandLoop_fuel al : forall fuel1 fuel2 s,
  (String.length s <= fuel1)%nat -> (String.length s <= fuel2)%nat ->
  expandLoop fuel1 al s = expandLoop fuel2 al s.
Proof.
  induction fuel1 as [|fuel1 IH]; intros fuel2 s H1 H2.
  - destruct s as [|c s]; [|cbn in H1; lia]. by destruct fuel2.
  - destruct s as [|c s]; [by destruct fuel2|].
    destruct fuel2 as [|fuel2]; [cbn in H2; lia|].
    cbn [expandLoop String.length] in *.
    destruct (Ascii.eqb c "<").
    + destruct (IndexByte (String c s) ">") as [e|].
      * f_equal. apply IH; rewrite dropString_length; cbn; lia.
      * f_equal. apply IH; lia.
    + f_equal. apply IH; lia.
Qed.

End LoopFuel.

(** ** The match engine *)

Section MatchEngine.

Implicit Types (node child : trieNode) (keys : list Key) (k : Key).

Lemma deepestFrom_cons node child k keys j :
  children node !! k = Some child ->
  deepestFrom node (k :: keys) (S j) =
    match deepestFrom child keys j with
    | (Some h, d) => (Some h, d + 1)
    | (None, _) =>
        match handler child with
        | Some h => (Some h, 1)
        | None => (None, 0)
        end
    end.
Proof.
  intros Hc. induction j as [|j IH].
  - cbn [deepestFrom]. unfold handlerAtDepth. cbn. rewrite Hc.
    rewrite take_0. cbn. by destruct (handler child).
  - change (deepestFrom node (k :: keys) (S (S j)))
      with (match handlerAtDepth node (k :: keys) (S (S j)) with
            | Some h => (Some h, Z.of_nat (S (S j)))
            | None => deepestFrom node (k :: keys) (S j)
            end).
    change (deepestFrom child keys (S j))
      with (match handlerAtDepth child keys (S j) with
            | Some h => (Some h, Z.of_nat (S j))
            | None => deepestFrom child keys j
            end).
    assert (handlerAtDepth node (k :: keys) (S (S j))
            = handlerAtDepth child keys (S j)) as ->.
    { unfold handlerAtDepth. cbn. by rewrite Hc. }
    destruct (handlerAtDepth child keys (S j)) as [h|].
    + f_equal. lia.
    + exact IH.
Qed.

Lemma deepestFrom_None_snd node keys j d :
  deepestFrom node keys j = (None, d) -> d = 0.
Proof.
  induction j as [|j IH]; cbn [deepestFrom].
  - by intros [= <-].
  - destruct (handlerAtDepth node keys (S j)); [done | exact IH].
Qed.

Lemma hasLongerPrefix_cons node child k keys :
  children node !! k = Some child ->
  hasLongerPrefix node (k :: keys) = hasLongerPrefix child keys.
Proof.
  intros Hc. unfold hasLongerPrefix. cbn. rewrite Hc. reflexivity.
Qed.

(** The loop invariant of [match]: the record so far is overridden by the
    deepest handler below [node], shifted by the [i] keys already walked. *)
Lemma matchLoop_spec keys : forall node i lastHandler lastConsumed,
  (lastHandler = None -> lastConsumed = 0) ->
  matchLoop node keys i lastHandler lastConsumed =
    match deepestFrom node keys (walked node keys) with
    | (Some h, d) => (Some h, i + d, hasLongerPrefix node keys)
    | (None, _) => (lastHandler, lastConsumed, hasLongerPrefix node keys)
    end.
Proof.
  induction keys as [|k keys IH]; intros node i lh lc Hinv.
  - reflexivity.
  - cbn [matchLoop walked].
    destruct (children node !! k) as [child|] eqn:Hc.
    + rewrite (deepestFrom_cons _ _ _ _ _ Hc), (hasLongerPrefix_cons _ _ _ _ Hc).
      destruct (handler child) as [h|] eqn:Hh.
      * rewrite IH by done.
        destruct (deepestFrom child keys (walked child keys)) as [[h'|] d];
          first [reflexivity | do 2 f_equal; lia].
      * rewrite IH by done.
        destruct (deepestFrom child keys (walked child keys)) as [[h'|] d];
          first [reflexivity | do 2 f_equal; lia].
    + cbn [deepestFrom]. unfold hasLongerPrefix. cbn. rewrite Hc. cbn.
      destruct lh; [done|]. by rewrite Hinv.
Qed.

(** What [deepestFrom] returns: a handler found at depth [c] with none
    deeper, or no handler at any depth. *)
Lemma deepestFrom_Some node keys m h c :
  deepestFrom node keys m = (Some h, c) ->
  exists j, c = Z.of_nat j /\ (1 <= j <= m)%nat
            /\ handlerAtDepth node keys j = Some h
            /\ forall j', (j < j' <= m)%nat -> handlerAtDepth node keys j' = None.
Proof.
  induction m as [|m IH]; cbn [deepestFrom]; [done|].
  destruct (handlerAtDepth node keys (S m)) as [h'|] eqn:E.
  - intros [= -> <-]. exists (S m). repeat split; [lia | lia | done | lia].
  - intros Hd. destruct (IH Hd) as (j & -> & Hj & Hh & Hnone).
    exists j. repeat split; [lia | lia | done |].
    intros j' Hj'. destruct (decide (j' = S m)) as [->|]; [done|].
    apply Hnone. lia.
Qed.

Lemma deepestFrom_None node keys m c :
  deepestFrom node keys m = (None, c) ->
  c = 0 /\ forall j, (1 <= j <= m)%nat -> handlerAtDepth node keys j = None.
Proof.
  induction m as [|m IH]; cbn [deepestFrom].
  - intros [= <-]. split; [done | lia].
  - destruct (handlerAtDepth node keys (S m)) as [h'|] eqn:E; [done|].
    intros Hd. destruct (IH Hd) as [-> Hnone]. split; [done|].
    intros j Hj. destruct (decide (j = S m)) as [->|]; [done|].
    apply Hnone. lia.
Qed.

End MatchEngine.

(** [Router.match] computes [match_spec]. *)
Lemma Router_match_spec (r : Router) (keys : list Key) :
  Router_match r keys = match_spec (root r) keys.
Proof.
  unfold Router_match, match_spec.
  rewrite matchLoop_spec by done.
  destruct (deepestFrom (root r) keys (walked (root r) keys)) as [[h|] d] eqn:E.
  - by rewrite Z.add_0_l.
  - by rewrite (deepestFrom_None_snd _ _ _ _ E).
Qed.

(** C2.  For every router and every key buffer, [Router.match] returns the
    handler of the deepest handler-bearing node on the walked path with the
    number of keys consumed to reach it (no handler and 0 when there is
    none); its third result is false when some key has no child, and
    otherwise tells whether the final node has children. *)
Theorem match_returns_deepest_handler (r : Router) (keys : list Key) :
  Router_match r keys = match_spec (root r) keys
  /\ match_spec (root r) keys
     = (deepestFrom (root r) keys (walked (root r) keys),
        if (walked (root r) keys <? length keys)%nat then false
        else match descend (root r) keys with
             | Some final => negb (bool_decide (size (children final) = 0%nat))
             | None => false
             end).
Proof. split; [apply Router_match_spec | reflexivity]. Qed.

(** ** Paths of the trie *)

Section TriePaths.

Implicit Types (node child final : trieNode) (keys ks : list Key) (k : Key).

Lemma descend_app node ks1 ks2 :
  descend node (ks1 ++ ks2) = descend node ks1 ≫= fun n => descend n ks2.
Proof.
  revert node. induction ks1 as [|k ks1 IH]; intros node; cbn; [done|].
  destruct (children node !! k); cbn; [apply IH | done].
Qed.

Lemma descend_walked node keys final :
  descend node keys = Some final -> walked node keys = length keys.
Proof.
  revert node. induction keys as [|k keys IH]; intros node; cbn; [done|].
  destruct (children node !! k); [|done]. intros H. by rewrite (IH _ H).
Qed.

Lemma hasChildren_lookup node k child :
  children node !! k = Some child -> hasChildren node = true.
Proof.
  intros H. unfold hasChildren. rewrite bool_decide_eq_false_2; [done|].
  intros Hs. apply map_size_empty_inv in Hs. rewrite Hs in H.
  by rewrite lookup_empty in H.
Qed.

Lemma hasChildren_inv node :
  hasChildren node = true -> exists k child, children node !! k = Some child.
Proof.
  unfold hasChildren. intros H. apply negb_true_iff, bool_decide_eq_false in H.
  apply map_choose. intros He. apply H. rewrite He. apply map_size_empty.
Qed.

(** A buffer that reaches a node has walked all its keys: the third result
    of [match] is whether that node has children. *)
Lemma hasLongerPrefix_reached node keys final :
  descend node keys = Some final ->
  hasLongerPrefix node keys = hasChildren final.
Proof.
  intros H. unfold hasLongerPrefix.
  rewrite (descend_walked _ _ _ H), H.
  by rewrite (proj2 (Nat.ltb_ge _ _)) by lia.
Qed.

(** A pattern registered at [keys] is what [match] finds on [keys]. *)
Lemma match_spec_registered node keys final h :
  keys <> [] ->
  descend node keys = Some final -> handler final = Some h ->
  match_spec node keys = (Some h, Z.of_nat (length keys), hasChildren final).
Proof.
  intros Hne Hd Hh. unfold match_spec.
  rewrite (hasLongerPrefix_reached _ _ _ Hd), (descend_walked _ _ _ Hd).
  destruct keys as [|k keys]; [done|].
  cbn [length deepestFrom]. unfold handlerAtDepth.
  change (S (length keys)) with (length (k :: keys)).
  rewrite firstn_all, Hd. cbn. by rewrite Hh.
Qed.

(** On a proper prefix of a path of the trie, [match] consumes no more
    than the prefix and reports a longer prefix. *)
Lemma match_spec_prefix node ks k rest final :
  descend node (ks ++ k :: rest) = Some final ->
  exists ho c, match_spec node ks = (ho, c, true) /\ c <= Z.of_nat (length ks).
Proof.
  intros Hd. rewrite descend_app in Hd.
  destruct (descend node ks) as [mid|] eqn:Hmid; [|done]. cbn in Hd.
  destruct (children mid !! k) as [child|] eqn:Hc; [|done].
  unfold match_spec.
  rewrite (hasLongerPrefix_reached _ _ _ Hmid), (hasChildren_lookup _ _ _ Hc).
  rewrite (descend_walked _ _ _ Hmid).
  destruct (deepestFrom node ks (length ks)) as [ho c] eqn:E.
  exists ho, c. split; [done|].
  clear -E. revert E. generalize (length ks) as j.
  induction j as [|j IH]; cbn [deepestFrom].
  - intros [= <- <-]. lia.
  - destruct (handlerAtDepth node ks (S j)).
    + intros [= <- <-]. lia.
    + intros E. specialize (IH E). lia.
Qed.

End TriePaths.

(** ** Steps of the dispatcher *)

Section DispatchSteps.

Implicit Types (i : Input) (r : Router) (k : Key) (keys : list Key).

Lemma takenAsCount_buffered i k :
  buffer i <> [] -> takenAsCount i k = false.
Proof.
  intros H. unfold takenAsCount. destruct (buffer i); [done|].
  apply andb_false_r.
Qed.

Lemma parseCount_countBuffer i i' :
  countBuffer i' = countBuffer i -> parseCount i' = parseCount i.
Proof. unfold parseCount. by intros ->. Qed.

Lemma isCountDigit_countBuffer i i' k :
  countBuffer i' = countBuffer i -> isCountDigit i' k = isCountDigit i k.
Proof. unfold isCountDigit. by intros ->. Qed.

(** Step 1 of the algorithm: a count digit is appended to the accumulator. *)
Lemma Dispatch_count i r k :
  last (stack i) = Some r -> takenAsCount i k = true ->
  Dispatch i k =
    (mkInput (stack i) (buffer i)
             (countBuffer i ++ stringOfRune (Rune k))%string
             (timer i) (pending i) (pendingKeys i), None, true).
Proof.
  intros Hr Hc. unfold Dispatch. rewrite Hr.
  unfold takenAsCount in Hc. by rewrite Hc.
Qed.

(** Steps 5 and 6: a longer prefix is possible, the key stays buffered. *)
Lemma Dispatch_buffers i r k ho c :
  last (stack i) = Some r -> takenAsCount i k = false ->
  Router_match r (buffer i ++ [k]) = (ho, c, true) ->
  exists t p pk,
    Dispatch i k =
      (mkInput (stack i) (buffer i ++ [k]) (countBuffer i) t p pk, None, true).
Proof.
  intros Hr Hc Hm. unfold Dispatch. rewrite Hr.
  unfold takenAsCount in Hc. rewrite Hc, Hm.
  rewrite andb_false_r. destruct ho; cbn; eauto.
Qed.

(** Step 4: the whole buffer is a pattern with no longer prefix. *)
Lemma Dispatch_fires i r k h :
  last (stack i) = Some r -> takenAsCount i k = false ->
  Router_match r (buffer i ++ [k])
    = (Some h, Z.of_nat (length (buffer i ++ [k])), false) ->
  Dispatch i k =
    (mkInput (stack i) [] "" None None [],
     Some (h, mkMatch (buffer i ++ [k]) (parseCount i)), true).
Proof.
  intros Hr Hc Hm. unfold Dispatch. rewrite Hr.
  unfold takenAsCount in Hc. rewrite Hc, Hm.
  rewrite Z.ltb_irrefl, andb_false_r. cbn [andb negb].
  rewrite Nat2Z.id, firstn_all, drop_all. reflexivity.
Qed.

(** From a state whose buffer is a prefix of a registered pattern with no
    children below it, the remaining keys complete the pattern: only the
    last call fires, every call returns true. *)
Lemma DispatchAll_completes r h final : forall rest i,
  rest <> [] ->
  last (stack i) = Some r ->
  descend (root r) (buffer i ++ rest) = Some final ->
  handler final = Some h ->
  hasChildren final = false ->
  (forall k, head rest = Some k -> takenAsCount i k = false) ->
  DispatchAll i rest =
    (mkInput (stack i) [] "" None None [],
     repeat None (length rest - 1)
       ++ [Some (h, mkMatch (buffer i ++ rest) (parseCount i))],
     repeat true (length rest)).
Proof.
  induction rest as [|k rest IH]; intros i Hne Hr Hd Hh Hch Hcnt; [done|].
  cbn [DispatchAll].
  specialize (Hcnt k eq_refl).
  assert (buffer i ++ [k] <> []) as Hbuf by (by destruct (buffer i)).
  destruct (decide (rest = [])) as [->|Hrest].
  - assert (Router_match r (buffer i ++ [k])
            = (Some h, Z.of_nat (length (buffer i ++ [k])), false)) as Hm.
    { rewrite Router_match_spec.
      rewrite (match_spec_registered _ _ _ _ Hbuf Hd Hh).
      by rewrite Hch. }
    rewrite (Dispatch_fires _ _ _ _ Hr Hcnt Hm). reflexivity.
  - assert (exists ho c, Router_match r (buffer i ++ [k]) = (ho, c, true))
      as (ho & c & Hm).
    { destruct rest as [|k' rest']; [done|].
      destruct (match_spec_prefix (root r) (buffer i ++ [k]) k' rest' final)
        as (ho & c & Hm & _); [by rewrite <- app_assoc|].
      exists ho, c. by rewrite Router_match_spec. }
    destruct (Dispatch_buffers _ _ _ _ _ Hr Hcnt Hm) as (t & p & pk & ->).
    set (i1 := mkInput _ _ _ t p pk).
    rewrite (IH i1); [| done | exact Hr | | exact Hh | exact Hch |].
    + change (parseCount i1) with (parseCount i).
      change (stack i1) with (stack i).
      change (buffer i1) with (buffer i ++ [k]).
      rewrite <- app_assoc. cbn [app length Nat.sub]. rewrite Nat.sub_0_r.
      destruct rest as [|k' rest']; [done|]. cbn [length Nat.sub repeat].
      by rewrite Nat.sub_0_r.
    + cbn. by rewrite <- app_assoc.
    + intros k0 _. by apply takenAsCount_buffered.
Qed.

End DispatchSteps.

(** ** Invariants of the routers built by the API *)

Section RouterInvariants.

Context `{CaseTables}.
Implicit Types (node child : trieNode) (keys ks : list Key) (k : Key)
       (r : Router) (ops : list RouterOp).

(** The paths of the trie after [registerPattern]: old paths and prefixes
    of the new pattern. *)
Lemma descend_insertPath keys : forall node h ks final,
  descend (insertPath node keys h) ks = Some final ->
  is_Some (descend node ks) \/ ks `prefix_of` keys.
Proof.
  induction keys as [|k keys IH]; intros node h ks final.
  - destruct ks as [|k' ks]; cbn; [by left; eauto | eauto].
  - destruct ks as [|k' ks]; cbn; [by left; eauto|].
    rewrite lookup_insert. case_decide as Hk.
    + subst k'. intros Hd. apply IH in Hd as [Hd|Hp].
      * destruct (children node !! k) as [child|]; cbn in *.
        -- by left.
        -- right. destruct ks as [|k2 ks]; [|by destruct Hd].
           apply prefix_cons, prefix_nil.
      * right. by apply prefix_cons.
    + intros Hd. left. by rewrite Hd.
Qed.

Lemma descend_clearPath keys : forall node ks final,
  descend (clearPath node keys) ks = Some final ->
  is_Some (descend node ks).
Proof.
  induction keys as [|k keys IH]; intros node ks final.
  - destruct ks as [|k' ks]; cbn; eauto.
  - cbn [clearPath]. destruct (children node !! k) as [child|] eqn:Hc; [|eauto].
    destruct ks as [|k' ks]; cbn; [eauto|].
    rewrite lookup_insert. case_decide as Hk.
    + subst k'. rewrite Hc. apply IH.
    + intros Hd. by rewrite Hd.
Qed.

Lemma handler_insertPath node keys h :
  keys <> [] -> handler (insertPath node keys h) = handler node.
Proof. by destruct keys. Qed.

Lemma handler_clearPath node keys :
  keys <> [] -> handler (clearPath node keys) = handler node.
Proof. destruct keys as [|k keys]; [done|]. cbn. by destruct (children node !! k). Qed.

(** The effect of [registerPattern] and [removePattern] on the fields the
    claims read. *)
Lemma registerPattern_flag r p h :
  hasEscapeSequences (registerPattern r p h) =
    existsb generatesEscapeSequence (ParsePattern (expandAliases r p))
    || hasEscapeSequences r.
Proof.
  unfold registerPattern.
  destruct (ParsePattern (expandAliases r p)) as [|k keys]; [done|].
  cbn [hasEscapeSequences]. by destruct (existsb _ _).
Qed.

Lemma removePattern_flag r p :
  hasEscapeSequences (removePattern r p) = hasEscapeSequences r.
Proof.
  unfold removePattern. by destruct (ParsePattern (expandAliases r p)).
Qed.

Lemma registerPattern_root r p h :
  root (registerPattern r p h) =
    match ParsePattern (expandAliases r p) with
    | [] => root r
    | keys => insertPath (root r) keys h
    end.
Proof. unfold registerPattern. by destruct (ParsePattern _). Qed.

Lemma removePattern_root r p :
  root (removePattern r p) =
    match ParsePattern (expandAliases r p) with
    | [] => root r
    | keys => clearPath (root r) keys
    end.
Proof. unfold removePattern. by destruct (ParsePattern _). Qed.

Lemma registerPattern_aliases r p h :
  aliases (registerPattern r p h) = aliases r.
Proof. unfold registerPattern. by destruct (ParsePattern _). Qed.

Lemma removePattern_aliases r p : aliases (removePattern r p) = aliases r.
Proof. unfold removePattern. by destruct (ParsePattern _). Qed.

Lemma expandAliases_aliases r r' p :
  aliases r' = aliases r -> expandAliases r' p = expandAliases r p.
Proof. unfold expandAliases. by intros ->. Qed.

(** One operation: the flag is or-ed with the escape keys of what the
    operation registers; the paths of the trie are old paths or prefixes of
    what it registers; the root keeps its handler. *)
Lemma applyOp_flag r op :
  hasEscapeSequences (applyOp r op) =
    existsb generatesEscapeSequence (opRegisters r op) || hasEscapeSequences r.
Proof.
  destruct op as [p h|nm p h|nm p|nm|nm e]; cbn [applyOp opRegisters].
  - apply registerPattern_flag.
  - unfold HandleNamed. rewrite registerPattern_flag. reflexivity.
  - unfold Rebind. destruct (namedBindings r !! nm) as [b|]; [|done].
    cbn [fst]. rewrite registerPattern_flag. cbn [hasEscapeSequences].
    rewrite removePattern_flag. f_equal. f_equal. f_equal.
    apply expandAliases_aliases. cbn. apply removePattern_aliases.
  - unfold Reset. destruct (namedBindings r !! nm) as [b|] eqn:E; [|done].
    destruct (String.eqb _ _); [done|].
    unfold Rebind. rewrite E.
    cbn [fst]. rewrite registerPattern_flag. cbn [hasEscapeSequences].
    rewrite removePattern_flag. f_equal. f_equal. f_equal.
    apply expandAliases_aliases. cbn. apply removePattern_aliases.
  - reflexivity.
Qed.

Lemma registerPattern_paths r p h ks final :
  descend (root (registerPattern r p h)) ks = Some final ->
  is_Some (descend (root r) ks)
  \/ ks `prefix_of` ParsePattern (expandAliases r p).
Proof.
  rewrite registerPattern_root.
  destruct (ParsePattern (expandAliases r p)) as [|k keys] eqn:E; [eauto|].
  apply descend_insertPath.
Qed.

Lemma removePattern_paths r p ks final :
  descend (root (removePattern r p)) ks = Some final ->
  is_Some (descend (root r) ks).
Proof.
  rewrite removePattern_root.
  destruct (ParsePattern (expandAliases r p)) as [|k keys] eqn:E; [eauto|].
  apply descend_clearPath.
Qed.

Lemma Rebind_paths r nm p b ks final :
  namedBindings r !! nm = Some b ->
  descend (root (Rebind r nm p).1) ks = Some final ->
  is_Some (descend (root r) ks)
  \/ ks `prefix_of` ParsePattern (expandAliases r p).
Proof.
  intros E. unfold Rebind. rewrite E. cbn [fst]. intros Hd.
  apply registerPattern_paths in Hd as [[n Hd]|Hp].
  - left. cbn [root] in Hd. by apply removePattern_paths in Hd.
  - right. erewrite expandAliases_aliases in Hp; [exact Hp|].
    cbn. apply removePattern_aliases.
Qed.

Lemma applyOp_paths r op ks final :
  descend (root (applyOp r op)) ks = Some final ->
  is_Some (descend (root r) ks) \/ ks `prefix_of` opRegisters r op.
Proof.
  destruct op as [p h|nm p h|nm p|nm|nm e]; cbn [applyOp opRegisters].
  - apply registerPattern_paths.
  - unfold HandleNamed. intros Hd. by apply registerPattern_paths in Hd.
  - destruct (namedBindings r !! nm) as [b|] eqn:E.
    + by apply Rebind_paths with b.
    + unfold Rebind. rewrite E. eauto.
  - unfold Reset. destruct (namedBindings r !! nm) as [b|] eqn:E; [|eauto].
    destruct (String.eqb _ _); [eauto|]. by apply Rebind_paths with b.
  - eauto.
Qed.

Lemma registerPattern_root_handler r p h :
  handler (root (registerPattern r p h)) = handler (root r).
Proof.
  rewrite registerPattern_root.
  destruct (ParsePattern _) as [|k keys]; [done|]. by apply handler_insertPath.
Qed.

Lemma removePattern_root_handler r p :
  handler (root (removePattern r p)) = handler (root r).
Proof.
  rewrite removePattern_root.
  destruct (ParsePattern _) as [|k keys]; [done|]. by apply handler_clearPath.
Qed.

Lemma applyOp_root_handler r op :
  handler (root (applyOp r op)) = handler (root r).
Proof.
  assert (forall nm p, handler (root (Rebind r nm p).1) = handler (root r)) as HR.
  { intros nm p. unfold Rebind. destruct (namedBindings r !! nm); [|done].
    cbn [fst]. rewrite registerPattern_root_handler. cbn [root].
    apply removePattern_root_handler. }
  destruct op as [p h|nm p h|nm p|nm|nm e]; cbn [applyOp].
  - apply registerPattern_root_handler.
  - unfold HandleNamed. by rewrite registerPattern_root_handler.
  - apply HR.
  - unfold Reset. destruct (namedBindings r !! nm); [|done].
    destruct (String.eqb _ _); [done | apply HR].
  - reflexivity.
Qed.

(** The three invariants along a history. *)
Lemma runOps_flag ops : forall r,
  hasEscapeSequences (runOps r ops) =
    existsb (existsb generatesEscapeSequence) (registrations r ops)
    || hasEscapeSequences r.
Proof.
  induction ops as [|op ops IH]; intros r; [done|].
  cbn [runOps fold_left registrations existsb].
  fold (runOps (applyOp r op) ops). rewrite IH, applyOp_flag.
  by rewrite orb_assoc, (orb_comm (existsb _ (registrations _ _))).
Qed.

Lemma runOps_paths ops : forall r ks final,
  descend (root (runOps r ops)) ks = Some final ->
  is_Some (descend (root r) ks)
  \/ exists reg, reg ∈ registrations r ops /\ ks `prefix_of` reg.
Proof.
  induction ops as [|op ops IH]; intros r ks final; [cbn; eauto|].
  cbn [runOps fold_left registrations].
  fold (runOps (applyOp r op) ops). intros Hd.
  apply IH in Hd as [[n Hd]|(reg & Hin & Hp)].
  - apply applyOp_paths in Hd as [Hd|Hp]; [by left|].
    right. exists (opRegisters r op). split; [apply list_elem_of_here | done].
  - right. exists reg. split; [by apply list_elem_of_further | done].
Qed.

Lemma runOps_root_handler ops : forall r,
  handler (root (runOps r ops)) = handler (root r).
Proof.
  induction ops as [|op ops IH]; intros r; [done|].
  cbn [runOps fold_left]. fold (runOps (applyOp r op) ops).
  by rewrite IH, applyOp_root_handler.
Qed.

(** On a router built from [NewRouter]: the root carries no handler, and
    every path of the trie is a prefix of a registered key sequence. *)
Lemma built_root_handler ops : handler (root (runOps NewRouter ops)) = None.
Proof. by rewrite runOps_root_handler. Qed.

Lemma built_paths ops ks final :
  ks <> [] ->
  descend (root (runOps NewRouter ops)) ks = Some final ->
  exists reg, reg ∈ registrations NewRouter ops /\ ks `prefix_of` reg.
Proof.
  intros Hne Hd. apply runOps_paths in Hd as [[n Hd]|Hreg]; [|done].
  destruct ks as [|k ks]; [done|]. cbn in Hd.
  by rewrite lookup_empty in Hd.
Qed.

(** No key sequence registered so far strictly extends [keys]: the node of
    [keys] has no children. *)
Lemma built_no_extension ops keys final :
  forallb (fun reg => negb (strictlyExtends keys reg))
          (registrations NewRouter ops) = true ->
  descend (root (runOps NewRouter ops)) keys = Some final ->
  hasChildren final = false.
Proof.
  intros Hall Hd. destruct (hasChildren final) eqn:Hch; [|done].
  apply hasChildren_inv in Hch as (k & child & Hc).
  assert (descend (root (runOps NewRouter ops)) (keys ++ [k]) = Some child) as Hd'.
  { rewrite descend_app, Hd. cbn. by rewrite Hc. }
  apply built_paths in Hd' as (reg & Hin & [ext Hp]); [|by destruct keys].
  rewrite forallb_forall in Hall.
  specialize (Hall reg (proj1 (list_elem_of_In _ _) Hin)).
  apply negb_true_iff in Hall. unfold strictlyExtends in Hall.
  subst reg. rewrite <- app_assoc in Hall.
  rewrite take_app_length, bool_decide_eq_true_2, andb_true_r in Hall by done.
  apply Nat.ltb_ge in Hall. rewrite length_app in Hall. cbn in Hall. lia.
Qed.

End RouterInvariants.

(** ** The dispatcher on registered patterns *)

(** C10.  [Dispatch] on an Input whose router stack is empty returns false,
    calls no handler and leaves the Input (key buffer, count accumulator,
    pending state) as it was. *)
Theorem Dispatch_empty_stack (i : Input) (key : Key) :
  stack i = [] -> Dispatch i key = (i, None, false).
Proof. intros Hs. unfold Dispatch. by rewrite Hs. Qed.

(** [NewInput(nil)] is such an Input. *)
Lemma Dispatch_empty_stack_witness :
  stack (NewInput None) = []
  /\ Dispatch (NewInput None) (KeyRune 106) = (NewInput None, None, false).
Proof.
  split; [reflexivity | apply (Dispatch_empty_stack (NewInput None) (KeyRune 106))].
  reflexivity.
Defined.

(** C1, amended.  Let [p] compile to a non-empty key sequence whose first key
    is not an unmodified digit 1-9, on a router built by registrations,
    rebinds and aliases, where the node of [p] carries handler [h] and no key
    sequence registered so far strictly extends that of [p].  Dispatching the
    keys of [p] through a new Input calls [h] once, in the last call, with
    count 1 and the dispatched keys; every call of [Dispatch] returns true,
    and nothing stays buffered or pending. *)
Theorem dispatch_exact_pattern_fires `{CaseTables}
        (ops : list RouterOp) (p : string) (h : Handler)
        (k : Key) (rest : list Key) :
  ParsePattern p = k :: rest ->
  handlerAt (root (runOps NewRouter ops)) (ParsePattern p) = Some h ->
  forallb (fun reg => negb (strictlyExtends (ParsePattern p) reg))
          (registrations NewRouter ops) = true ->
  isCountDigit (NewInput (Some (runOps NewRouter ops))) k = false ->
  DispatchAll (NewInput (Some (runOps NewRouter ops))) (ParsePattern p) =
    (NewInput (Some (runOps NewRouter ops)),
     repeat None (length (ParsePattern p) - 1)
       ++ [Some (h, mkMatch (ParsePattern p) 1)],
     repeat true (length (ParsePattern p))).
Proof.
  intros Hp Hh Hext Hdigit.
  set (r := runOps NewRouter ops) in *.
  unfold handlerAt in Hh.
  destruct (descend (root r) (ParsePattern p)) as [final|] eqn:Hd; [|done].
  cbn in Hh.
  pose proof (built_no_extension ops _ _ Hext Hd) as Hch.
  rewrite (DispatchAll_completes r h final (ParsePattern p) (NewInput (Some r)));
    [reflexivity | by rewrite Hp | reflexivity | exact Hd | exact Hh | exact Hch |].
  rewrite Hp. intros k0 [= <-]. unfold takenAsCount. by rewrite Hdigit.
Qed.

Lemma dispatch_exact_pattern_fires_witness :
  let ops := [OpHandle "g" (Some 1%nat); OpHandle "gg" (Some 2%nat);
              OpHandle "<C-w>j" (Some 3%nat)] in
  let r := runOps (H := noFolding) NewRouter ops in
  DispatchAll (NewInput (Some r)) (ParsePattern (H := noFolding) "gg") =
    (NewInput (Some r),
     repeat None (length (ParsePattern (H := noFolding) "gg") - 1)
       ++ [Some (2%nat, mkMatch (ParsePattern (H := noFolding) "gg") 1)],
     repeat true (length (ParsePattern (H := noFolding) "gg"))).
Proof.
  apply (dispatch_exact_pattern_fires (H := noFolding) _ "gg" 2%nat
           (KeyRune 103) [KeyRune 103]); reflexivity.
Defined.

(** C1 as stated fails on a pattern that starts with a count digit: with
    ["1"] alone registered, dispatching its key returns true and the handler
    is never called; the key went to the count accumulator. *)
Lemma dispatch_digit_pattern_never_fires :
  let ops := [OpHandle "1" (Some 7%nat)] in
  let r := runOps (H := noFolding) NewRouter ops in
  ParsePattern (H := noFolding) "1" = [KeyRune 49]
  /\ handlerAt (root r) [KeyRune 49] = Some 7%nat
  /\ registrations (H := noFolding) NewRouter ops = [[KeyRune 49]]
  /\ DispatchAll (NewInput (Some r)) [KeyRune 49]
     = (mkInput [r] [] "1" None None [], [None], [true]).
Proof. repeat split; vm_compute; reflexivity. Qed.

(** A pattern that was registered and rebound away leaves its branch in the
    trie: the shorter pattern is then deferred to the timer instead of being
    called by [Dispatch]. *)
Example dispatch_after_rebind_defers :
  let ops := [OpHandle "g" (Some 1%nat); OpHandleNamed "top" "gg" (Some 2%nat);
              OpRebind "top" "t"] in
  let r := runOps (H := noFolding) NewRouter ops in
  let d := Dispatch (NewInput (Some r)) (KeyRune 103) in
  handlerAt (root r) [KeyRune 103; KeyRune 103] = None
  /\ d.1.2 = None /\ d.2 = true /\ pending d.1.1 = Some 1%nat
  /\ (timerFire d.1.1).2 = Some (1%nat, mkMatch [KeyRune 103] 1).
Proof. repeat split; vm_compute; reflexivity. Qed.

(** ** The count prefix *)

Section CountPrefix.

Implicit Types (i : Input) (r : Router) (ds : list Z) (s t : string).

Lemma bytesOf_app s t : bytesOf (s ++ t) = bytesOf s ++ bytesOf t.
Proof.
  induction s as [|c s IH]; [done|].
  change (byteOf c :: bytesOf (s +:+ t) = byteOf c :: (bytesOf s ++ bytesOf t)).
  by rewrite IH.
Qed.

Lemma bytesOf_length s : length (bytesOf s) = String.length s.
Proof. induction s as [|c s IH]; cbn; [done | by rewrite IH]. Qed.

Lemma bytesOf_nil s : bytesOf s = [] -> s = EmptyString.
Proof. by destruct s. Qed.

Lemma byteOf_asciiOf b : 0 <= b < 256 -> byteOf (asciiOf b) = b.
Proof.
  intros Hb. unfold byteOf, asciiOf.
  rewrite N_ascii_embedding by lia. lia.
Qed.

Lemma bytesOf_stringOfRune_ascii c :
  0 <= c <= 127 -> bytesOf (stringOfRune c) = [c].
Proof.
  intros Hc. unfold stringOfRune, encodeRune.
  rewrite (proj2 (Z.leb_le 0 c)), (proj2 (Z.leb_le c 127)) by lia.
  cbn. by rewrite byteOf_asciiOf by lia.
Qed.

(** The accumulator after the digits [ds] were appended to [cb]. *)
Lemma bytesOf_accumulated ds : forall cb,
  Forall (fun d => 0 <= d <= 9) ds ->
  bytesOf (fold_left (fun cb d => cb ++ stringOfRune (48 + d))%string ds cb)
  = bytesOf cb ++ map (Z.add 48) ds.
Proof.
  induction ds as [|d ds IH]; intros cb Hds; cbn.
  - by rewrite app_nil_r.
  - inversion_clear Hds as [|?? Hd Hds'].
    rewrite IH, bytesOf_app, bytesOf_stringOfRune_ascii by (done || lia).
    by rewrite <- app_assoc.
Qed.

Lemma digitsValue_digits ds : forall acc,
  Forall (fun d => 0 <= d <= 9) ds ->
  digitsValue (map (Z.add 48) ds) acc
  = Some (fold_left (fun acc d => 10 * acc + d) ds acc).
Proof.
  induction ds as [|d ds IH]; intros acc Hds; cbn; [done|].
  inversion_clear Hds as [|?? Hd Hds'].
  rewrite (proj2 (Z.leb_le 48 (48 + d))), (proj2 (Z.leb_le (48 + d) 57)) by lia.
  cbn. rewrite IH by done. do 2 f_equal. lia.
Qed.

Lemma decimal_ge ds : forall acc,
  Forall (fun d => 0 <= d <= 9) ds -> 0 <= acc ->
  acc <= fold_left (fun acc d => 10 * acc + d) ds acc.
Proof.
  induction ds as [|d ds IH]; intros acc Hds Hacc; cbn; [lia|].
  inversion_clear Hds as [|?? Hd Hds'].
  specialize (IH (10 * acc + d) Hds'). lia.
Qed.

(** [strconv.Atoi] on a digit string that starts with 1-9. *)
Lemma Atoi_digits s d ds :
  1 <= d <= 9 -> Forall (fun d => 0 <= d <= 9) ds ->
  bytesOf s = map (Z.add 48) (d :: ds) ->
  Atoi s = if decimal (d :: ds) <=? maxInt then Some (decimal (d :: ds)) else None.
Proof.
  intros Hd Hds Hs. unfold Atoi. rewrite Hs. cbn [map].
  rewrite (proj2 (Z.eqb_neq (48 + d) 43)), (proj2 (Z.eqb_neq (48 + d) 45)) by lia.
  change (48 + d :: map (Z.add 48) ds) with (map (Z.add 48) (d :: ds)).
  rewrite digitsValue_digits by (constructor; [lia | done]).
  fold (decimal (d :: ds)).
  assert (1 <= decimal (d :: ds)) as Hpos.
  { unfold decimal. cbn. pose proof (decimal_ge ds (10 * 0 + d) Hds). lia. }
  assert (0 < 2 ^ (intSize - 1)) as Hpow by (by apply Z.pow_pos_nonneg).
  rewrite (proj2 (Z.leb_le (- 2 ^ (intSize - 1)) (decimal (d :: ds)))) by lia.
  reflexivity.
Qed.

Lemma parseCount_digits i d ds :
  1 <= d <= 9 -> Forall (fun d => 0 <= d <= 9) ds ->
  bytesOf (countBuffer i) = map (Z.add 48) (d :: ds) ->
  parseCount i = if decimal (d :: ds) <=? maxInt then decimal (d :: ds) else 1.
Proof.
  intros Hd Hds Hs. unfold parseCount.
  rewrite (Atoi_digits _ _ _ Hd Hds Hs).
  destruct (countBuffer i) as [|c s]; [done|]. cbn [String.eqb].
  destruct (decimal (d :: ds) <=? maxInt); [|done].
  assert (1 <= decimal (d :: ds)) as Hpos.
  { unfold decimal. cbn. pose proof (decimal_ge ds (10 * 0 + d) Hds). lia. }
  by rewrite (proj2 (Z.ltb_ge _ _)) by lia.
Qed.

Lemma isCountDigit_digitKey i d :
  0 <= d <= 9 -> (countBuffer i = EmptyString -> 1 <= d) ->
  isCountDigit i (digitKey d) = true.
Proof.
  intros Hd H1. unfold isCountDigit, digitKey. cbn.
  destruct (countBuffer i) as [|c s]; cbn.
  - specialize (H1 eq_refl). apply andb_true_iff. split; apply Z.leb_le; lia.
  - apply andb_true_iff. split; apply Z.leb_le; lia.
Qed.

Lemma isCountDigit_not_digit i k :
  isDigitKey k = false -> isCountDigit i k = false.
Proof.
  unfold isDigitKey, isCountDigit.
  destruct (Mod k =? ModNone), (KSpecial k =? SpecialNone); cbn; try done.
  destruct (48 <=? Rune k) eqn:E1; cbn.
  - intros ->. rewrite andb_false_r. by destruct (_ =? _)%nat.
  - intros _. apply Z.leb_gt in E1.
    rewrite (proj2 (Z.leb_gt 49 (Rune k))) by lia. by destruct (_ =? _)%nat.
Qed.

(** Digits dispatched while the buffer is empty all go to the count
    accumulator. *)
Lemma DispatchAll_digits r ds : forall i rest,
  last (stack i) = Some r -> buffer i = [] ->
  Forall (fun d => 0 <= d <= 9) ds ->
  (countBuffer i = EmptyString -> forall d, head ds = Some d -> 1 <= d) ->
  DispatchAll i (map digitKey ds ++ rest) =
    let i' := mkInput (stack i) []
                (fold_left (fun cb d => cb ++ stringOfRune (48 + d))%string
                           ds (countBuffer i))
                (timer i) (pending i) (pendingKeys i) in
    ((DispatchAll i' rest).1.1,
     repeat None (length ds) ++ (DispatchAll i' rest).1.2,
     repeat true (length ds) ++ (DispatchAll i' rest).2).
Proof.
  induction ds as [|d ds IH]; intros i rest Hr Hb Hds H1.
  - cbn. destruct i; cbn in *. subst. by destruct (DispatchAll _ rest) as [[??]?].
  - inversion_clear Hds as [|?? Hd Hds'].
    cbn [map app DispatchAll].
    rewrite (Dispatch_count i r (digitKey d) Hr).
    2:{ unfold takenAsCount. rewrite Hb.
        rewrite isCountDigit_digitKey; [done | done |].
        intros E. by apply (H1 E). }
    rewrite IH; [| done | done | done |].
    + reflexivity.
    + cbn. intros E. exfalso.
      apply (f_equal bytesOf) in E. rewrite bytesOf_app in E.
      unfold digitKey in E. cbn in E.
      rewrite bytesOf_stringOfRune_ascii in E by lia.
      by destruct (bytesOf (countBuffer i)).
Qed.

End CountPrefix.

(** C5, amended.  On a router where [keys] is a pattern with handler [h] and
    no longer prefix, and whose first key is not an unmodified digit:
    dispatching a digit 1-9, further digits 0-9 and then [keys] through a new
    Input calls [h] once, in the last call, with the keys of the pattern and
    with Count the decimal number of the digits when it fits Go's [int], and
    Count 1 when it does not; every call returns true.  A ['0'] met while the accumulator is empty
    is not a count digit: with ["0"] registered alone, dispatching ['0']
    calls its handler with Count 1. *)
Theorem count_prefix_fires_with_count `{CaseTables}
        (r : Router) (d : Z) (ds : list Z) (k : Key) (rest : list Key)
        (h h0 : Handler) :
  1 <= d <= 9 ->
  Forall (fun x => 0 <= x <= 9) ds ->
  handlerAt (root r) (k :: rest) = Some h ->
  hasLongerPrefix (root r) (k :: rest) = false ->
  isDigitKey k = false ->
  DispatchAll (NewInput (Some r)) (map digitKey (d :: ds) ++ k :: rest) =
    (NewInput (Some r),
     repeat None (length (d :: ds) + length rest)
       ++ [Some (h, mkMatch (k :: rest)
                      (if decimal (d :: ds) <=? maxInt
                       then decimal (d :: ds) else 1))],
     repeat true (length (d :: ds) + length (k :: rest)))
  /\ isCountDigit (NewInput (Some r)) (digitKey 0) = false
  /\ Dispatch (NewInput (Some (Handle NewRouter "0" (Some h0)))) (digitKey 0) =
       (NewInput (Some (Handle NewRouter "0" (Some h0))),
        Some (h0, mkMatch [digitKey 0] 1), true).
Proof.
  intros Hd Hds Hh Hlong Hk. split; [|split; reflexivity].
  unfold handlerAt in Hh.
  destruct (descend (root r) (k :: rest)) as [final|] eqn:Hdesc; [|done].
  cbn in Hh. rewrite (hasLongerPrefix_reached _ _ _ Hdesc) in Hlong.
  rewrite (DispatchAll_digits r (d :: ds) (NewInput (Some r)) (k :: rest));
    [| reflexivity | reflexivity | by constructor; [lia|] |].
  2:{ intros _ d' [= <-]. lia. }
  cbn [stack buffer countBuffer timer pending pendingKeys NewInput].
  set (i' := mkInput _ _ _ _ _ _).
  rewrite (DispatchAll_completes r h final (k :: rest) i');
    [| done | reflexivity | exact Hdesc | exact Hh | exact Hlong |].
  2:{ intros k0 [= <-]. unfold takenAsCount.
      by rewrite (isCountDigit_not_digit _ _ Hk). }
  cbn [fst snd]. rewrite !repeat_app, <- app_assoc.
  cbn [length Nat.sub]. rewrite Nat.sub_0_r.
  rewrite (parseCount_digits i' d ds Hd Hds).
  - reflexivity.
  - subst i'. cbn [countBuffer].
    rewrite (bytesOf_accumulated (d :: ds)) by (constructor; [lia | done]).
    reflexivity.
Qed.

Lemma count_prefix_fires_with_count_witness :
  let r := Handle (H := noFolding) NewRouter "gg" (Some 2%nat) in
  DispatchAll (NewInput (Some r))
              (map digitKey [5; 0] ++ [KeyRune 103; KeyRune 103]) =
    (NewInput (Some r),
     [None; None; None; Some (2%nat, mkMatch [KeyRune 103; KeyRune 103] 50)],
     repeat true 4).
Proof.
  refine (proj1 (count_prefix_fires_with_count (H := noFolding) _ 5 [0]
                   (KeyRune 103) [KeyRune 103] 2%nat 0%nat _ _ _ _ _)).
  - lia.
  - repeat constructor; lia.
  - reflexivity.
  - reflexivity.
  - reflexivity.
Defined.

(** C5 as stated fails on a count that does not fit [int]: after the
    nineteen digits of 2^63 the handler of ["j"] is called with Count 1. *)
Lemma count_prefix_overflow_gives_one :
  let r := Handle (H := noFolding) NewRouter "j" (Some 7%nat) in
  let ds := [9; 2; 2; 3; 3; 7; 2; 0; 3; 6; 8; 5; 4; 7; 7; 5; 8; 0; 8] in
  decimal ds = 9223372036854775808
  /\ (DispatchAll (NewInput (Some r)) (map digitKey ds ++ [KeyRune 106])).1.2
     = repeat None 19 ++ [Some (7%nat, mkMatch [KeyRune 106] 1)].
Proof. split; vm_compute; reflexivity. Qed.



(** ** The escape-requirement flag *)

(** C4, amended.  After any sequence of registrations, rebinds, resets and
    alias definitions on a new router, [HasEscapeSequences] is true exactly
    when some key sequence registered so far, removed since or not, contains
    a key that generates an escape sequence.  So it is true whenever a
    currently registered pattern contains such a key. *)
Theorem HasEscapeSequences_registered_so_far `{CaseTables} (ops : list RouterOp) :
  HasEscapeSequences (runOps NewRouter ops)
  = existsb (existsb generatesEscapeSequence) (registrations NewRouter ops)
  /\ forall keys k,
       registered (root (runOps NewRouter ops)) keys ->
       k ∈ keys -> generatesEscapeSequence k = true ->
       HasEscapeSequences (runOps NewRouter ops) = true.
Proof.
  assert (HasEscapeSequences (runOps NewRouter ops)
          = existsb (existsb generatesEscapeSequence)
                    (registrations NewRouter ops)) as Hflag.
  { unfold HasEscapeSequences. rewrite runOps_flag. apply orb_false_r. }
  split; [exact Hflag|].
  intros keys k [Hne Hreg] Hk Hgen. rewrite Hflag.
  unfold handlerAt in Hreg.
  destruct (descend (root (runOps NewRouter ops)) keys) as [final|] eqn:Hd;
    [|done].
  apply built_paths in Hd as (reg & Hin & [ext ->]); [|done].
  apply existsb_exists. exists (keys ++ ext).
  split; [by apply list_elem_of_In|].
  apply existsb_exists. exists k.
  split; [|done]. apply list_elem_of_In, elem_of_app. by left.
Qed.

(** C4 as stated fails after a rebind: the flag set by ["<Up>"] stays once
    the binding has moved to ["k"], although no registered pattern contains a
    key that generates an escape sequence any more. *)
Lemma HasEscapeSequences_survives_rebind :
  let ops := [OpHandleNamed "up" "<Up>" (Some 1%nat); OpRebind "up" "k"] in
  let r := runOps (H := noFolding) NewRouter ops in
  HasEscapeSequences r = true
  /\ forall keys k,
       registered (root r) keys -> k ∈ keys ->
       generatesEscapeSequence k = false.
Proof.
  intros ops r. split; [vm_compute; reflexivity|].
  assert (root r =
          TrieNode (<[KeyRune 107 := TrieNode ∅ (Some 1%nat)]>
                      {[KeySpecial SpecialUp := TrieNode ∅ None]}) None) as Hroot.
  { vm_compute. reflexivity. }
  clearbody r. intros keys k [Hne Hreg] Hk. unfold handlerAt in Hreg.
  rewrite Hroot in Hreg.
  destruct keys as [|k0 keys]; [done|]. cbn [descend children] in Hreg.
  destruct (decide (k0 = KeyRune 107)) as [->|Hk0].
  - rewrite lookup_insert_eq in Hreg.
    destruct keys as [|k1 keys]; [|by cbn in Hreg].
    apply list_elem_of_singleton in Hk. by subst k.
  - rewrite lookup_insert_ne in Hreg by done.
    destruct (decide (k0 = KeySpecial SpecialUp)) as [->|Hk0'].
    + rewrite lookup_singleton_eq in Hreg.
      destruct keys as [|k1 keys]; by cbn in Hreg.
    + by rewrite lookup_singleton_ne in Hreg.
Qed.

(** ** UTF-8: decoding what [string(r)] encodes *)

Section Utf8.

(** Bit operations of the codec as arithmetic. *)
Lemma lor_add hi lo n :
  0 <= n -> hi mod 2 ^ n = 0 -> 0 <= lo < 2 ^ n -> Z.lor hi lo = hi + lo.
Proof.
  intros Hn Hhi Hlo.
  assert (Z.land hi lo = 0) as Hland.
  { apply Z.bits_inj'. intros i Hi. rewrite Z.land_spec, Z.bits_0.
    destruct (Z.lt_ge_cases i n) as [Hlt|Hge].
    - rewrite <- (Z.mod_pow2_bits_low hi n i) by lia. rewrite Hhi, Z.bits_0. done.
    - rewrite <- (Z.mod_small lo (2 ^ n)) by lia.
      rewrite Z.mod_pow2_bits_high by lia. apply andb_false_r. }
  rewrite <- Z.lxor_lor by done. symmetry. by apply Z.add_nocarry_lxor.
Qed.

Lemma land_low x n : 0 <= n -> Z.land x (2 ^ n - 1) = x mod 2 ^ n.
Proof. intros Hn. rewrite <- Z.land_ones by done. by rewrite Z.ones_equiv, <- Z.sub_1_r. Qed.

Lemma land63 x : Z.land x 63 = x mod 64.
Proof. exact (land_low x 6 ltac:(lia)). Qed.
Lemma land31 x : Z.land x 31 = x mod 32.
Proof. exact (land_low x 5 ltac:(lia)). Qed.
Lemma land15 x : Z.land x 15 = x mod 16.
Proof. exact (land_low x 4 ltac:(lia)). Qed.
Lemma land7 x : Z.land x 7 = x mod 8.
Proof. exact (land_low x 3 ltac:(lia)). Qed.

Lemma lor_cont x : Z.lor 128 (x mod 64) = 128 + x mod 64.
Proof. apply (lor_add 128 _ 6); [lia | done | ]. apply Z.mod_pos_bound. lia. Qed.

Lemma encode2 r : 128 <= r <= 2047 ->
  encodeRune r = [192 + r / 64; 128 + r mod 64].
Proof.
  intros Hr. unfold encodeRune.
  rewrite (proj2 (Z.leb_gt r 127)) by lia. rewrite andb_false_r.
  rewrite (proj2 (Z.leb_le 0 r)), (proj2 (Z.leb_le r 2047)) by lia. cbn [andb].
  rewrite land63, lor_cont, Z.shiftr_div_pow2 by lia.
  change (2 ^ 6) with 64.
  rewrite (lor_add 192 (r / 64) 5); [done | lia | done |].
  change (2 ^ 5) with 32. split; [apply Z.div_pos; lia | apply Z.div_lt_upper_bound; lia].
Qed.

Lemma decode2 a b rest : 2 <= a < 32 -> 0 <= b < 64 ->
  decodeRunes (192 + a :: 128 + b :: rest) = a * 64 + b :: decodeRunes rest.
Proof.
  intros Ha Hb. cbn [decodeRunes].
  rewrite (proj2 (Z.ltb_ge (192 + a) 128)) by lia.
  unfold utf8First.
  rewrite (proj2 (Z.leb_le 194 (192 + a))), (proj2 (Z.leb_le (192 + a) 223)) by lia.
  cbn [andb].
  rewrite (proj2 (Z.ltb_ge (128 + b) 128)), (proj2 (Z.ltb_ge 191 (128 + b))) by lia.
  cbn [orb Nat.leb].
  rewrite land31, land63, Z.shiftl_mul_pow2 by lia. change (2 ^ 6) with 64.
  replace ((192 + a) mod 32) with a by (Z.div_mod_to_equations; lia).
  replace ((128 + b) mod 64) with b by (Z.div_mod_to_equations; lia).
  rewrite (lor_add (a * 64) b 6); [done | lia | | lia].
  change (2 ^ 6) with 64. Z.div_mod_to_equations; lia.
Qed.

Lemma encode3 r : 2048 <= r <= 65535 -> ~ (55296 <= r <= 57343) ->
  encodeRune r = [224 + r / 4096; 128 + (r / 64) mod 64; 128 + r mod 64].
Proof.
  intros Hr Hs. unfold encodeRune, MaxRune.
  rewrite (proj2 (Z.leb_gt r 127)), (proj2 (Z.leb_gt r 2047)) by lia.
  rewrite !andb_false_r.
  rewrite (proj2 (Z.ltb_ge r 0)), (proj2 (Z.ltb_ge 1114111 r)) by lia.
  assert ((55296 <=? r) && (r <=? 57343) = false) as ->.
  { apply andb_false_iff. destruct (Z.le_gt_cases 55296 r);
      [right; apply Z.leb_gt; lia | left; apply Z.leb_gt; lia]. }
  cbn [orb]. rewrite (proj2 (Z.leb_le r 65535)) by lia.
  rewrite !land63, !lor_cont, !Z.shiftr_div_pow2 by lia.
  change (2 ^ 6) with 64. change (2 ^ 12) with 4096.
  rewrite (lor_add 224 (r / 4096) 5); [done | lia | done |].
  change (2 ^ 5) with 32. split; [apply Z.div_pos; lia | apply Z.div_lt_upper_bound; lia].
Qed.

Lemma decode3 a b c rest :
  0 <= a < 16 -> 0 <= b < 64 -> 0 <= c < 64 ->
  (a = 0 -> 32 <= b) -> (a = 13 -> b < 32) ->
  decodeRunes (224 + a :: 128 + b :: 128 + c :: rest)
  = a * 4096 + b * 64 + c :: decodeRunes rest.
Proof.
  intros Ha Hb Hc H0 H13. cbn [decodeRunes].
  rewrite (proj2 (Z.ltb_ge (224 + a) 128)) by lia.
  assert (exists lo hi, utf8First (224 + a) = Some (3%nat, lo, hi)
                        /\ lo <= 128 + b <= hi) as (lo & hi & -> & Hrange).
  { unfold utf8First.
    rewrite (proj2 (Z.leb_gt (224 + a) 223)) by lia. rewrite andb_false_r.
    destruct (Z.eqb_spec (224 + a) 224) as [E|E]; [exists 160, 191; split; [done|lia]|].
    destruct (Z.eqb_spec (224 + a) 237) as [E'|E']; [exists 128, 159; split; [done|lia]|].
    rewrite (proj2 (Z.leb_le 225 (224 + a))), (proj2 (Z.leb_le (224 + a) 239)) by lia.
    exists 128, 191. split; [done|lia]. }
  rewrite (proj2 (Z.ltb_ge (128 + b) lo)), (proj2 (Z.ltb_ge hi (128 + b))) by lia.
  cbn [orb Nat.leb]. unfold isCont.
  rewrite (proj2 (Z.leb_le 128 (128 + c))), (proj2 (Z.leb_le (128 + c) 191)) by lia.
  cbn [andb negb].
  rewrite land15, !land63, !Z.shiftl_mul_pow2 by lia.
  change (2 ^ 6) with 64. change (2 ^ 12) with 4096.
  replace ((224 + a) mod 16) with a by (Z.div_mod_to_equations; lia).
  replace ((128 + b) mod 64) with b by (Z.div_mod_to_equations; lia).
  replace ((128 + c) mod 64) with c by (Z.div_mod_to_equations; lia).
  rewrite (lor_add (a * 4096) (b * 64) 12); [| lia | | ].
  - rewrite (lor_add (a * 4096 + b * 64) c 6); [done | lia | | lia].
    change (2 ^ 6) with 64. Z.div_mod_to_equations; lia.
  - change (2 ^ 12) with 4096. Z.div_mod_to_equations; lia.
  - change (2 ^ 12) with 4096. lia.
Qed.

Lemma encode4 r : 65536 <= r <= 1114111 ->
  encodeRune r = [240 + r / 262144; 128 + (r / 4096) mod 64;
                  128 + (r / 64) mod 64; 128 + r mod 64].
Proof.
  intros Hr. unfold encodeRune, MaxRune.
  rewrite (proj2 (Z.leb_gt r 127)), (proj2 (Z.leb_gt r 2047)) by lia.
  rewrite !andb_false_r.
  rewrite (proj2 (Z.ltb_ge r 0)), (proj2 (Z.ltb_ge 1114111 r)) by lia.
  rewrite (proj2 (Z.leb_gt r 57343)) by lia. rewrite andb_false_r.
  cbn [orb]. rewrite (proj2 (Z.leb_gt r 65535)) by lia.
  rewrite !land63, !lor_cont, !Z.shiftr_div_pow2 by lia.
  change (2 ^ 6) with 64. change (2 ^ 12) with 4096. change (2 ^ 18) with 262144.
  rewrite (lor_add 240 (r / 262144) 4); [done | lia | done |].
  change (2 ^ 4) with 16. split; [apply Z.div_pos; lia | apply Z.div_lt_upper_bound; lia].
Qed.

Lemma decode4 a b c d rest :
  0 <= a < 5 -> 0 <= b < 64 -> 0 <= c < 64 -> 0 <= d < 64 ->
  (a = 0 -> 16 <= b) -> (a = 4 -> b < 16) ->
  decodeRunes (240 + a :: 128 + b :: 128 + c :: 128 + d :: rest)
  = a * 262144 + b * 4096 + c * 64 + d :: decodeRunes rest.
Proof.
  intros Ha Hb Hc Hd H0 H4. cbn [decodeRunes].
  rewrite (proj2 (Z.ltb_ge (240 + a) 128)) by lia.
  assert (exists lo hi, utf8First (240 + a) = Some (4%nat, lo, hi)
                        /\ lo <= 128 + b <= hi) as (lo & hi & -> & Hrange).
  { unfold utf8First.
    rewrite (proj2 (Z.leb_gt (240 + a) 223)) by lia. rewrite andb_false_r.
    rewrite (proj2 (Z.eqb_neq (240 + a) 224)), (proj2 (Z.eqb_neq (240 + a) 237)) by lia.
    rewrite (proj2 (Z.leb_gt (240 + a) 239)) by lia. rewrite andb_false_r.
    destruct (Z.eqb_spec (240 + a) 240) as [E|E]; [exists 144, 191; split; [done|lia]|].
    destruct (Z.eqb_spec (240 + a) 244) as [E'|E'].
    - rewrite (proj2 (Z.leb_gt (240 + a) 243)) by lia. rewrite andb_false_r.
      exists 128, 143. split; [done|lia].
    - rewrite (proj2 (Z.leb_le 241 (240 + a))), (proj2 (Z.leb_le (240 + a) 243)) by lia.
      exists 128, 191. split; [done|lia]. }
  rewrite (proj2 (Z.ltb_ge (128 + b) lo)), (proj2 (Z.ltb_ge hi (128 + b))) by lia.
  cbn [orb Nat.leb]. unfold isCont.
  rewrite (proj2 (Z.leb_le 128 (128 + c))), (proj2 (Z.leb_le (128 + c) 191)) by lia.
  rewrite (proj2 (Z.leb_le 128 (128 + d))), (proj2 (Z.leb_le (128 + d) 191)) by lia.
  cbn [andb negb].
  rewrite land7, !land63, !Z.shiftl_mul_pow2 by lia.
  change (2 ^ 6) with 64. change (2 ^ 12) with 4096. change (2 ^ 18) with 262144.
  replace ((240 + a) mod 8) with a by (Z.div_mod_to_equations; lia).
  replace ((128 + b) mod 64) with b by (Z.div_mod_to_equations; lia).
  replace ((128 + c) mod 64) with c by (Z.div_mod_to_equations; lia).
  replace ((128 + d) mod 64) with d by (Z.div_mod_to_equations; lia).
  rewrite (lor_add (a * 262144) (b * 4096) 18); [| lia | | ].
  - rewrite (lor_add (a * 262144 + b * 4096) (c * 64) 12); [| lia | | ].
    + rewrite (lor_add (a * 262144 + b * 4096 + c * 64) d 6); [done | lia | | lia].
      change (2 ^ 6) with 64. Z.div_mod_to_equations; lia.
    + change (2 ^ 12) with 4096. Z.div_mod_to_equations; lia.
    + change (2 ^ 12) with 4096. lia.
  - change (2 ^ 18) with 262144. Z.div_mod_to_equations; lia.
  - change (2 ^ 18) with 262144. lia.
Qed.

Lemma decode_encode r : validRune r = true -> decodeRunes (encodeRune r) = [r].
Proof.
  unfold validRune, MaxRune. intros H.
  apply andb_true_iff in H as [H Hs]. apply andb_true_iff in H as [H0 H1].
  apply Z.leb_le in H0, H1. apply negb_true_iff, andb_false_iff in Hs.
  assert (~ (55296 <= r <= 57343)) as Hs'.
  { intros [??]. destruct Hs as [Hs|Hs]; apply Z.leb_gt in Hs; lia. }
  clear Hs.
  destruct (Z.le_gt_cases r 127) as [Ha|Ha].
  { unfold encodeRune. rewrite (proj2 (Z.leb_le 0 r)), (proj2 (Z.leb_le r 127)) by lia.
    cbn. by rewrite (proj2 (Z.ltb_lt r 128)) by lia. }
  destruct (Z.le_gt_cases r 2047) as [Hb|Hb].
  { rewrite encode2 by lia.
    rewrite decode2; [| split; [apply Z.div_le_lower_bound | apply Z.div_lt_upper_bound]; lia
                      | apply Z.mod_pos_bound; lia].
    cbn. f_equal. Z.div_mod_to_equations; lia. }
  destruct (Z.le_gt_cases r 65535) as [Hc|Hc].
  { rewrite encode3 by lia.
    rewrite decode3; try (apply Z.mod_pos_bound; lia).
    - cbn. f_equal. Z.div_mod_to_equations; lia.
    - split; [apply Z.div_pos | apply Z.div_lt_upper_bound]; lia.
    - intros E. Z.div_mod_to_equations; lia.
    - intros E. Z.div_mod_to_equations; lia. }
  rewrite encode4 by lia.
  rewrite decode4; try (apply Z.mod_pos_bound; lia).
  - cbn. f_equal. Z.div_mod_to_equations; lia.
  - split; [apply Z.div_pos | apply Z.div_lt_upper_bound]; lia.
  - intros E. Z.div_mod_to_equations; lia.
  - intros E. Z.div_mod_to_equations; lia.
Qed.

Lemma bytesOf_stringOf bs :
  Forall (fun b => 0 <= b < 256) bs -> bytesOf (stringOf bs) = bs.
Proof.
  induction 1 as [|b bs Hb _ IH]; cbn; [done|].
  by rewrite byteOf_asciiOf, IH.
Qed.

Lemma encodeRune_bytes r :
  validRune r = true -> Forall (fun b => 0 <= b < 256) (encodeRune r).
Proof.
  unfold validRune, MaxRune. intros H.
  apply andb_true_iff in H as [H Hs]. apply andb_true_iff in H as [H0 H1].
  apply Z.leb_le in H0, H1. apply negb_true_iff, andb_false_iff in Hs.
  assert (~ (55296 <= r <= 57343)) as Hs'.
  { intros [??]. destruct Hs as [Hs|Hs]; apply Z.leb_gt in Hs; lia. }
  clear Hs.
  destruct (Z.le_gt_cases r 127) as [Ha|Ha].
  { unfold encodeRune. rewrite (proj2 (Z.leb_le 0 r)), (proj2 (Z.leb_le r 127)) by lia.
    repeat constructor; lia. }
  destruct (Z.le_gt_cases r 2047) as [Hb|Hb].
  { rewrite encode2 by lia. repeat constructor; Z.div_mod_to_equations; lia. }
  destruct (Z.le_gt_cases r 65535) as [Hc|Hc].
  { rewrite encode3 by lia. repeat constructor; Z.div_mod_to_equations; lia. }
  rewrite encode4 by lia. repeat constructor; Z.div_mod_to_equations; lia.
Qed.

(** [[]rune(string(r))] is [r] alone for a Unicode scalar value. *)
Lemma runesOf_stringOfRune r :
  validRune r = true -> runesOf (stringOfRune r) = [r].
Proof.
  intros Hr. unfold runesOf, stringOfRune.
  rewrite bytesOf_stringOf by by apply encodeRune_bytes.
  by apply decode_encode.
Qed.

End Utf8.

(** ** Round trip of the textual form *)

Section RoundTrip.

Context `{CaseTables}.

Lemma zrange_elem lo n x :
  lo <= x < lo + Z.of_nat n -> In x (zrange lo n).
Proof.
  intros Hx. unfold zrange. apply in_map_iff.
  exists (Z.to_nat (x - lo)). split; [lia|]. apply in_seq. lia.
Qed.

(** Every special key under every modifier set: a finite check. *)
Lemma special_keys_round_trip :
  forallb (fun m => forallb (fun s => roundTrips (mkKey 0 m s)) (zrange 1 27))
          modifierSets = true.
Proof. vm_compute. reflexivity. Qed.

(** Every ASCII rune but ['-'] and ['>'] under every non-empty modifier set:
    a finite check. *)
Lemma modified_ascii_round_trip :
  forallb (fun m =>
             forallb (fun r => (r =? 45) || (r =? 62) || roundTrips (mkKey r m 0))
                     (zrange 0 128))
          (tail modifierSets) = true.
Proof. vm_compute. reflexivity. Qed.

(** An unmodified rune is rendered as itself and read back as a literal. *)
Lemma bare_rune_round_trip r :
  validRune r = true -> r <> 0 -> ParsePattern (Key_String (KeyRune r)) = [KeyRune r].
Proof.
  intros Hr Hnz. unfold Key_String, KeyRune. cbn [KSpecial Mod Rune].
  rewrite (proj2 (Z.eqb_neq r 0)) by done. cbn [Z.eqb SpecialNone ModNone andb negb].
  unfold ParsePattern. rewrite (runesOf_stringOfRune _ Hr).
  assert (String.eqb (stringOfRune r) "" = false) as ->.
  { apply String.eqb_neq. intros E. apply (f_equal runesOf) in E.
    by rewrite (runesOf_stringOfRune _ Hr) in E. }
  cbn. by rewrite andb_false_r.
Qed.

End RoundTrip.

(** C3, amended.  [ParsePattern] applied to [k.String()] yields exactly [k]
    for every key [k] whose modifiers are a set of Ctrl, Alt and Shift and
    that is a special key without a rune, or an unmodified Unicode scalar
    value other than 0, or a modified ASCII rune other than ['-'] and ['>']. *)
Theorem key_string_round_trip `{CaseTables} (k : Key) :
  rendersFaithfully k = true -> ParsePattern (Key_String k) = [k].
Proof.
  destruct k as [r m s]. unfold rendersFaithfully. cbn [Mod KSpecial Rune].
  intros Hk. apply andb_true_iff in Hk as [Hm Hk].
  apply bool_decide_eq_true in Hm.
  destruct (Z.eqb_spec s SpecialNone) as [->|Hs]; cbn [negb] in Hk.
  - destruct (Z.eqb_spec m ModNone) as [->|Hmod].
    + apply andb_true_iff in Hk as [Hr Hnz].
      apply negb_true_iff, Z.eqb_neq in Hnz.
      by apply bare_rune_round_trip.
    + repeat (apply andb_true_iff in Hk as [Hk ?]).
      pose proof modified_ascii_round_trip as Hall.
      rewrite forallb_forall in Hall.
      assert (In m (tail modifierSets)) as Hin.
      { apply list_elem_of_In in Hm. cbn in Hm |- *.
        destruct Hm as [E|Hm]; [by subst m | exact Hm]. }
      specialize (Hall m Hin). rewrite forallb_forall in Hall.
      specialize (Hall r). 
      rewrite (proj2 (Z.eqb_neq r 45)), (proj2 (Z.eqb_neq r 62)) in Hall
        by (by apply Z.eqb_neq, negb_true_iff).
      cbn [orb] in Hall. apply (bool_decide_eq_true _), Hall.
      apply zrange_elem. apply Z.leb_le in Hk. 
      assert (r <= 127) by (by apply Z.leb_le). lia.
  - repeat (apply andb_true_iff in Hk as [Hk ?]).
    assert (r = 0) as -> by (by apply Z.eqb_eq).
    pose proof special_keys_round_trip as Hall.
    rewrite forallb_forall in Hall.
    specialize (Hall m (proj1 (list_elem_of_In _ _) Hm)).
    rewrite forallb_forall in Hall.
    apply (bool_decide_eq_true _), Hall.
    apply zrange_elem. apply Z.leb_le in Hk.
    assert (s <= SpecialF12) by (by apply Z.leb_le).
    unfold SpecialEscape, SpecialF12 in *. lia.
Qed.

Lemma key_string_round_trip_witness :
  Key_String (mkKey 119 ModCtrl SpecialNone) = "<C-w>"%string
  /\ ParsePattern (H := noFolding) (Key_String (mkKey 119 ModCtrl SpecialNone))
     = [mkKey 119 ModCtrl SpecialNone].
Proof.
  split; [reflexivity|].
  apply (key_string_round_trip (H := noFolding) (mkKey 119 ModCtrl SpecialNone)).
  reflexivity.
Defined.

(** C3 as stated fails on Ctrl with ['-']: the renderer writes ["<C-->"], and
    the compiler, which splits the bracket at every ['-'], reads it back as
    Ctrl alone. *)
Lemma key_string_ctrl_minus_not_read_back :
  Key_String (mkKey 45 ModCtrl SpecialNone) = "<C-->"%string
  /\ ParsePattern (H := noFolding) (Key_String (mkKey 45 ModCtrl SpecialNone))
     = [mkKey 0 ModCtrl SpecialNone]
  /\ ParsePattern (H := noFolding) (Key_String (mkKey 45 ModCtrl SpecialNone))
     <> [mkKey 45 ModCtrl SpecialNone].
Proof.
  split; [vm_compute; reflexivity|]. split; [vm_compute; reflexivity|].
  intros E. vm_compute in E. discriminate E.
Qed.

(** Other keys the renderer accepts and the compiler does not read back: the
    zero key (rendered as the empty pattern), Ctrl with ['>'], a modified
    rune above ASCII (its first UTF-8 byte is taken), a special key that also
    carries a rune. *)
Example keys_not_read_back :
  ParsePattern (H := noFolding) (Key_String KeyZero) = []
  /\ ParsePattern (H := noFolding) (Key_String (mkKey 62 ModCtrl SpecialNone))
     = [mkKey 0 ModCtrl SpecialNone; KeyRune 62]
  /\ ParsePattern (H := noFolding) (Key_String (mkKey 233 ModCtrl SpecialNone))
     = [mkKey 195 ModCtrl SpecialNone]
  /\ ParsePattern (H := noFolding) (Key_String (mkKey 120 ModNone SpecialUp))
     = [KeySpecial SpecialUp].
Proof. repeat split; vm_compute; reflexivity. Qed.

(** ** The terminal decoder *)














(** ** Repeated dispatch of one key *)

(** The calls of [Dispatch] are serialised by the mutex of the Input.  [n]
    calls with the key of a single-key pattern that has no longer prefix,
    one after the other, call its handler [n] times. *)
Lemma DispatchAll_single_key_repeated (r : Router) (k : Key) (h : Handler)
      (final : trieNode) (n : nat) :
  descend (root r) [k] = Some final -> handler final = Some h ->
  hasChildren final = false -> isDigitKey k = false ->
  DispatchAll (NewInput (Some r)) (repeat k n) =
    (NewInput (Some r), repeat (Some (h, mkMatch [k] 1)) n, repeat true n).
Proof.
  intros Hd Hh Hch Hk. induction n as [|n IH]; [done|].
  cbn [repeat DispatchAll].
  assert (Router_match r (buffer (NewInput (Some r)) ++ [k])
          = (Some h, Z.of_nat (length (buffer (NewInput (Some r)) ++ [k])), false))
    as Hm.
  { change (buffer (NewInput (Some r)) ++ [k]) with [k].
    rewrite Router_match_spec.
    assert ([k] <> []) as Hne by done.
    rewrite (match_spec_registered _ _ _ _ Hne Hd Hh). by rewrite Hch. }
  rewrite (Dispatch_fires (NewInput (Some r)) r k h eq_refl); [| |exact Hm].
  - change (mkInput (stack (NewInput (Some r))) [] "" None None [])
      with (NewInput (Some r)).
    rewrite IH. reflexivity.
  - unfold takenAsCount. by rewrite (isCountDigit_not_digit _ _ Hk).
Qed.

(** ** Registration, removal and rebinding *)

Section Registration.

Context `{CaseTables}.
Implicit Types (node child : trieNode) (keys ks : list Key) (k : Key)
         (r : Router).

Lemma handlerAt_emptyNode ks : handlerAt emptyNode ks = None.
Proof.
  destruct ks as [|k ks]; [done|]. unfold handlerAt. cbn.
  by rewrite lookup_empty.
Qed.

Lemma handlerAt_cons node k ks :
  handlerAt node (k :: ks)
  = match children node !! k with
    | Some child => handlerAt child ks
    | None => None
    end.
Proof. unfold handlerAt. cbn. by destruct (children node !! k). Qed.

(** The walk of [registerPattern] removes no node. *)
Lemma descend_insertPath_keeps keys : forall node h ks,
  is_Some (descend node ks) -> is_Some (descend (insertPath node keys h) ks).
Proof.
  induction keys as [|k keys IH]; intros node h ks Hd.
  - by destruct ks.
  - destruct ks as [|k' ks]; [by eexists|].
    cbn [insertPath descend children] in *.
    destruct (decide (k' = k)) as [->|Hne].
    + rewrite lookup_insert_eq.
      destruct (children node !! k) as [child|]; [|by destruct Hd].
      by apply IH.
    + by rewrite lookup_insert_ne.
Qed.

(** It makes a node for every prefix of the keys. *)
Lemma descend_insertPath_prefix keys : forall node h ks,
  ks `prefix_of` keys -> is_Some (descend (insertPath node keys h) ks).
Proof.
  induction keys as [|k keys IH]; intros node h ks Hp.
  - apply prefix_nil_inv in Hp as ->. by eexists.
  - destruct ks as [|k' ks]; [by eexists|].
    pose proof (prefix_cons_inv_1 _ _ _ _ Hp) as ->.
    apply prefix_cons_inv_2 in Hp.
    cbn [insertPath descend children]. rewrite lookup_insert_eq. by apply IH.
Qed.

Lemma handlerAt_insertPath_same keys : forall node h,
  handlerAt (insertPath node keys h) keys = h.
Proof.
  induction keys as [|k keys IH]; intros node h; [done|].
  rewrite handlerAt_cons. cbn [insertPath children].
  rewrite lookup_insert_eq. apply IH.
Qed.

Lemma handlerAt_insertPath_other keys : forall node h ks,
  ks <> keys -> handlerAt (insertPath node keys h) ks = handlerAt node ks.
Proof.
  induction keys as [|k keys IH]; intros node h ks Hne.
  - destruct ks as [|k' ks]; [done|]. by rewrite !handlerAt_cons.
  - destruct ks as [|k' ks]; [done|].
    rewrite !handlerAt_cons. cbn [insertPath children].
    destruct (decide (k = k')) as [<-|Hk].
    + rewrite lookup_insert_eq, IH by congruence.
      destruct (children node !! k) as [child|]; [done|].
      cbn [default]. apply handlerAt_emptyNode.
    + by rewrite lookup_insert_ne.
Qed.

Lemma handlerAt_clearPath_same keys : forall node,
  handlerAt (clearPath node keys) keys = None.
Proof.
  induction keys as [|k keys IH]; intros node; [done|].
  cbn [clearPath]. destruct (children node !! k) as [child|] eqn:Hc.
  - rewrite handlerAt_cons. cbn [children]. rewrite lookup_insert_eq. apply IH.
  - by rewrite handlerAt_cons, Hc.
Qed.

Lemma handlerAt_clearPath_other keys : forall node ks,
  ks <> keys -> handlerAt (clearPath node keys) ks = handlerAt node ks.
Proof.
  induction keys as [|k keys IH]; intros node ks Hne.
  - destruct ks as [|k' ks]; [done|]. by rewrite !handlerAt_cons.
  - cbn [clearPath]. destruct (children node !! k) as [child|] eqn:Hc; [|done].
    destruct ks as [|k' ks]; [done|].
    rewrite !handlerAt_cons. cbn [children].
    destruct (decide (k = k')) as [<-|Hk].
    + rewrite lookup_insert_eq, Hc. apply IH. congruence.
    + by rewrite lookup_insert_ne.
Qed.

(** [removePattern] prunes nothing: every node stays reachable. *)
Lemma descend_clearPath_keeps keys : forall node ks,
  is_Some (descend node ks) -> is_Some (descend (clearPath node keys) ks).
Proof.
  induction keys as [|k keys IH]; intros node ks.
  - destruct ks as [|k' ks]; cbn; eauto.
  - cbn [clearPath]. destruct (children node !! k) as [child|] eqn:Hc; [|done].
    destruct ks as [|k' ks]; cbn; [eauto|].
    destruct (decide (k = k')) as [<-|Hk].
    + rewrite lookup_insert_eq, Hc. apply IH.
    + by rewrite lookup_insert_ne.
Qed.


Lemma handlerAt_registerPattern r p h ks :
  handlerAt (root (registerPattern r p h)) ks
  = if decide (ParsePattern (expandAliases r p) = [])
    then handlerAt (root r) ks
    else if decide (ks = ParsePattern (expandAliases r p)) then h
         else handlerAt (root r) ks.
Proof.
  rewrite registerPattern_root.
  destruct (ParsePattern (expandAliases r p)) as [|k keys] eqn:E.
  - by rewrite decide_True.
  - rewrite decide_False by done. case_decide as Hks.
    + subst ks. apply handlerAt_insertPath_same.
    + by apply handlerAt_insertPath_other.
Qed.

Lemma handlerAt_removePattern r p ks :
  handlerAt (root (removePattern r p)) ks
  = if decide (ParsePattern (expandAliases r p) = [])
    then handlerAt (root r) ks
    else if decide (ks = ParsePattern (expandAliases r p)) then None
         else handlerAt (root r) ks.
Proof.
  rewrite removePattern_root.
  destruct (ParsePattern (expandAliases r p)) as [|k keys] eqn:E.
  - by rewrite decide_True.
  - rewrite decide_False by done. case_decide as Hks.
    + subst ks. apply handlerAt_clearPath_same.
    + by apply handlerAt_clearPath_other.
Qed.

End Registration.

(** X1.  [registerPattern] with a pattern that compiles to a non-empty key
    sequence puts the handler at that sequence, replacing what was there,
    changes the handler of no other key sequence, and keeps every path of
    the trie: the key sequences that reach a node afterwards are those that
    reached one before and the prefixes of the new sequence. *)
Theorem registerPattern_lookup `{CaseTables}
        (r : Router) (p : string) (h : option Handler) :
  ParsePattern (expandAliases r p) <> [] ->
  handlerAt (root (registerPattern r p h)) (ParsePattern (expandAliases r p)) = h
  /\ (forall ks, ks <> ParsePattern (expandAliases r p) ->
                 handlerAt (root (registerPattern r p h)) ks = handlerAt (root r) ks)
  /\ forall ks, is_Some (descend (root (registerPattern r p h)) ks)
                <-> is_Some (descend (root r) ks)
                    \/ ks `prefix_of` ParsePattern (expandAliases r p).
Proof.
  intros Hne. split; [|split].
  - rewrite handlerAt_registerPattern. by rewrite decide_False, decide_True.
  - intros ks Hks. rewrite handlerAt_registerPattern.
    by rewrite decide_False, decide_False.
  - intros ks. split.
    + intros [final Hd]. by apply registerPattern_paths in Hd.
    + rewrite registerPattern_root.
      destruct (ParsePattern (expandAliases r p)) as [|k keys]; [done|].
      intros [Hd|Hp];
        [by apply descend_insertPath_keeps | by apply descend_insertPath_prefix].
Qed.

Lemma registerPattern_lookup_witness :
  let r := Handle (H := noFolding) NewRouter "g" (Some 1%nat) in
  handlerAt (root (registerPattern (H := noFolding) r "gg" (Some 2%nat)))
            [KeyRune 103; KeyRune 103] = Some 2%nat
  /\ handlerAt (root (registerPattern (H := noFolding) r "gg" (Some 2%nat)))
               [KeyRune 103] = Some 1%nat
  /\ is_Some (descend (root (registerPattern (H := noFolding) r "gg" (Some 2%nat)))
                      [KeyRune 103]).
Proof.
  intros r.
  destruct (registerPattern_lookup (H := noFolding) r "gg" (Some 2%nat))
    as (Hnew & Hother & Hpaths); [discriminate|].
  split; [exact Hnew|]. split.
  - rewrite Hother; [reflexivity | discriminate].
  - apply Hpaths. left. by eexists.
Defined.

(** X2.  [removePattern] with a pattern that compiles to a non-empty key
    sequence leaves no handler at that sequence, changes the handler of no
    other key sequence, and prunes nothing: the key sequences that reach a
    node of the trie are the same before and after. *)
Theorem removePattern_lookup `{CaseTables} (r : Router) (p : string) :
  ParsePattern (expandAliases r p) <> [] ->
  handlerAt (root (removePattern r p)) (ParsePattern (expandAliases r p)) = None
  /\ (forall ks, ks <> ParsePattern (expandAliases r p) ->
                 handlerAt (root (removePattern r p)) ks = handlerAt (root r) ks)
  /\ forall ks, is_Some (descend (root (removePattern r p)) ks)
                <-> is_Some (descend (root r) ks).
Proof.
  intros Hne. split; [|split].
  - rewrite handlerAt_removePattern. by rewrite decide_False, decide_True.
  - intros ks Hks. rewrite handlerAt_removePattern.
    by rewrite decide_False, decide_False.
  - intros ks. rewrite removePattern_root.
    destruct (ParsePattern (expandAliases r p)) as [|k keys]; [done|].
    split.
    + intros [n Hn]. by apply descend_clearPath in Hn.
    + apply descend_clearPath_keeps.
Qed.

Lemma removePattern_lookup_witness :
  handlerAt (root (removePattern (H := noFolding)
                     (Handle (H := noFolding) NewRouter "gg" (Some 2%nat)) "gg"))
            [KeyRune 103; KeyRune 103] = None.
Proof.
  apply (removePattern_lookup (H := noFolding)
           (Handle (H := noFolding) NewRouter "gg" (Some 2%nat)) "gg").
  discriminate.
Defined.

Section NamedBindings.

Context `{CaseTables}.
Implicit Types (r : Router) (nm p : string) (b : namedBinding).

Lemma registerPattern_bookkeeping r p h :
  namedBindings (registerPattern r p h) = namedBindings r
  /\ bindingOrder (registerPattern r p h) = bindingOrder r.
Proof. unfold registerPattern. by destruct (ParsePattern _). Qed.

Lemma removePattern_bookkeeping r p :
  namedBindings (removePattern r p) = namedBindings r
  /\ bindingOrder (removePattern r p) = bindingOrder r.
Proof. unfold removePattern. by destruct (ParsePattern _). Qed.

(** [Rebind] on a known name, field by field. *)
Lemma Rebind_known r nm p b :
  namedBindings r !! nm = Some b ->
  (Rebind r nm p).2 = true
  /\ namedBindings (Rebind r nm p).1
     = <[nm := mkNamedBinding (defaultPattern b) p (nbHandler b)]> (namedBindings r)
  /\ bindingOrder (Rebind r nm p).1 = bindingOrder r
  /\ aliases (Rebind r nm p).1 = aliases r
  /\ forall ks,
       handlerAt (root (Rebind r nm p).1) ks
       = if decide (ParsePattern (expandAliases r p) <> []
                    /\ ks = ParsePattern (expandAliases r p))
         then nbHandler b
         else if decide (ParsePattern (expandAliases r (currentPattern b)) <> []
                         /\ ks = ParsePattern (expandAliases r (currentPattern b)))
              then None
              else handlerAt (root r) ks.
Proof.
  intros E. unfold Rebind. rewrite E. cbn [fst snd].
  set (r1 := removePattern r (currentPattern b)).
  set (r2 := mkRouter _ _ _ _ _ _ _).
  assert (aliases r2 = aliases r) as Hal by apply removePattern_aliases.
  split; [done|]. split.
  { destruct (registerPattern_bookkeeping r2 p (nbHandler b)) as [-> _].
    destruct (removePattern_bookkeeping r (currentPattern b)) as [Hnb _].
    subst r2 r1. cbn [namedBindings]. by rewrite Hnb. }
  split.
  { destruct (registerPattern_bookkeeping r2 p (nbHandler b)) as [_ ->].
    destruct (removePattern_bookkeeping r (currentPattern b)) as [_ Hbo].
    subst r2 r1. cbn [bindingOrder]. by rewrite Hbo. }
  split; [by rewrite registerPattern_aliases|].
  intros ks. rewrite handlerAt_registerPattern.
  rewrite (expandAliases_aliases r r2 p Hal).
  change (root r2) with (root r1). unfold r1. rewrite handlerAt_removePattern.
  repeat case_decide; intuition congruence.
Qed.

End NamedBindings.

(** X3.  [Rebind] of a known name to a pattern that compiles to a non-empty
    key sequence returns true, puts the binding's handler at the new
    sequence, clears the handler at the sequence of the old pattern when
    that differs, leaves every other key sequence alone, and records the new
    pattern while keeping the default one.  On an unknown name it returns
    false and changes nothing. *)
Theorem Rebind_moves_handler `{CaseTables}
        (r : Router) (nm p : string) (b : namedBinding) :
  namedBindings r !! nm = Some b ->
  ParsePattern (expandAliases r p) <> [] ->
  (Rebind r nm p).2 = true
  /\ handlerAt (root (Rebind r nm p).1) (ParsePattern (expandAliases r p))
     = nbHandler b
  /\ (ParsePattern (expandAliases r (currentPattern b)) <> [] ->
      ParsePattern (expandAliases r (currentPattern b))
        <> ParsePattern (expandAliases r p) ->
      handlerAt (root (Rebind r nm p).1)
                (ParsePattern (expandAliases r (currentPattern b))) = None)
  /\ (forall ks,
        ks <> ParsePattern (expandAliases r p) ->
        ks <> ParsePattern (expandAliases r (currentPattern b)) ->
        handlerAt (root (Rebind r nm p).1) ks = handlerAt (root r) ks)
  /\ namedBindings (Rebind r nm p).1 !! nm
     = Some (mkNamedBinding (defaultPattern b) p (nbHandler b))
  /\ forall nm', namedBindings r !! nm' = None -> Rebind r nm' p = (r, false).
Proof.
  intros E Hne.
  destruct (Rebind_known r nm p b E) as (Hret & Hnb & _ & _ & Hh).
  split; [done|]. split; [|split; [|split; [|split]]].
  - rewrite Hh. by rewrite decide_True.
  - intros Hold Hdiff. rewrite Hh.
    rewrite decide_False by (intros [_ ?]; congruence). by rewrite decide_True.
  - intros ks Hn Ho. rewrite Hh.
    rewrite decide_False by (intros [_ ?]; congruence).
    by rewrite decide_False by (intros [_ ?]; congruence).
  - rewrite Hnb. apply lookup_insert_eq.
  - intros nm' E'. unfold Rebind. by rewrite E'.
Qed.

Lemma Rebind_moves_handler_witness :
  let r := HandleNamed (H := noFolding) NewRouter "down" "j" (Some 1%nat) in
  handlerAt (root (Rebind (H := noFolding) r "down" "n").1) [KeyRune 110]
  = Some 1%nat
  /\ handlerAt (root (Rebind (H := noFolding) r "down" "n").1) [KeyRune 106]
     = None.
Proof.
  intros r.
  destruct (Rebind_moves_handler (H := noFolding) r "down" "n"
              (mkNamedBinding "j" "j" (Some 1%nat)) eq_refl)
    as (_ & Hnew & Hold & _); [discriminate|].
  split; [exact Hnew|]. apply Hold; discriminate.
Defined.

Section ResetBindings.

Context `{CaseTables}.
Implicit Types (r : Router) (nm p : string) (b : namedBinding).

(** [Reset] on a known name: the binding is at its default pattern
    afterwards, and nothing else of the bookkeeping moves. *)
Lemma Reset_known r nm b :
  namedBindings r !! nm = Some b ->
  (Reset r nm).2 = true
  /\ namedBindings (Reset r nm).1
     = <[nm := mkNamedBinding (defaultPattern b) (defaultPattern b) (nbHandler b)]>
         (namedBindings r)
  /\ bindingOrder (Reset r nm).1 = bindingOrder r
  /\ aliases (Reset r nm).1 = aliases r.
Proof.
  intros E. unfold Reset. rewrite E.
  destruct (String.eqb_spec (currentPattern b) (defaultPattern b)) as [Heq|Hne].
  - cbn [fst snd]. repeat split.
    symmetry. apply insert_id. rewrite E. f_equal.
    destruct b as [d c h]. cbn in *. by subst c.
  - destruct (Rebind_known r nm (defaultPattern b) b E) as (? & ? & ? & ? & _).
    done.
Qed.

Lemma Reset_unknown r nm :
  namedBindings r !! nm = None -> Reset r nm = (r, false).
Proof. intros E. unfold Reset. by rewrite E. Qed.

Lemma Rebind_unknown r nm p :
  namedBindings r !! nm = None -> Rebind r nm p = (r, false).
Proof. intros E. unfold Rebind. by rewrite E. Qed.

End ResetBindings.

(** X4.  [Reset] after [Rebind] brings a named binding back: it returns
    true, the current pattern is the default one again, the handler is at
    the key sequence of the default pattern, and the key sequence it had
    been rebound to has no handler any more.  [Reset] of a name the router
    does not know returns false and changes nothing. *)
Theorem Reset_after_Rebind `{CaseTables}
        (r : Router) (nm p : string) (b : namedBinding) :
  namedBindings r !! nm = Some b ->
  ParsePattern (expandAliases r (defaultPattern b)) <> [] ->
  ((Reset (Rebind r nm p).1 nm).2 = true
   /\ namedBindings (Reset (Rebind r nm p).1 nm).1 !! nm
      = Some (mkNamedBinding (defaultPattern b) (defaultPattern b) (nbHandler b))
   /\ handlerAt (root (Reset (Rebind r nm p).1 nm).1)
                (ParsePattern (expandAliases r (defaultPattern b)))
      = nbHandler b
   /\ (ParsePattern (expandAliases r p) <> [] ->
       ParsePattern (expandAliases r p)
         <> ParsePattern (expandAliases r (defaultPattern b)) ->
       handlerAt (root (Reset (Rebind r nm p).1 nm).1)
                 (ParsePattern (expandAliases r p)) = None))
  /\ forall (r' : Router) (nm' : string),
       namedBindings r' !! nm' = None -> Reset r' nm' = (r', false).
Proof.
  intros E Hd. split; [|intros r' nm'; by apply Reset_unknown].
  destruct (Rebind_known r nm p b E) as (_ & Hnb & _ & Hal & Hh).
  set (r1 := (Rebind r nm p).1) in *.
  set (b1 := mkNamedBinding (defaultPattern b) p (nbHandler b)) in *.
  assert (namedBindings r1 !! nm = Some b1) as E1
    by (rewrite Hnb; apply lookup_insert_eq).
  destruct (Reset_known r1 nm b1 E1) as (Hret & Hnb2 & _ & _).
  split; [done|]. split; [rewrite Hnb2; apply lookup_insert_eq|].
  assert (forall q, expandAliases r1 q = expandAliases r q) as Hexp
    by (intros q; by apply expandAliases_aliases).
  unfold Reset. rewrite E1. cbn [currentPattern defaultPattern b1].
  destruct (String.eqb_spec p (defaultPattern b)) as [->|Hne].
  - cbn [fst]. split.
    + rewrite Hh. by rewrite decide_True.
    + intros _ Hdiff. done.
  - destruct (Rebind_known r1 nm (defaultPattern b) b1 E1) as (_ & _ & _ & _ & Hh2).
    split.
    + rewrite Hh2, Hexp. by rewrite decide_True.
    + intros Hp Hdiff. rewrite Hh2, !Hexp. cbn [currentPattern b1].
      rewrite decide_False by (intros [_ ?]; congruence).
      by rewrite decide_True.
Qed.

Lemma Reset_after_Rebind_witness :
  let r := HandleNamed (H := noFolding) NewRouter "down" "j" (Some 1%nat) in
  handlerAt (root (Reset (H := noFolding)
                     (Rebind (H := noFolding) r "down" "n").1 "down").1)
            [KeyRune 106] = Some 1%nat.
Proof.
  intros r.
  destruct (Reset_after_Rebind (H := noFolding) r "down" "n"
              (mkNamedBinding "j" "j" (Some 1%nat)) eq_refl)
    as ((_ & _ & Hh & _) & _); [discriminate|].
  exact Hh.
Defined.

Section Introspection.

Context `{CaseTables}.
Implicit Types (r : Router) (nm p : string) (b : namedBinding)
         (ops : list RouterOp).

Lemma applyOp_order r op :
  bindingOrder (applyOp r op) = bindingOrder r ++ namedOps [op].
Proof.
  destruct op as [p h|nm p h|nm p|nm|nm e]; cbn [applyOp namedOps flat_map];
    rewrite ?app_nil_r.
  - unfold Handle. by destruct (registerPattern_bookkeeping r p h) as [_ ->].
  - unfold HandleNamed.
    by destruct (registerPattern_bookkeeping
                   (mkRouter (root r) (timeout r) (name r) (hasEscapeSequences r)
                      (aliases r)
                      (<[nm:=mkNamedBinding p p h]> (namedBindings r))
                      (bindingOrder r ++ [nm])) p h) as [_ ->].
  - destruct (namedBindings r !! nm) as [b|] eqn:E.
    + by destruct (Rebind_known r nm p b E) as (_ & _ & -> & _).
    + by rewrite Rebind_unknown.
  - destruct (namedBindings r !! nm) as [b|] eqn:E.
    + by destruct (Reset_known r nm b E) as (_ & _ & -> & _).
    + by rewrite Reset_unknown.
  - done.
Qed.

Lemma applyOp_known r op nm :
  is_Some (namedBindings r !! nm) -> is_Some (namedBindings (applyOp r op) !! nm).
Proof.
  intros Hnm.
  destruct op as [p h|nm' p h|nm' p|nm'|nm' e]; cbn [applyOp].
  - unfold Handle. by destruct (registerPattern_bookkeeping r p h) as [-> _].
  - unfold HandleNamed.
    destruct (registerPattern_bookkeeping
                (mkRouter (root r) (timeout r) (name r) (hasEscapeSequences r)
                   (aliases r)
                   (<[nm':=mkNamedBinding p p h]> (namedBindings r))
                   (bindingOrder r ++ [nm'])) p h) as [-> _].
    cbn. rewrite lookup_insert. by case_decide.
  - destruct (namedBindings r !! nm') as [b|] eqn:E.
    + destruct (Rebind_known r nm' p b E) as (_ & -> & _).
      rewrite lookup_insert. by case_decide.
    + by rewrite Rebind_unknown.
  - destruct (namedBindings r !! nm') as [b|] eqn:E.
    + destruct (Reset_known r nm' b E) as (_ & -> & _).
      rewrite lookup_insert. by case_decide.
    + by rewrite Reset_unknown.
  - done.
Qed.

Lemma applyOp_covered r op : orderCovered r -> orderCovered (applyOp r op).
Proof.
  intros Hc nm. rewrite applyOp_order, elem_of_app. intros [Hin|Hin].
  - by apply applyOp_known, Hc.
  - destruct op as [p h|nm' p h|nm' p|nm'|nm' e]; cbn in Hin;
      try by apply elem_of_nil in Hin.
    apply list_elem_of_singleton in Hin. subst nm'.
    cbn [applyOp]. unfold HandleNamed.
    destruct (registerPattern_bookkeeping
                (mkRouter (root r) (timeout r) (name r) (hasEscapeSequences r)
                   (aliases r)
                   (<[nm:=mkNamedBinding p p h]> (namedBindings r))
                   (bindingOrder r ++ [nm])) p h) as [-> _].
    cbn. by rewrite lookup_insert_eq.
Qed.

Lemma runOps_order ops : forall r,
  bindingOrder (runOps r ops) = bindingOrder r ++ namedOps ops.
Proof.
  induction ops as [|op ops IH]; intros r; [by rewrite app_nil_r|].
  cbn [runOps fold_left]. fold (runOps (applyOp r op) ops).
  rewrite IH, applyOp_order, <- app_assoc. f_equal.
  unfold namedOps. cbn [flat_map]. by rewrite app_nil_r.
Qed.

Lemma runOps_covered ops : forall r,
  orderCovered r -> orderCovered (runOps r ops).
Proof.
  induction ops as [|op ops IH]; intros r Hc; [done|].
  cbn [runOps fold_left]. fold (runOps (applyOp r op) ops).
  by apply IH, applyOp_covered.
Qed.

(** With every listed name bound, [Bindings] has one entry per listed name,
    which carries the patterns of that name's binding. *)
Lemma Bindings_covered r :
  orderCovered r ->
  map BName (Bindings r) = bindingOrder r
  /\ forall e, e ∈ Bindings r ->
       exists b, namedBindings r !! BName e = Some b
                 /\ BPattern e = currentPattern b
                 /\ BDefaultPattern e = defaultPattern b.
Proof.
  unfold orderCovered, Bindings. generalize (bindingOrder r) as l.
  induction l as [|nm l IH]; intros Hc.
  - split; [done|]. intros e He. by apply elem_of_nil in He.
  - destruct (Hc nm (list_elem_of_here _ _)) as [b Hb].
    destruct IH as [IH1 IH2].
    { intros nm' Hin. apply Hc. by apply list_elem_of_further. }
    cbn [flat_map]. rewrite Hb. cbn [app map BName]. split; [by rewrite IH1|].
    intros e He. apply elem_of_cons in He as [->|He]; [|by apply IH2].
    exists b. by cbn.
Qed.

End Introspection.

(** X5.  On a router built from [NewRouter], [Bindings] lists the names
    given to [HandleNamed], in the order of the calls and once for every
    call, so a name registered twice is listed twice; every entry shows the
    current and the default pattern of the binding its name has now. *)
Theorem Bindings_in_registration_order `{CaseTables} (ops : list RouterOp) :
  map BName (Bindings (runOps NewRouter ops)) = namedOps ops
  /\ forall e, e ∈ Bindings (runOps NewRouter ops) ->
       exists b, namedBindings (runOps NewRouter ops) !! BName e = Some b
                 /\ BPattern e = currentPattern b
                 /\ BDefaultPattern e = defaultPattern b.
Proof.
  destruct (Bindings_covered (runOps NewRouter ops)) as [Hn He].
  { apply runOps_covered. intros nm Hin. by apply elem_of_nil in Hin. }
  split; [|exact He]. by rewrite Hn, runOps_order.
Qed.

Section ResetAllSection.

Context `{CaseTables}.
Implicit Types (r : Router) (nm : string) (order : list string).

Lemma Reset_maps r nm :
  DefaultBindingsMap (Reset r nm).1 = DefaultBindingsMap r
  /\ (forall nm', nm' <> nm ->
        BindingsMap (Reset r nm).1 !! nm' = BindingsMap r !! nm')
  /\ BindingsMap (Reset r nm).1 !! nm = DefaultBindingsMap r !! nm.
Proof.
  unfold DefaultBindingsMap, BindingsMap.
  destruct (namedBindings r !! nm) as [b|] eqn:E.
  - destruct (Reset_known r nm b E) as (_ & -> & _). split; [|split].
    + apply map_eq. intros nm'. rewrite !lookup_fmap, lookup_insert.
      case_decide; [subst; by rewrite E | done].
    + intros nm' Hne. by rewrite !lookup_fmap, lookup_insert_ne.
    + by rewrite !lookup_fmap, lookup_insert_eq, E.
  - rewrite Reset_unknown by done. cbn [fst]. split; [done|]. split; [done|].
    by rewrite !lookup_fmap, E.
Qed.

Lemma ResetAll_maps order : forall r,
  DefaultBindingsMap (ResetAll r order) = DefaultBindingsMap r
  /\ forall nm,
       BindingsMap (ResetAll r order) !! nm
       = if decide (nm ∈ order) then DefaultBindingsMap r !! nm
         else BindingsMap r !! nm.
Proof.
  induction order as [|nm0 order IH]; intros r.
  - split; [done|]. intros nm. rewrite decide_False; [done|]. apply not_elem_of_nil.
  - cbn [ResetAll fold_left]. fold (ResetAll (Reset r nm0).1 order).
    destruct (IH (Reset r nm0).1) as [IHd IHc].
    destruct (Reset_maps r nm0) as (Hd & Ho & Hs).
    split; [by rewrite IHd|].
    intros nm. rewrite IHc, Hd.
    destruct (decide (nm ∈ order)) as [Hin|Hin].
    + rewrite decide_True; [done|]. by apply list_elem_of_further.
    + destruct (decide (nm = nm0)) as [->|Hne].
      * rewrite decide_True; [done|]. apply list_elem_of_here.
      * rewrite decide_False; [by apply Ho|].
        intros Hc. apply elem_of_cons in Hc as [?|?]; done.
Qed.

End ResetAllSection.

(** X6.  [ResetAll], in whatever order it visits the names of the bindings,
    leaves every binding at its default pattern: the map of the current
    patterns is then the map of the default patterns, which it does not
    change. *)
Theorem ResetAll_restores_defaults `{CaseTables}
        (r : Router) (order : list string) :
  (forall nm, is_Some (namedBindings r !! nm) -> nm ∈ order) ->
  BindingsMap (ResetAll r order) = DefaultBindingsMap r
  /\ DefaultBindingsMap (ResetAll r order) = DefaultBindingsMap r.
Proof.
  intros Hall. destruct (ResetAll_maps order r) as [Hd Hc].
  split; [|exact Hd]. apply map_eq. intros nm. rewrite Hc.
  case_decide as Hin; [done|].
  unfold BindingsMap, DefaultBindingsMap. rewrite !lookup_fmap.
  destruct (namedBindings r !! nm) as [b|] eqn:E; [|done].
  exfalso. apply Hin, Hall. by rewrite E.
Qed.

Lemma ResetAll_restores_defaults_witness :
  let r := (Rebind (H := noFolding)
              (HandleNamed (H := noFolding)
                 (HandleNamed (H := noFolding) NewRouter "down" "j" (Some 1%nat))
                 "up" "k" (Some 2%nat))
              "down" "n").1 in
  BindingsMap (ResetAll (H := noFolding) r ["up"; "down"]) = DefaultBindingsMap r.
Proof.
  intros r.
  apply (ResetAll_restores_defaults (H := noFolding) r ["up"; "down"]).
  intros nm [b Hb].
  destruct (decide (nm = "up")) as [->|Hu]; [apply list_elem_of_here|].
  destruct (decide (nm = "down")) as [->|Hd];
    [apply list_elem_of_further, list_elem_of_here|].
  exfalso. subst r. revert Hb.
  assert (namedBindings
            (Rebind (H := noFolding)
               (HandleNamed (H := noFolding)
                  (HandleNamed (H := noFolding) NewRouter "down" "j" (Some 1%nat))
                  "up" "k" (Some 2%nat)) "down" "n").1
          = <["down" := mkNamedBinding "j" "n" (Some 1%nat)]>
              (<["up" := mkNamedBinding "k" "k" (Some 2%nat)]>
                 (<["down" := mkNamedBinding "j" "j" (Some 1%nat)]> ∅))) as ->
    by (vm_compute; reflexivity).
  by rewrite !lookup_insert_ne, lookup_empty by done.
Defined.

Section Aliases.

Context `{CaseTables}.
Implicit Types (r : Router) (s t nm : string) (al : gmap string string).

Lemma append_cons c s t : (String c s ++ t)%string = String c (s ++ t)%string.
Proof. reflexivity. Qed.

Lemma IndexByte_app_close nm t :
  IndexByte nm ">" = None ->
  IndexByte (nm ++ String ">" t) ">" = Some (String.length nm).
Proof.
  induction nm as [|c nm IH]; [done|]. rewrite append_cons. cbn [IndexByte String.length].
  destruct (Ascii.eqb c ">"); [done|].
  destruct (IndexByte nm ">"); [done|]. intros _. by rewrite IH.
Qed.

Lemma substring_app_prefix nm t :
  substring 0 (String.length nm) (nm ++ t) = nm.
Proof.
  induction nm as [|c nm IH]; [by destruct t|].
  rewrite append_cons. cbn [String.length substring]. by rewrite IH.
Qed.

Lemma dropString_app nm t : dropString (String.length nm) (nm ++ t) = t.
Proof. induction nm as [|c nm IH]; [done|]. rewrite append_cons. apply IH. Qed.

Lemma length_append s t :
  String.length (s ++ t) = (String.length s + String.length t)%nat.
Proof.
  induction s as [|c s IH]; [done|]. rewrite append_cons. cbn. by rewrite IH.
Qed.

Lemma append_assoc (a b c : string) : (a ++ (b ++ c) = (a ++ b) ++ c)%string.
Proof.
  induction a as [|x a IHa]; [done|]. rewrite !append_cons. by rewrite IHa.
Qed.

(** A reference [<nm>] at the head of what is left of the pattern: it is
    replaced by the expansion when [nm] is an alias, copied otherwise; the
    loop goes on behind the reference. *)
Lemma expandLoop_reference fuel al nm t :
  IndexByte nm ">" = None ->
  expandLoop (S fuel) al (String "<" (nm ++ ">") ++ t)
  = (match al !! ToLower nm with
     | Some expansion => expansion
     | None => String "<" (nm ++ ">")
     end ++ expandLoop fuel al t)%string.
Proof.
  intros Hnm.
  set (ref := String "<" (nm ++ ">")).
  assert (String.length ref = S (String.length nm + 1)) as Hlen
    by (subst ref; cbn; rewrite length_append; cbn; lia).
  assert ((ref ++ t)%string = String "<" (nm ++ String ">" t)) as Hs.
  { subst ref. rewrite append_cons, <- append_assoc. reflexivity. }
  assert (IndexByte (ref ++ t) ">" = Some (String.length nm + 1)%nat) as Hidx.
  { rewrite Hs. cbn [IndexByte]. change (Ascii.eqb "<" ">") with false. cbv iota.
    rewrite (IndexByte_app_close nm t Hnm). cbn. f_equal. lia. }
  assert (slice (ref ++ t) 1 (String.length nm + 1) = nm) as Hname.
  { rewrite Hs. unfold slice. rewrite Nat.add_sub. cbn [substring].
    apply substring_app_prefix. }
  assert (slice (ref ++ t) 0 (String.length nm + 1 + 1) = ref) as Hcopy.
  { unfold slice. rewrite Nat.sub_0_r.
    replace (String.length nm + 1 + 1)%nat with (String.length ref) by lia.
    apply substring_app_prefix. }
  assert (dropString (String.length nm + 1 + 1) (ref ++ t) = t) as Hrest.
  { replace (String.length nm + 1 + 1)%nat with (String.length ref) by lia.
    apply dropString_app. }
  destruct (ref ++ t)%string as [|c s'] eqn:E; [by rewrite Hs in E|].
  assert (c = "<"%char) as -> by (rewrite Hs in E; congruence).
  cbn [expandLoop]. change (Ascii.eqb "<" "<") with true. cbv iota.
  by rewrite Hidx, Hname, Hcopy, Hrest.
Qed.

(** Text without ['<'] before what is left of the pattern is copied, and
    the loop goes on behind it. *)
Lemma expandLoop_prefix al t : forall pre fuel,
  IndexByte pre "<" = None ->
  expandLoop (String.length pre + fuel) al (pre ++ t)
  = (pre ++ expandLoop fuel al t)%string.
Proof.
  induction pre as [|c pre IH]; intros fuel Hpre; [done|].
  rewrite !append_cons. cbn [String.length Nat.add expandLoop].
  cbn [IndexByte] in Hpre.
  destruct (Ascii.eqb c "<"); [done|]. f_equal.
  apply IH. by destruct (IndexByte pre "<").
Qed.

(** Text without ['<'] is copied. *)
Lemma expandLoop_plain al s : forall fuel,
  IndexByte s "<" = None -> (String.length s <= fuel)%nat ->
  expandLoop fuel al s = s.
Proof.
  induction s as [|c s IH]; intros fuel Hs Hf; [by destruct fuel|].
  destruct fuel as [|fuel]; [cbn in Hf; lia|].
  cbn [expandLoop]. cbn [IndexByte] in Hs.
  destruct (Ascii.eqb c "<"); [done|]. f_equal.
  apply IH; [by destruct (IndexByte s "<") | cbn in Hf; lia].
Qed.

End Aliases.

(** X7.  A reference [<name>] to an alias set by [SetAlias] is replaced by
    the expansion whatever the case of its letters: a pattern made of a
    prefix without ['<'], the reference and a rest expands to the prefix,
    the expansion written as it is, and the expansion of the rest, so an
    expansion is never expanded again; a pattern without ['<'] is left
    unchanged. *)
Theorem alias_expands_once `{CaseTables}
        (r : Router) (nm expansion pre nm' t : string) :
  ToLower nm' = ToLower nm ->
  IndexByte nm' ">" = None ->
  IndexByte pre "<" = None ->
  expandAliases (SetAlias r nm expansion) (pre ++ String "<" (nm' ++ ">") ++ t)
  = (pre ++ expansion ++ expandAliases (SetAlias r nm expansion) t)%string
  /\ forall p, IndexByte p "<" = None ->
               expandAliases (SetAlias r nm expansion) p = p.
Proof.
  intros Hlow Hnm Hpre. unfold expandAliases, SetAlias. cbn [aliases].
  set (al := <[ToLower nm := expansion]> (default ∅ (aliases r))).
  split.
  - set (ref := String "<" (nm' ++ ">")).
    assert (String.length (pre ++ ref ++ t)
            = (String.length pre + S (String.length nm' + 1 + String.length t))%nat)
      as -> by (rewrite !length_append; subst ref; cbn; rewrite length_append;
                cbn; lia).
    rewrite expandLoop_prefix by done. f_equal.
    subst ref. rewrite expandLoop_reference by done.
    rewrite Hlow. subst al. rewrite lookup_insert_eq. f_equal.
    apply expandLoop_fuel; lia.
  - intros p Hp. by apply expandLoop_plain.
Qed.

Lemma alias_expands_once_witness :
  expandAliases (H := noFolding)
    (SetAlias (H := noFolding) NewRouter "Leader" ",") "g<LEADER>f" = "g,f"%string.
Proof.
  apply (alias_expands_once (H := noFolding) NewRouter "Leader" "," "g" "LEADER" "f");
    reflexivity.
Defined.

Section Compiler.

Context `{CaseTables}.

Lemma parseLoop_acc runes : forall fuel i keys,
  parseLoop fuel runes i keys = keys ++ parseLoop fuel runes i [].
Proof.
  induction fuel as [|fuel IH]; intros i keys; cbn [parseLoop];
    [by rewrite app_nil_r|].
  destruct (runes !! i) as [r|]; [|by rewrite app_nil_r].
  destruct (_ && _).
  - rewrite IH, (IH _ ([] ++ _)). by rewrite app_assoc.
  - rewrite IH, (IH _ ([] ++ _)). by rewrite app_assoc.
Qed.

Lemma parseLoop_length runes : forall fuel i keys,
  (length (parseLoop fuel runes i keys) <= length keys + (length runes - i))%nat.
Proof.
  induction fuel as [|fuel IH]; intros i keys; cbn [parseLoop]; [lia|].
  destruct (runes !! i) as [r|] eqn:Hi; [|lia].
  apply lookup_lt_Some in Hi.
  pose proof (scanClose_ge (drop (i + 1) runes) (i + 1)).
  destruct (_ && _).
  - etransitivity; [apply IH|]. rewrite length_app. cbn. lia.
  - etransitivity; [apply IH|]. rewrite length_app. cbn. lia.
Qed.

Lemma decodeRunes_nil bs : decodeRunes bs = [] -> bs = [].
Proof.
  destruct bs as [|b0 rest]; [done|]. cbn [decodeRunes].
  destruct (b0 <? 128); [done|].
  destruct (utf8First b0) as [[[sz lo] hi]|]; [|done].
  destruct rest as [|b1 rest1]; [done|].
  destruct (_ || _); [done|]. destruct (sz <=? 2)%nat; [done|].
  destruct rest1 as [|b2 rest2]; [done|].
  destruct (negb _); [done|]. destruct (sz <=? 3)%nat; [done|].
  destruct rest2 as [|b3 rest3]; [done|]. by destruct (negb _).
Qed.

Lemma scanClose_none suffix : forall e,
  62 ∉ suffix -> scanClose suffix e = (e + length suffix)%nat.
Proof.
  induction suffix as [|r suffix IH]; intros e Hno; cbn; [lia|].
  destruct (Z.eqb_spec r 62) as [->|Hr].
  - exfalso. apply Hno, list_elem_of_here.
  - rewrite IH; [lia|]. intros Hin. apply Hno. by apply list_elem_of_further.
Qed.

Lemma parseLoop_literal runes : forall fuel i,
  62 ∉ runes -> (length runes - i <= fuel)%nat ->
  parseLoop fuel runes i [] = map KeyRune (drop i runes).
Proof.
  induction fuel as [|fuel IH]; intros i Hno Hf.
  - cbn. rewrite drop_ge by lia. done.
  - cbn [parseLoop]. destruct (runes !! i) as [r|] eqn:Hi.
    + pose proof (lookup_lt_Some _ _ _ Hi) as Hlt.
      rewrite scanClose_none.
      2:{ intros Hin. apply Hno. rewrite <- (take_drop (i + 1) runes).
          apply elem_of_app. by right. }
      rewrite length_drop.
      replace (i + 1 + (length runes - (i + 1)))%nat with (length runes) by lia.
      rewrite Nat.ltb_irrefl, andb_false_r.
      rewrite parseLoop_acc, IH by (done || lia).
      rewrite (drop_S _ _ _ Hi). cbn. by rewrite Nat.add_1_r.
    + apply lookup_ge_None in Hi. by rewrite drop_ge.
Qed.

End Compiler.

(** X8.  Only the empty pattern compiles to the empty key sequence: a
    pattern that is not empty gives at least one key and at most one key
    for each of its runes. *)
Theorem ParsePattern_empty_iff `{CaseTables} (p : string) :
  (ParsePattern p = [] <-> p = EmptyString)
  /\ (length (ParsePattern p) <= length (runesOf p))%nat.
Proof.
  unfold ParsePattern. destruct p as [|c p]; [by cbn|].
  cbn [String.eqb]. split.
  - split; [|done]. intros Hnil. exfalso.
    destruct (runesOf (String c p)) as [|r0 runes] eqn:E.
    { unfold runesOf in E. by apply decodeRunes_nil in E. }
    revert Hnil. cbn [length parseLoop lookup list_lookup].
    destruct (_ && _); rewrite parseLoop_acc; by cbn.
  - etransitivity; [apply parseLoop_length|]. cbn. lia.
Qed.

(** X9.  A pattern with no ['>'] compiles to one literal key for each of its
    runes: a ['<'] that is never closed is a key like any other. *)
Theorem ParsePattern_unclosed_is_literal `{CaseTables} (p : string) :
  62 ∉ runesOf p -> ParsePattern p = map KeyRune (runesOf p).
Proof.
  intros Hno. unfold ParsePattern. destruct p as [|c p]; [done|].
  cbn [String.eqb]. rewrite parseLoop_literal by (done || lia).
  by rewrite drop_0.
Qed.

Lemma ParsePattern_unclosed_is_literal_witness :
  ParsePattern (H := noFolding) "a<b" = [KeyRune 97; KeyRune 60; KeyRune 98].
Proof.
  apply (ParsePattern_unclosed_is_literal (H := noFolding) "a<b").
  intros Hin. vm_compute in Hin. 
  repeat (apply elem_of_cons in Hin as [Hin|Hin]; [discriminate Hin|]).
  by apply elem_of_nil in Hin.
Defined.

(** ** The dispatcher on every state *)

Section DispatchEveryState.

Implicit Types (i : Input) (r : Router) (k : Key) (keys buf : list Key).

Lemma walked_le node keys : (walked node keys <= length keys)%nat.
Proof.
  revert node. induction keys as [|k keys IH]; intros node; cbn; [lia|].
  destruct (children node !! k) as [child|]; [|lia]. specialize (IH child). lia.
Qed.

(** A handler returned by [match] is the handler registered at the keys it
    says it consumed, at least one and no more than the buffer holds. *)
Lemma Router_match_handler r buf h c partial :
  Router_match r buf = (Some h, c, partial) ->
  exists j, c = Z.of_nat j /\ (1 <= j <= length buf)%nat
            /\ handlerAt (root r) (take j buf) = Some h.
Proof.
  rewrite Router_match_spec. unfold match_spec. intros [= Hd Hp].
  apply deepestFrom_Some in Hd as (j & -> & Hj & Hh & _).
  exists j. split; [done|]. split; [|exact Hh].
  pose proof (walked_le (root r) buf). lia.
Qed.

Lemma Router_match_consumed r buf ho c partial :
  Router_match r buf = (ho, c, partial) -> 0 <= c <= Z.of_nat (length buf).
Proof.
  destruct ho as [h|]; intros Hm.
  - apply Router_match_handler in Hm as (j & -> & Hj & _). lia.
  - rewrite Router_match_spec in Hm. unfold match_spec in Hm.
    injection Hm as Hd _. apply deepestFrom_None in Hd as [-> _]. lia.
Qed.

Lemma parseCount_pos i : 1 <= parseCount i.
Proof.
  unfold parseCount. destruct (String.eqb _ _); [lia|].
  destruct (Atoi _) as [n|]; [|lia]. destruct (Z.ltb_spec n 1); lia.
Qed.

End DispatchEveryState.

(** X10.  Whatever the state of the Input, the handler [Dispatch] calls is
    the one the active router holds at exactly the keys it reports; these
    keys are a non-empty prefix of the buffered keys followed by the new
    one, and only they leave the buffer; the count is at least 1; the count
    accumulator is emptied, nothing stays pending and the call returns
    true. *)
Theorem Dispatch_calls_registered_handler
        (i i' : Input) (r : Router) (k : Key) (h : Handler) (m : Match)
        (handled : bool) :
  last (stack i) = Some r ->
  Dispatch i k = (i', Some (h, m), handled) ->
  handled = true
  /\ handlerAt (root r) (Keys m) = Some h
  /\ Keys m <> []
  /\ buffer i ++ [k] = Keys m ++ buffer i'
  /\ 1 <= Count m
  /\ countBuffer i' = EmptyString
  /\ pending i' = None /\ timer i' = None /\ stack i' = stack i.
Proof.
  intros Hr. unfold Dispatch. rewrite Hr.
  destruct (isCountDigit i k && _); [done|].
  destruct (Router_match r (buffer i ++ [k])) as [[ho c] partial] eqn:Hm.
  destruct (_ && _ && _); [done|].
  destruct ho as [hd|]; [|by destruct partial].
  destruct (negb partial); [|done].
  intros [= <- <- <- <-].
  apply Router_match_handler in Hm as (j & -> & Hj & Hh).
  rewrite Nat2Z.id. cbn [Keys Count buffer countBuffer pending timer stack].
  split; [done|]. split; [exact Hh|]. split.
  { intros E. apply (f_equal length) in E. rewrite length_take in E. cbn in E. lia. }
  split; [by rewrite take_drop|]. split; [apply parseCount_pos | done].
Qed.

Lemma Dispatch_calls_registered_handler_witness :
  let r := Handle (H := noFolding) NewRouter "j" (Some 7%nat) in
  handlerAt (root r) [KeyRune 106] = Some 7%nat.
Proof.
  intros r.
  destruct (Dispatch_calls_registered_handler
              (NewInput (Some r)) (NewInput (Some r)) r (KeyRune 106) 7%nat
              (mkMatch [KeyRune 106] 1) true eq_refl)
    as (_ & Hh & _); [vm_compute; reflexivity | exact Hh].
Defined.

(** X11.  When [Dispatch] returns false on an Input with a router, it has
    called no handler and left nothing behind: the key buffer and the count
    accumulator are empty, no handler is pending and no timer is armed. *)
Theorem Dispatch_unhandled_resets (i : Input) (r : Router) (k : Key) :
  last (stack i) = Some r ->
  (Dispatch i k).2 = false ->
  (Dispatch i k).1 = (mkInput (stack i) [] "" None None [], None).
Proof.
  intros Hr. unfold Dispatch. rewrite Hr.
  destruct (isCountDigit i k && _); [done|].
  destruct (Router_match r (buffer i ++ [k])) as [[ho c] partial].
  destruct (_ && _ && _); [done|].
  destruct ho as [hd|].
  - by destruct (negb partial).
  - by destruct partial.
Qed.

Lemma Dispatch_unhandled_resets_witness :
  let r := Handle (H := noFolding) NewRouter "j" (Some 7%nat) in
  (Dispatch (mkInput [r] [] "5" None None []) (KeyRune 120)).1
  = (mkInput [r] [] "" None None [], None).
Proof.
  intros r.
  apply (Dispatch_unhandled_resets (mkInput [r] [] "5" None None []) r (KeyRune 120));
    reflexivity.
Defined.

(** X12.  A key that completes a registered pattern with no longer prefix
    calls that pattern's handler at once, on any state of the Input: a
    shorter match that was pending is dropped without its handler being
    called. *)
Theorem Dispatch_longer_pattern_supersedes
        (i : Input) (r : Router) (k : Key) (h : Handler) :
  last (stack i) = Some r ->
  takenAsCount i k = false ->
  handlerAt (root r) (buffer i ++ [k]) = Some h ->
  hasLongerPrefix (root r) (buffer i ++ [k]) = false ->
  Dispatch i k =
    (mkInput (stack i) [] "" None None [],
     Some (h, mkMatch (buffer i ++ [k]) (parseCount i)), true).
Proof.
  intros Hr Hc Hh Hl. apply (Dispatch_fires i r k h Hr Hc).
  unfold handlerAt in Hh.
  destruct (descend (root r) (buffer i ++ [k])) as [final|] eqn:Hd; [|done].
  rewrite Router_match_spec.
  assert (buffer i ++ [k] <> []) as Hne by (by destruct (buffer i)).
  rewrite (match_spec_registered _ _ _ _ Hne Hd Hh).
  by rewrite <- (hasLongerPrefix_reached _ _ _ Hd), Hl.
Qed.

Lemma Dispatch_longer_pattern_supersedes_witness :
  let r := Handle (H := noFolding)
             (Handle (H := noFolding) NewRouter "g" (Some 1%nat))
             "gg" (Some 2%nat) in
  let i := (Dispatch (NewInput (Some r)) (KeyRune 103)).1.1 in
  pending i = Some 1%nat
  /\ Dispatch i (KeyRune 103) =
       (NewInput (Some r),
        Some (2%nat, mkMatch [KeyRune 103; KeyRune 103] 1), true).
Proof.
  intros r i. split; [reflexivity|].
  apply (Dispatch_longer_pattern_supersedes i r (KeyRune 103) 2%nat); reflexivity.
Defined.

(** ** What every reachable state of an Input satisfies *)

Section ReachableInputs.

Implicit Types (i : Input) (r : Router) (k : Key) (op : InputOp).

Lemma Dispatch_pendingSound i k :
  pendingSound i -> pendingSound (Dispatch i k).1.1.
Proof.
  intros Hi. unfold Dispatch.
  destruct (last (stack i)) as [r|] eqn:Hr; [|exact Hi].
  destruct (isCountDigit i k && _) eqn:Hc.
  { apply andb_true_iff in Hc as [_ Hb]. apply Nat.eqb_eq in Hb.
    unfold pendingSound in *. cbn [fst pending pendingKeys buffer].
    destruct (pending i) as [h|]; [|exact Hi].
    destruct Hi as (Hne & [rest Hp] & _).
    destruct (buffer i); [|done]. by destruct (pendingKeys i). }
  destruct (Router_match r (buffer i ++ [k])) as [[ho c] partial] eqn:Hm.
  destruct (_ && _ && _); [done|].
  destruct ho as [hd|]; [|by destruct partial].
  destruct partial; [|done].
  apply Router_match_handler in Hm as (j & -> & Hj & Hh).
  rewrite Nat2Z.id. cbn [negb fst]. unfold pendingSound.
  cbn [pending pendingKeys buffer stack timer].
  split.
  { intros E. apply (f_equal length) in E. rewrite length_take in E. cbn in E. lia. }
  split; [exists (drop j (buffer i ++ [k])); by rewrite take_drop|].
  exists r. done.
Qed.

Lemma applyInput_pendingSound i op :
  pendingSound i -> pendingSound (applyInput i op).1.
Proof.
  intros Hi. destruct op as [k| | | |r|]; cbn [applyInput].
  - by apply Dispatch_pendingSound.
  - unfold timerFire. destruct (timer i); [|exact Hi].
    destruct (pending i) eqn:Hp; [done|exact Hi].
  - unfold Flush. destruct (pending i) eqn:Hp; [done|exact Hi].
  - done.
  - done.
  - unfold Pop. by destruct (_ <? _)%nat.
Qed.

Lemma runInput_snoc i ops op :
  runInput i (ops ++ [op]) = (applyInput (runInput i ops) op).1.
Proof. unfold runInput. by rewrite fold_left_app. Qed.

Lemma runInput_pendingSound i ops :
  pendingSound i -> pendingSound (runInput i ops).
Proof.
  intros Hi. induction ops as [|op ops IH] using rev_ind; [exact Hi|].
  rewrite runInput_snoc. by apply applyInput_pendingSound.
Qed.

Lemma NewInput_pendingSound root : pendingSound (NewInput root).
Proof. done. Qed.

Lemma applyInput_stack i op :
  stack i <> [] -> stack (applyInput i op).1 <> [].
Proof.
  intros Hi. destruct op as [k| | | |r|]; cbn [applyInput].
  - unfold Dispatch. destruct (last (stack i)); [|exact Hi].
    destruct (isCountDigit i k && _); [exact Hi|].
    destruct (Router_match _ _) as [[ho c] partial].
    destruct (_ && _ && _); [exact Hi|].
    destruct ho; destruct partial; exact Hi.
  - unfold timerFire. destruct (timer i); [|exact Hi].
    destruct (pending i); exact Hi.
  - unfold Flush. destruct (pending i); exact Hi.
  - exact Hi.
  - cbn. by destruct (stack i).
  - unfold Pop. destruct (Nat.ltb_spec 1 (length (stack i))); [|exact Hi].
    cbn [fst stack clearBuffer]. intros E. apply (f_equal length) in E.
    rewrite length_take in E. cbn in E. lia.
Qed.

End ReachableInputs.

(** X13.  In every state an Input reaches from [NewInput] by any sequence
    of Dispatch, timer expiry, Flush, Clear, Push and Pop, a pending handler
    is the one the active router holds at the pending keys; these keys are a
    non-empty prefix of the buffer; and the armed timer carries the active
    router's timeout and the count the accumulator still gives.  With no
    handler pending there are no pending keys. *)
Theorem pending_match_invariant (top : option Router) (ops : list InputOp) :
  let i := runInput (NewInput top) ops in
  match pending i with
  | Some h =>
      exists r rest,
        Current i = Some r
        /\ handlerAt (root r) (pendingKeys i) = Some h
        /\ pendingKeys i <> []
        /\ buffer i = pendingKeys i ++ rest
        /\ timer i = Some (mkTimer (timeout r) (parseCount i))
  | None => pendingKeys i = []
  end.
Proof.
  intros i.
  pose proof (runInput_pendingSound _ ops (NewInput_pendingSound top)) as Hi.
  fold i in Hi. unfold pendingSound in Hi.
  destruct (pending i) as [h|]; [|exact Hi].
  destruct Hi as (Hne & [rest Hp] & r & Hr & Hh & Ht).
  by exists r, rest.
Qed.

(** X14.  In every reachable state, [Flush] calls exactly the handler, with
    exactly the keys and the count, that the expiry of the timer would call;
    the two differ in what they leave: [Flush] empties the buffer, the
    timer leaves the keys buffered after the matched ones.  Both empty the
    count accumulator and leave nothing pending. *)
Theorem Flush_calls_what_the_timer_would
        (top : option Router) (ops : list InputOp) :
  let i := runInput (NewInput top) ops in
  (Flush i).2 = (timerFire i).2
  /\ (pending i <> None ->
      buffer (Flush i).1 = []
      /\ buffer i = pendingKeys i ++ buffer (timerFire i).1
      /\ countBuffer (Flush i).1 = EmptyString
      /\ countBuffer (timerFire i).1 = EmptyString
      /\ pending (Flush i).1 = None
      /\ pending (timerFire i).1 = None).
Proof.
  intros i.
  pose proof (runInput_pendingSound _ ops (NewInput_pendingSound top)) as Hi.
  fold i in Hi. unfold pendingSound in Hi. unfold Flush, timerFire.
  destruct (pending i) as [h|].
  - destruct Hi as (Hne & [rest Hp] & r & Hr & Hh & ->).
    cbn [fst snd pendingCount buffer countBuffer pending].
    split; [done|]. intros _. split; [done|].
    split; [|done]. rewrite Hp at 2. by rewrite drop_app_length.
  - split; [by destruct (timer i)|]. done.
Qed.

Lemma Flush_calls_what_the_timer_would_witness :
  let r := Handle (H := noFolding)
             (Handle (H := noFolding) NewRouter "g" (Some 1%nat))
             "gxy" (Some 2%nat) in
  let i := runInput (NewInput (Some r))
                    [IDispatch (KeyRune 103); IDispatch (KeyRune 120)] in
  (Flush i).2 = Some (1%nat, mkMatch [KeyRune 103] 1)
  /\ buffer (Flush i).1 = []
  /\ buffer (timerFire i).1 = [KeyRune 120].
Proof.
  intros r i.
  destruct (Flush_calls_what_the_timer_would
              (Some r) [IDispatch (KeyRune 103); IDispatch (KeyRune 120)])
    as (_ & Hp).
  destruct Hp as (Hb & _); [vm_compute; discriminate|].
  split; [reflexivity|]. split; [exact Hb | reflexivity].
Defined.

(** X15.  The router stack: [Push] makes the pushed router the active one
    and [Pop] undoes it, each emptying the buffers; [Pop] on a stack of
    fewer than two routers changes nothing; and an Input created with a
    root router never loses its last router, whatever operations follow. *)
Theorem Push_Pop_stack (i : Input) (r : Router) :
  stack i <> [] ->
  Current (Push i r) = Some r
  /\ Depth (Push i r) = S (Depth i)
  /\ Pop (Push i r) = Clear i
  /\ (Depth i = 1%nat -> Pop i = i)
  /\ (forall ops, Depth (runInput i ops) <> 0%nat).
Proof.
  intros Hi. split; [|split; [|split; [|split]]].
  - unfold Current, Push. cbn [stack]. by rewrite last_snoc.
  - unfold Depth, Push. cbn [stack clearBuffer]. rewrite length_app. cbn. lia.
  - unfold Pop, Push, Clear, clearBuffer. cbn [stack buffer countBuffer timer pending pendingKeys].
    rewrite length_app. cbn [length].
    destruct (Nat.ltb_spec 1 (length (stack i) + 1)) as [_|Hl].
    + f_equal. replace (length (stack i) + 1 - 1)%nat with (length (stack i)) by lia.
      by rewrite take_app_length.
    + destruct (stack i); [done|]. cbn in Hl. lia.
  - unfold Depth, Pop. intros ->. done.
  - intros ops. unfold Depth.
    assert (stack (runInput i ops) <> []) as Hs.
    { induction ops as [|op ops IH] using rev_ind; [exact Hi|].
      rewrite runInput_snoc. by apply applyInput_stack. }
    by destruct (stack (runInput i ops)).
Qed.

Lemma Push_Pop_stack_witness :
  let r := Handle (H := noFolding) NewRouter "j" (Some 7%nat) in
  Pop (Push (NewInput (Some r)) NewRouter) = Clear (NewInput (Some r)).
Proof.
  intros r.
  destruct (Push_Pop_stack (NewInput (Some r)) NewRouter) as (_ & _ & Hp & _);
    [discriminate | exact Hp].
Defined.

(** ** Round trip of a rendered key sequence *)

Section SequenceRoundTrip.

Context `{CaseTables}.

Lemma scanClose_shift suffix : forall e,
  scanClose suffix e = (e + scanClose suffix 0)%nat.
Proof.
  induction suffix as [|r suffix IH]; intros e; cbn; [lia|].
  destruct (r =? 62); [lia|]. rewrite (IH (S e)), (IH 1%nat). lia.
Qed.

Lemma scanClose_app_found suffix rest :
  (scanClose suffix 0 < length suffix)%nat ->
  scanClose (suffix ++ rest) 0 = scanClose suffix 0.
Proof.
  induction suffix as [|r suffix IH]; cbn; [lia|].
  destruct (r =? 62); [done|]. intros Hlt.
  rewrite (scanClose_shift (suffix ++ rest) 1), (scanClose_shift suffix 1) in *.
  rewrite IH; [done | lia].
Qed.

(** The loop sees only the runes from its index on. *)
Lemma parseLoop_shift pre runes : forall fuel i keys,
  parseLoop fuel (pre ++ runes) (length pre + i) keys
  = parseLoop fuel runes i keys.
Proof.
  induction fuel as [|fuel IH]; intros i keys; cbn [parseLoop]; [done|].
  rewrite lookup_app_r by lia.
  replace (length pre + i - length pre)%nat with i by lia.
  destruct (runes !! i) as [r|]; [|done].
  rewrite drop_app_ge by lia.
  replace (length pre + i + 1 - length pre)%nat with (i + 1)%nat by lia.
  rewrite (scanClose_shift _ (length pre + i + 1)), (scanClose_shift _ (i + 1)).
  set (n := scanClose (drop (i + 1) runes) 0).
  rewrite length_app.
  replace (length pre + i + 1 + n <? length pre + length runes)%nat
    with (i + 1 + n <? length runes)%nat
    by (destruct (Nat.ltb_spec (i + 1 + n) (length runes));
        destruct (Nat.ltb_spec (length pre + i + 1 + n) (length pre + length runes));
        done || lia).
  replace (length pre + i + 1 + n - (length pre + i + 1))%nat
    with (i + 1 + n - (i + 1))%nat by lia.
  replace (length pre + i + 1 + n + 1)%nat
    with (length pre + (i + 1 + n + 1))%nat by lia.
  replace (length pre + i + 1)%nat with (length pre + (i + 1))%nat by lia.
  by rewrite !IH.
Qed.

Lemma parseLoop_bare r rest fuel :
  r <> 60 -> (S (length rest) <= fuel)%nat ->
  parseLoop fuel (r :: rest) 0 [] = KeyRune r :: parseLoop (length rest) rest 0 [].
Proof.
  intros Hr Hf. destruct fuel as [|fuel]; [lia|]. cbn [parseLoop].
  change ((r :: rest) !! 0%nat) with (Some r). cbv iota beta.
  rewrite (proj2 (Z.eqb_neq r 60) Hr). cbn [andb app].
  rewrite parseLoop_acc.
  change (parseLoop fuel (r :: rest) (0 + 1) [])
    with (parseLoop fuel ([r] ++ rest) (length [r] + 0) []).
  rewrite parseLoop_shift. cbn [app]. f_equal. apply parseLoop_fuel; lia.
Qed.

Lemma parseLoop_bracket k bs rest fuel :
  bracketOf k bs = true -> (length (bs ++ rest) <= fuel)%nat ->
  parseLoop fuel (bs ++ rest) 0 [] = k :: parseLoop (length rest) rest 0 [].
Proof.
  destruct bs as [|b rs]; [done|]. cbn [bracketOf].
  intros Hb Hf. repeat (apply andb_true_iff in Hb as [Hb ?]).
  apply Z.eqb_eq in Hb as ->.
  assert (S (scanClose rs 0) = length rs) as Hn by (by apply Nat.eqb_eq).
  assert (parseVimKey (stringOfRunes (take (scanClose rs 0) rs)) = k) as Hk
    by (by apply (bool_decide_eq_true _)).
  set (n := scanClose rs 0) in *.
  rewrite length_app in Hf. cbn [length] in Hf.
  destruct fuel as [|fuel]; [lia|]. cbn [parseLoop].
  change (((60 :: rs) ++ rest) !! 0%nat) with (Some 60).
  change (drop (0 + 1) ((60 :: rs) ++ rest)) with (rs ++ rest).
  rewrite (scanClose_shift _ (0 + 1)), scanClose_app_found by (fold n; lia).
  fold n. cbn [Z.eqb Pos.eqb andb].
  assert ((0 + 1 + n <? length ((60%Z :: rs) ++ rest))%nat = true) as ->.
  { apply Nat.ltb_lt. rewrite length_app. cbn [length]. lia. }
  replace (0 + 1 + n - (0 + 1))%nat with n by lia.
  rewrite take_app_le by lia. rewrite Hk. cbn [app].
  rewrite parseLoop_acc.
  replace (0 + 1 + n + 1)%nat with (length (60%Z :: rs) + 0)%nat by (cbn; lia).
  change (60 :: rs ++ rest) with ((60 :: rs) ++ rest).
  rewrite parseLoop_shift. cbn [app]. f_equal. apply parseLoop_fuel; lia.
Qed.

Lemma decodeRunes_ascii_app bs rest :
  forallb (fun c => (0 <=? c) && (c <? 128)) bs = true ->
  decodeRunes (bs ++ rest) = bs ++ decodeRunes rest.
Proof.
  induction bs as [|b bs IH]; [done|]. cbn [forallb app decodeRunes].
  intros Hb. apply andb_true_iff in Hb as [Hb Hbs].
  apply andb_true_iff in Hb as [_ ->]. by rewrite IH.
Qed.

Lemma decode_encode_app r rest :
  validRune r = true -> decodeRunes (encodeRune r ++ rest) = r :: decodeRunes rest.
Proof.
  unfold validRune, MaxRune. intros Hv.
  apply andb_true_iff in Hv as [Hv Hs]. apply andb_true_iff in Hv as [H0 H1].
  apply Z.leb_le in H0, H1. apply negb_true_iff, andb_false_iff in Hs.
  assert (~ (55296 <= r <= 57343)) as Hs'.
  { intros [??]. destruct Hs as [Hs|Hs]; apply Z.leb_gt in Hs; lia. }
  clear Hs.
  destruct (Z.le_gt_cases r 127) as [Ha|Ha].
  { unfold encodeRune. rewrite (proj2 (Z.leb_le 0 r)), (proj2 (Z.leb_le r 127)) by lia.
    cbn [andb app decodeRunes]. by rewrite (proj2 (Z.ltb_lt r 128)) by lia. }
  destruct (Z.le_gt_cases r 2047) as [Hb|Hb].
  { rewrite encode2 by lia. cbn [app].
    rewrite decode2; [| split; [apply Z.div_le_lower_bound | apply Z.div_lt_upper_bound]; lia
                      | apply Z.mod_pos_bound; lia].
    f_equal. Z.div_mod_to_equations; lia. }
  destruct (Z.le_gt_cases r 65535) as [Hc|Hc].
  { rewrite encode3 by lia. cbn [app].
    rewrite decode3; try (apply Z.mod_pos_bound; lia).
    - f_equal. Z.div_mod_to_equations; lia.
    - split; [apply Z.div_pos | apply Z.div_lt_upper_bound]; lia.
    - intros E. Z.div_mod_to_equations; lia.
    - intros E. Z.div_mod_to_equations; lia. }
  rewrite encode4 by lia. cbn [app].
  rewrite decode4; try (apply Z.mod_pos_bound; lia).
  - f_equal. Z.div_mod_to_equations; lia.
  - split; [apply Z.div_pos | apply Z.div_lt_upper_bound]; lia.
  - intros E. Z.div_mod_to_equations; lia.
  - intros E. Z.div_mod_to_equations; lia.
Qed.

(** Every special key under every modifier set is rendered as a bracket: a
    finite check. *)
Lemma special_keys_bracketed :
  forallb (fun m =>
             forallb (fun s => bracketOf (mkKey 0 m s)
                                         (bytesOf (Key_String (mkKey 0 m s))))
                     (zrange 1 27))
          modifierSets = true.
Proof. vm_compute. reflexivity. Qed.

(** So is every ASCII rune but ['-'] and ['>'] under every non-empty
    modifier set. *)
Lemma modified_ascii_bracketed :
  forallb (fun m =>
             forallb (fun r => (r =? 45) || (r =? 62)
                               || bracketOf (mkKey r m 0)
                                            (bytesOf (Key_String (mkKey r m 0))))
                     (zrange 0 128))
          (tail modifierSets) = true.
Proof. vm_compute. reflexivity. Qed.

Lemma Key_String_bracket k :
  rendersFaithfully k = true ->
  (KSpecial k = SpecialNone -> Mod k <> ModNone) ->
  bracketOf k (bytesOf (Key_String k)) = true.
Proof.
  destruct k as [r m s]. unfold rendersFaithfully. cbn [Mod KSpecial Rune].
  intros Hk Hb. apply andb_true_iff in Hk as [Hm Hk].
  apply bool_decide_eq_true in Hm.
  destruct (Z.eqb_spec s SpecialNone) as [->|Hs]; cbn [negb] in Hk.
  - specialize (Hb eq_refl).
    rewrite (proj2 (Z.eqb_neq m ModNone) Hb) in Hk.
    repeat (apply andb_true_iff in Hk as [Hk ?]).
    pose proof modified_ascii_bracketed as Hall.
    rewrite forallb_forall in Hall.
    assert (In m (tail modifierSets)) as Hin.
    { apply list_elem_of_In in Hm. cbn in Hm |- *.
      destruct Hm as [E|Hm]; [by subst m | exact Hm]. }
    specialize (Hall m Hin). rewrite forallb_forall in Hall.
    specialize (Hall r).
    rewrite (proj2 (Z.eqb_neq r 45)), (proj2 (Z.eqb_neq r 62)) in Hall
      by (by apply Z.eqb_neq, negb_true_iff).
    cbn [orb] in Hall. apply Hall.
    apply zrange_elem. apply Z.leb_le in Hk.
    assert (r <= 127) by (by apply Z.leb_le). lia.
  - repeat (apply andb_true_iff in Hk as [Hk ?]).
    assert (r = 0) as -> by (by apply Z.eqb_eq).
    pose proof special_keys_bracketed as Hall.
    rewrite forallb_forall in Hall.
    specialize (Hall m (proj1 (list_elem_of_In _ _) Hm)).
    rewrite forallb_forall in Hall.
    apply Hall.
    apply zrange_elem. apply Z.leb_le in Hk.
    assert (s <= SpecialF12) by (by apply Z.leb_le).
    unfold SpecialEscape, SpecialF12 in *. lia.
Qed.

Lemma bracketOf_ascii k bs :
  bracketOf k bs = true -> forallb (fun c => (0 <=? c) && (c <? 128)) bs = true.
Proof.
  destruct bs as [|b rs]; [done|]. cbn [bracketOf forallb]. intros Hb.
  repeat (apply andb_true_iff in Hb as [Hb ?]).
  apply Z.eqb_eq in Hb as ->. by apply andb_true_iff.
Qed.

Lemma bare_key_faithful r :
  rendersFaithfully (mkKey r ModNone SpecialNone) = true ->
  validRune r = true
  /\ Key_String (mkKey r ModNone SpecialNone) = stringOfRune r.
Proof.
  unfold rendersFaithfully, Key_String. cbn [Mod KSpecial Rune].
  change (SpecialNone =? SpecialNone) with true.
  change (ModNone =? ModNone) with true. cbn [negb andb].
  intros Hk. apply andb_true_iff in Hk as [_ Hk].
  apply andb_true_iff in Hk as [Hv Hnz]. by rewrite Hnz.
Qed.

(** One rendered key at the head of a pattern is read back as that key, and
    the loop goes on with the rest of the pattern. *)
Lemma Key_String_head k s fuel :
  rendersFaithfully k = true -> k <> KeyRune 60 ->
  (length (runesOf (Key_String k ++ s)) <= fuel)%nat ->
  parseLoop fuel (runesOf (Key_String k ++ s)) 0 []
  = k :: parseLoop (length (runesOf s)) (runesOf s) 0 [].
Proof.
  intros Hk Hlt. unfold runesOf. rewrite bytesOf_app.
  destruct (decide (KSpecial k = SpecialNone /\ Mod k = ModNone)) as [[Hs Hm]|Hb].
  - destruct k as [r m s']. cbn [KSpecial Mod] in Hs, Hm. subst m s'.
    apply bare_key_faithful in Hk as [Hv ->].
    unfold stringOfRune. rewrite bytesOf_stringOf by by apply encodeRune_bytes.
    rewrite decode_encode_app by done. intros Hf. cbn [length] in Hf.
    apply parseLoop_bare; [|lia]. intros ->. by apply Hlt.
  - assert (bracketOf k (bytesOf (Key_String k)) = true) as Hbr.
    { apply Key_String_bracket; [done|]. intros Hs Hm. by apply Hb. }
    rewrite decodeRunes_ascii_app by (by eapply bracketOf_ascii).
    intros Hf. by apply parseLoop_bracket.
Qed.

Lemma runesOf_Key_String_nonempty k s :
  rendersFaithfully k = true -> runesOf (Key_String k ++ s) <> [].
Proof.
  intros Hk. unfold runesOf. rewrite bytesOf_app.
  destruct (decide (KSpecial k = SpecialNone /\ Mod k = ModNone)) as [[Hs Hm]|Hb].
  - destruct k as [r m s']. cbn [KSpecial Mod] in Hs, Hm. subst m s'.
    apply bare_key_faithful in Hk as [Hv ->].
    unfold stringOfRune. rewrite bytesOf_stringOf by by apply encodeRune_bytes.
    by rewrite decode_encode_app.
  - assert (bracketOf k (bytesOf (Key_String k)) = true) as Hbr.
    { apply Key_String_bracket; [done|]. intros Hs Hm. by apply Hb. }
    rewrite decodeRunes_ascii_app by (by eapply bracketOf_ascii).
    by destruct (bytesOf (Key_String k)).
Qed.

End SequenceRoundTrip.

(** X16.  A key sequence rendered key by key with [String()] and compiled
    with [ParsePattern] is read back unchanged, when each key is one that
    [String()] renders faithfully and none is the bare ['<']. *)
Theorem ParsePattern_renderKeys `{CaseTables} (ks : list Key) :
  (forall k, k ∈ ks -> rendersFaithfully k = true /\ k <> KeyRune 60) ->
  ParsePattern (renderKeys ks) = ks.
Proof.
  intros Hks.
  assert (forall fuel, (length (runesOf (renderKeys ks)) <= fuel)%nat ->
                       parseLoop fuel (runesOf (renderKeys ks)) 0 [] = ks) as Hloop.
  { induction ks as [|k ks IH]; intros fuel Hf.
    - by destruct fuel.
    - cbn [renderKeys fold_right] in *.
      destruct (Hks k (list_elem_of_here _ _)) as [Hk Hlt].
      rewrite Key_String_head by done. f_equal. apply IH; [|done].
      intros k' Hin. apply Hks. by apply list_elem_of_further. }
  unfold ParsePattern. destruct ks as [|k ks]; [done|].
  assert (String.eqb (renderKeys (k :: ks)) "" = false) as ->.
  { apply String.eqb_neq. intros E.
    destruct (Hks k (list_elem_of_here _ _)) as [Hk _].
    apply (runesOf_Key_String_nonempty k (renderKeys ks) Hk).
    change (renderKeys (k :: ks)) with (Key_String k ++ renderKeys ks)%string in E.
    by rewrite E. }
  by apply Hloop.
Qed.

Lemma ParsePattern_renderKeys_witness :
  let ks := [mkKey 119 ModCtrl SpecialNone; KeyRune 106;
             KeySpecial SpecialUp; KeyRune 62] in
  renderKeys ks = "<C-w>j<Up>>"%string
  /\ ParsePattern (H := noFolding) (renderKeys ks) = ks.
Proof.
  intros ks. split; [reflexivity|].
  apply (ParsePattern_renderKeys (H := noFolding) ks).
  intros k Hk. apply list_elem_of_In in Hk. cbn in Hk.
  destruct Hk as [<-|[<-|[<-|[<-|[]]]]]; split; (reflexivity || discriminate).
Defined.

(** The bare ['<'] is excluded for a reason: followed by a ['>'] it opens a
    bracket. *)
Example renderKeys_bare_angle_not_read_back :
  renderKeys [KeyRune 60; KeyRune 62] = "<>"%string
  /\ ParsePattern (H := noFolding) (renderKeys [KeyRune 60; KeyRune 62]) = [KeyZero].
Proof. split; reflexivity. Qed.

(** ** The Reader's buffer *)

Section ReaderBuffer.

Implicit Types (rd : Reader) (res : readResult) (b : list Z).

Lemma copyAt_length b off data :
  (off <= length b)%nat -> length (copyAt b off data) = length b.
Proof.
  intros Ho. unfold copyAt.
  rewrite !length_app, !length_take, length_drop. lia.
Qed.

Lemma slice_length b lo hi :
  (hi <= length b)%nat -> length (sliceBytes b lo hi) = (hi - lo)%nat.
Proof. intros Hh. unfold sliceBytes. rewrite length_take, length_drop. lia. Qed.

Lemma slice_split b lo mid hi :
  (lo <= mid <= hi)%nat ->
  sliceBytes b lo hi = sliceBytes b lo mid ++ sliceBytes b mid hi.
Proof.
  intros Hm. unfold sliceBytes.
  replace (hi - lo)%nat with ((mid - lo) + (hi - mid))%nat by lia.
  rewrite <- take_take_drop, drop_drop.
  by replace (lo + (mid - lo))%nat with mid by lia.
Qed.

Lemma slice_one b lo :
  (lo < length b)%nat -> sliceBytes b lo (lo + 1) = [nth lo b 0].
Proof.
  intros Hl. unfold sliceBytes.
  destruct (lookup_lt_is_Some_2 b lo Hl) as [x Hx].
  rewrite (drop_S _ _ _ Hx), nth_lookup, Hx.
  replace (lo + 1 - lo)%nat with 1%nat by lia. cbn. by rewrite take_0.
Qed.

Lemma slice_empty b lo hi : (hi <= lo)%nat -> sliceBytes b lo hi = [].
Proof.
  intros Hh. unfold sliceBytes.
  replace (hi - lo)%nat with 0%nat by lia. apply take_0.
Qed.

(** Bytes copied behind [end] are appended to the buffered ones. *)
Lemma slice_copyAt_tail b p e data :
  (p <= e)%nat -> (e + length data <= length b)%nat ->
  sliceBytes (copyAt b e data) p (e + length data) = sliceBytes b p e ++ data.
Proof.
  intros Hp He. unfold copyAt, sliceBytes.
  rewrite (take_ge data) by lia.
  rewrite drop_app_le by (rewrite length_take; lia).
  rewrite app_assoc.
  rewrite take_app_length'.
  - f_equal. rewrite skipn_firstn_comm. done.
  - rewrite length_app, length_drop, length_take. lia.
Qed.

(** The shift to the start of the buffer keeps the buffered bytes. *)
Lemma slice_copyAt_shift b p e :
  (p <= e <= length b)%nat ->
  sliceBytes (copyAt b 0 (sliceBytes b p e)) 0 (e - p) = sliceBytes b p e.
Proof.
  intros Hb. pose proof (slice_length b p e (proj2 Hb)) as Hlen.
  set (s := sliceBytes b p e) in *. unfold copyAt, sliceBytes.
  rewrite take_0, drop_0, (take_ge s) by lia. cbn [app].
  apply take_app_length'. lia.
Qed.

Lemma moved_refl rd : readerOk rd -> moved rd rd.
Proof.
  intros Hok. split; [done|]. exists []. by rewrite app_nil_r.
Qed.

Lemma moved_trans rd1 rd2 rd3 : moved rd1 rd2 -> moved rd2 rd3 -> moved rd1 rd3.
Proof.
  intros (_ & x1 & Hb1 & Hu1) (Hok & x2 & Hb2 & Hu2). split; [done|].
  exists (x1 ++ x2). rewrite Hb2, Hb1, Hu1, Hu2. by rewrite !app_assoc.
Qed.

Lemma moved_stream rd rd' : moved rd rd' -> stream rd' = stream rd.
Proof.
  intros (_ & x & Hb & Hu). unfold stream. rewrite Hb, Hu. by rewrite app_assoc.
Qed.

(** Buffered bytes stay buffered, at the head. *)
Lemma moved_available rd rd' :
  readerOk rd -> moved rd rd' ->
  (end_ rd - pos rd <= end_ rd' - pos rd')%nat.
Proof.
  intros (_ & He & _) ((_ & He' & _) & x & Hb & _).
  apply (f_equal length) in Hb. unfold buffered in Hb.
  rewrite length_app, !slice_length in Hb by done. lia.
Qed.

(** The scheduler's answers play no part. *)
Lemma moved_sched rd sc :
  readerOk rd ->
  moved rd (mkReader (src rd) sc (buf rd) (pos rd) (end_ rd) (readPending rd)
                     (parseEscapeSequences rd)).
Proof.
  intros Hok. split; [done|]. exists []. by rewrite app_nil_r.
Qed.

Lemma shiftBuffer_moved rd : readerOk rd -> moved rd (shiftBuffer rd).
Proof.
  intros Hok. pose proof Hok as (Hp & He & Hl & Hs & Hr). unfold shiftBuffer.
  destruct ((0 <? pos rd)%nat && (0 <? end_ rd - pos rd)%nat).
  - split.
    + unfold readerOk. cbn [pos end_ buf src readPending].
      rewrite copyAt_length by lia.
      split; [lia|]. split; [lia|]. split; [done|]. split; [done|].
      destruct (readPending rd) as [res|]; [|done].
      destruct Hr as [Hr1 Hr2]. split; [done | lia].
    + exists []. rewrite app_nil_r. unfold buffered, unread.
      cbn [pos end_ buf src readPending].
      by rewrite slice_copyAt_shift.
  - destruct (Nat.eqb_spec (end_ rd - pos rd) 0) as [Hz|_];
      [|by apply moved_refl].
    split.
    + unfold readerOk. cbn [pos end_ buf src readPending].
      split; [lia|]. split; [lia|]. split; [done|]. split; [done|].
      destruct (readPending rd) as [res|]; [|done].
      destruct Hr as [Hr1 Hr2]. split; [done | lia].
    + exists []. rewrite app_nil_r. unfold buffered, unread.
      cbn [pos end_ buf src readPending].
      by rewrite !slice_empty by lia.
Qed.

Lemma shiftBuffer_empty rd :
  (end_ rd - pos rd = 0)%nat ->
  pos (shiftBuffer rd) = 0%nat /\ end_ (shiftBuffer rd) = 0%nat.
Proof.
  intros Ha. unfold shiftBuffer. rewrite Ha.
  rewrite andb_false_r. by cbn.
Qed.

Lemma receive_moved rd res :
  readerOk rd -> readPending rd = Some res ->
  moved rd (receive rd res) /\ readPending (receive rd res) = None.
Proof.
  intros (Hp & He & Hl & Hs & Hr) Hres. rewrite Hres in Hr.
  destruct Hr as [Hr1 Hr2]. unfold receive.
  destruct (Nat.ltb_spec 0 (length res.1)) as [Hdata|Hnodata].
  - split; [|done]. split.
    + unfold readerOk. cbn [pos end_ buf src readPending].
      rewrite copyAt_length by lia.
      split; [lia|]. split; [lia|]. by split.
    + exists res.1. unfold buffered, unread.
      cbn [pos end_ buf src readPending]. rewrite Hres.
      by rewrite slice_copyAt_tail by lia.
  - split; [|done]. split.
    + unfold readerOk. cbn [pos end_ buf src readPending].
      split; [lia|]. split; [lia|]. by split.
    + exists res.1. unfold buffered, unread.
      cbn [pos end_ buf src readPending]. rewrite Hres.
      destruct res.1; [by rewrite app_nil_r | cbn in Hnodata; lia].
Qed.

Lemma srcRead_ok source space res source' :
  Forall (fun ev => eventOk (ev_data ev, ev_err ev)) source ->
  (0 < space)%nat ->
  srcRead source space = (res, source') ->
  eventOk res /\ (length res.1 <= space)%nat
  /\ Forall (fun ev => eventOk (ev_data ev, ev_err ev)) source'
  /\ concat (map ev_data source) = res.1 ++ concat (map ev_data source').
Proof.
  intros Hs Hsp. unfold srcRead. destruct source as [|ev rest].
  - intros [= <- <-]. cbn. split; [by right|]. split; [lia|done].
  - apply Forall_cons in Hs as [Hev Hrest].
    destruct (Nat.leb_spec (length (ev_data ev)) space) as [Hle|Hgt].
    + intros [= <- <-]. cbn [fst snd map concat]. by repeat split.
    + intros [= <- <-]. cbn [fst snd map concat ev_data ev_err].
      rewrite length_take. split.
      { left. cbn. intros E. apply (f_equal length) in E.
        rewrite length_take in E. cbn in E. lia. }
      split; [lia|]. split.
      * apply Forall_cons. split; [|done]. left. cbn. intros E.
        apply (f_equal length) in E. rewrite length_drop in E. cbn in E. lia.
      * by rewrite app_assoc, take_drop.
Qed.

Lemma spaceFor_le rd : (spaceFor rd <= length (buf rd) - end_ rd)%nat.
Proof. unfold spaceFor. lia. Qed.

Lemma startRead_moved rd :
  readerOk rd -> readPending rd = None -> moved rd (startRead rd).
Proof.
  intros Hok Hnone. pose proof Hok as (Hp & He & Hl & Hs & _).
  unfold startRead. pose proof (spaceFor_le rd) as Hsp.
  destruct (Nat.ltb_spec 0 (spaceFor rd)) as [Hpos|_]; [|by apply moved_refl].
  destruct (srcRead (src rd) (spaceFor rd)) as [res source'] eqn:Hread.
  apply srcRead_ok in Hread as (Hres & Hlen & Hs' & Hcat); [|done..].
  destruct (nextTick (sched rd)) as [inTime sc'].
  set (rd1 := mkReader source' sc' (buf rd) (pos rd) (end_ rd) (Some res)
                       (parseEscapeSequences rd)).
  assert (moved rd rd1) as Hm1.
  { split.
    - unfold readerOk. subst rd1. cbn [pos end_ buf src readPending].
      split; [lia|]. split; [lia|]. split; [done|]. split; [done|].
      split; [done|lia].
    - exists []. rewrite app_nil_r. unfold buffered, unread. subst rd1.
      cbn [pos end_ buf src readPending]. by rewrite Hnone. }
  destruct inTime; [|done].
  eapply moved_trans; [exact Hm1|].
  by apply receive_moved; [apply Hm1|].
Qed.

Lemma readMore_moved rd rd' err :
  readerOk rd -> readPending rd = None ->
  readMore rd = (rd', err) ->
  moved rd rd'
  /\ (err = false -> (0 < spaceFor rd)%nat -> (pos rd' < end_ rd')%nat)
  /\ (err = true -> pos rd' = end_ rd').
Proof.
  intros Hok Hnone. pose proof Hok as (Hp & He & Hl & Hs & _).
  unfold readMore. pose proof (spaceFor_le rd) as Hsp.
  destruct (Nat.ltb_spec 0 (spaceFor rd)) as [Hpos|Hz].
  2:{ intros [= <- <-]. split; [by apply moved_refl|]. split; [lia|done]. }
  destruct (srcRead (src rd) (spaceFor rd)) as [res source'] eqn:Hread.
  apply srcRead_ok in Hread as (Hres & Hlen & Hs' & Hcat); [|done..].
  destruct (Nat.ltb_spec 0 (length res.1)) as [Hdata|Hnodata].
  - cbn [pos end_].
    destruct (Nat.eqb_spec (end_ rd + length res.1) (pos rd)); [lia|].
    rewrite andb_false_r. intros [= <- <-]. cbn [pos end_]. split.
    + split.
      * unfold readerOk. cbn [pos end_ buf src readPending].
        rewrite copyAt_length by lia. rewrite Hnone.
        split; [lia|]. split; [lia|]. by split.
      * exists res.1. unfold buffered, unread.
        cbn [pos end_ buf src readPending]. rewrite Hnone. cbn [app].
        by rewrite slice_copyAt_tail by lia.
    + split; [lia|done].
  - cbn [pos end_].
    assert (res.1 = []) as Hnil by (destruct res.1; [done|cbn in *; lia]).
    assert (res.2 = true) as -> by (by destruct Hres).
    cbn [andb].
    assert (moved rd (mkReader source' (sched rd) (buf rd) (pos rd) (end_ rd)
                               (readPending rd) (parseEscapeSequences rd)))
      as Hm.
    { split.
      - unfold readerOk. cbn [pos end_ buf src readPending]. by rewrite Hnone.
      - exists []. rewrite app_nil_r. unfold buffered, unread.
        cbn [pos end_ buf src readPending]. by rewrite Hcat, Hnil. }
    destruct (Nat.eqb_spec (end_ rd) (pos rd)) as [Heq|Hne].
    + intros [= <- <-]. cbn [pos end_]. split; [done|]. split; [done|lia].
    + intros [= <- <-]. cbn [pos end_]. split; [done|]. split; [lia|done].
Qed.

(** [ensureBytes(1)], the only call [ReadKey] makes: without an error a
    byte is buffered; an error leaves none and is never returned while a
    byte is buffered. *)
Lemma ensureBytes_moved rd rd' err :
  readerOk rd ->
  ensureBytes rd 1 = (rd', err) ->
  moved rd rd'
  /\ (err = false -> (pos rd' < end_ rd')%nat)
  /\ (err = true -> pos rd = end_ rd /\ pos rd' = end_ rd').
Proof.
  intros Hok. pose proof Hok as (Hp & He & Hl & Hs & _). unfold ensureBytes.
  destruct (Nat.leb_spec 1 (end_ rd - pos rd)) as [Hav|Hno].
  { intros [= <- <-]. split; [by apply moved_refl|]. split; [lia|done]. }
  assert (end_ rd - pos rd = 0)%nat as Hz by lia.
  pose proof (shiftBuffer_moved rd Hok) as Hm1.
  pose proof (shiftBuffer_empty rd Hz) as [Hp1 He1].
  set (rd1 := shiftBuffer rd) in *.
  pose proof Hm1 as (Hok1 & _).
  destruct (readPending rd1) as [res|] eqn:Hpend.
  - pose proof (receive_moved rd1 res Hok1 Hpend) as (Hm2 & Hn2).
    set (rd2 := receive rd1 res) in *.
    pose proof Hm2 as (Hok2 & _).
    destruct (res.2 && (end_ rd2 =? pos rd2)%nat) eqn:Herr.
    + intros [= <- <-]. split; [by eapply moved_trans|].
      split; [done|]. intros _. split; [lia|].
      apply andb_true_iff in Herr as [_ Herr]. by apply Nat.eqb_eq in Herr.
    + destruct (Nat.leb_spec 1 (end_ rd2 - pos rd2)) as [Hav2|Hno2].
      * intros [= <- <-]. split; [by eapply moved_trans|]. split; [lia|done].
      * intros Hrm. apply readMore_moved in Hrm as (Hm3 & Hlt & Heq); [|done..].
        split; [eapply moved_trans; [|exact Hm3]; by eapply moved_trans|].
        split; [|intros E; split; [lia | by apply Heq]].
        intros E. apply Hlt; [done|]. unfold spaceFor, lenTmp.
        pose proof (moved_available rd1 rd2 Hok1 Hm2).
        destruct Hok2 as (Hp2 & He2 & Hl2 & _). rewrite Hl2.
        assert (end_ rd2 <= 64)%nat by lia.
        destruct (decide (end_ rd2 = 64%nat)); [|lia].
        unfold rd2, receive in *.
        destruct (0 <? length res.1)%nat; cbn [pos end_] in *; lia.
  - intros Hrm. apply readMore_moved in Hrm as (Hm3 & Hlt & Heq); [|done..].
    split; [by eapply moved_trans|].
    split; [|intros E; split; [lia | by apply Heq]].
    intros E. apply Hlt; [done|]. unfold spaceFor, lenTmp.
    destruct Hok1 as (_ & _ & Hl1 & _). rewrite Hl1. lia.
Qed.

Lemma ensureBytesWithTimeout_moved rd n :
  readerOk rd -> moved rd (ensureBytesWithTimeout rd n).
Proof.
  intros Hok. unfold ensureBytesWithTimeout.
  destruct (n <=? end_ rd - pos rd)%nat; [by apply moved_refl|].
  pose proof (shiftBuffer_moved rd Hok) as Hm1.
  set (rd1 := shiftBuffer rd) in *. pose proof Hm1 as (Hok1 & _).
  destruct (readPending rd1) as [res|] eqn:Hpend.
  - rewrite <- Hpend. destruct (nextTick (sched rd1)) as [ready sc1].
    pose proof (moved_sched rd1 sc1 Hok1) as Hm2.
    set (rd2 := mkReader (src rd1) sc1 (buf rd1) (pos rd1) (end_ rd1)
                         (readPending rd1) (parseEscapeSequences rd1)) in *.
    pose proof Hm2 as (Hok2 & _).
    destruct ready.
    + pose proof (receive_moved rd2 res Hok2 Hpend) as (Hm3 & Hn3).
      pose proof Hm3 as (Hok3 & _).
      destruct (n <=? _)%nat.
      * eapply moved_trans; [exact Hm1|]. eapply moved_trans; [exact Hm2|exact Hm3].
      * eapply moved_trans; [exact Hm1|]. eapply moved_trans; [exact Hm2|].
        eapply moved_trans; [exact Hm3|]. by apply startRead_moved.
    + destruct (nextTick sc1) as [inTime sc2].
      pose proof (moved_sched rd1 sc2 Hok1) as Hm3.
      set (rd3 := mkReader (src rd1) sc2 (buf rd1) (pos rd1) (end_ rd1)
                           (readPending rd1) (parseEscapeSequences rd1)) in *.
      pose proof Hm3 as (Hok3 & _).
      destruct inTime.
      * pose proof (receive_moved rd3 res Hok3 Hpend) as (Hm4 & _).
        eapply moved_trans; [exact Hm1|]. eapply moved_trans; [exact Hm3|exact Hm4].
      * eapply moved_trans; [exact Hm1|exact Hm3].
  - eapply moved_trans; [exact Hm1|]. by apply startRead_moved.
Qed.

(** Advancing [pos] consumes the bytes passed over, and nothing else. *)
Lemma setPos_consumes rd p :
  readerOk rd -> (pos rd <= p <= end_ rd)%nat ->
  readerOk (setPos rd p)
  /\ stream rd = sliceBytes (buf rd) (pos rd) p ++ stream (setPos rd p).
Proof.
  intros (Hp & He & Hl & Hs & Hr) Hb. split.
  - unfold readerOk, setPos. cbn [pos end_ buf src readPending].
    split; [lia|]. by split.
  - unfold stream, buffered, unread, setPos. cbn [pos end_ buf src readPending].
    rewrite (slice_split (buf rd) (pos rd) p (end_ rd)) by lia.
    by rewrite <- app_assoc.
Qed.

(** The byte at [pos] is the first of the buffered bytes. *)
Lemma buffered_head rd :
  readerOk rd -> (pos rd < end_ rd)%nat ->
  exists rest, buffered rd = nth (pos rd) (buf rd) 0 :: rest.
Proof.
  intros (Hp & He & Hl & _) Hlt. unfold buffered.
  rewrite (slice_split (buf rd) (pos rd) (pos rd + 1) (end_ rd)) by lia.
  rewrite slice_one by lia. by eexists.
Qed.

Lemma scanCSI_bounds rd : forall fuel s,
  (s <= end_ rd)%nat -> (s <= scanCSI fuel rd s <= end_ rd)%nat.
Proof.
  induction fuel as [|fuel IH]; intros s Hs; cbn [scanCSI]; [lia|].
  destruct (Nat.ltb_spec s (end_ rd)); cbn [andb]; [|lia].
  destruct (s <? pos rd + 12)%nat; [|lia].
  destruct (_ || _); [lia|]. specialize (IH (S s)). lia.
Qed.

Lemma NewReader_ok source sc :
  Forall (fun ev => eventOk (ev_data ev, ev_err ev)) source ->
  readerOk (NewReader source sc).
Proof.
  intros Hs. unfold readerOk, NewReader. cbn.
  split; [lia|]. split; [lia|]. by split.
Qed.

(** The part of [ReadKey] after the byte 27, run on the reader [rd2] whose
    [pos] is behind that byte: the key is [parseBytes] of 27 followed by the
    bytes consumed. *)
Lemma ReadKey_escape rd2 :
  readerOk rd2 ->
  let rd3 := ensureBytesWithTimeout rd2 1 in
  let nextByte := nth (pos rd3) (buf rd3) 0 in
  let rd4 := if nextByte =? 79 then ensureBytesWithTimeout rd3 2 else rd3 in
  let rd5 := ensureBytesWithTimeout rd4 8 in
  let seqEnd := scanCSI 12 rd5 (pos rd5 + 1) in
  let out :=
    if (pos rd3 <? end_ rd3)%nat then
      if (nextByte =? 79) && (pos rd4 + 1 <? end_ rd4)%nat then
        (setPos rd4 (pos rd4 + 2),
         Some (parseBytes [27; 79; nth (pos rd4 + 1) (buf rd4) 0]))
      else if nextByte =? 91 then
        (setPos rd5 seqEnd,
         Some (parseBytes (27 :: sliceBytes (buf rd5) (pos rd5) seqEnd)))
      else if (32 <=? nextByte) && (nextByte <? 127) then
        (setPos rd4 (pos rd4 + 1), Some (mkKey nextByte ModAlt SpecialNone))
      else (rd4, Some (KeySpecial SpecialEscape))
    else (rd3, Some (KeySpecial SpecialEscape)) in
  readerOk out.1
  /\ exists more, stream rd2 = more ++ stream out.1
                  /\ out.2 = Some (parseBytes (27 :: more)).
Proof.
  intros Hok2 rd3 nextByte rd4 rd5 seqEnd out.
  pose proof (ensureBytesWithTimeout_moved rd2 1 Hok2) as Hm3. fold rd3 in Hm3.
  pose proof Hm3 as (Hok3 & _).
  pose proof (moved_stream _ _ Hm3) as Hs3.
  subst out.
  destruct (Nat.ltb_spec (pos rd3) (end_ rd3)) as [Hlt3|_].
  2:{ cbn [fst snd]. split; [done|]. exists []. by rewrite Hs3. }
  assert (moved rd3 rd4) as Hm4.
  { subst rd4. destruct (nextByte =? 79);
      [by apply ensureBytesWithTimeout_moved | by apply moved_refl]. }
  pose proof Hm4 as (Hok4 & _).
  pose proof (moved_stream _ _ Hm4) as Hs4.
  pose proof (moved_available _ _ Hok3 Hm4) as Ha4.
  assert (nth (pos rd4) (buf rd4) 0 = nextByte) as Hnb.
  { destruct (buffered_head rd3 Hok3 Hlt3) as [t3 Ht3].
    destruct (buffered_head rd4 Hok4) as [t4 Ht4]; [lia|].
    destruct Hm4 as (_ & x & Hb & _). rewrite Ht3, Ht4 in Hb.
    by injection Hb as -> _. }
  destruct ((nextByte =? 79) && (pos rd4 + 1 <? end_ rd4)%nat) eqn:Hss3.
  { apply andb_true_iff in Hss3 as [Hn Hss3]. apply Nat.ltb_lt in Hss3.
    apply Z.eqb_eq in Hn.
    destruct (setPos_consumes rd4 (pos rd4 + 2) Hok4) as [Hok5 Hs5]; [lia|].
    cbn [fst snd]. split; [done|].
    exists (sliceBytes (buf rd4) (pos rd4) (pos rd4 + 2)).
    split; [by rewrite <- Hs5, Hs4, Hs3|].
    destruct Hok4 as (_ & He4 & _).
    rewrite (slice_split (buf rd4) (pos rd4) (pos rd4 + 1) (pos rd4 + 2)) by lia.
    rewrite slice_one by lia.
    replace (pos rd4 + 2)%nat with (pos rd4 + 1 + 1)%nat by lia.
    rewrite slice_one by lia. rewrite Hnb, Hn. done. }
  clear Hss3.
  destruct (nextByte =? 91).
  { pose proof (ensureBytesWithTimeout_moved rd4 8 Hok4) as Hm5. fold rd5 in Hm5.
    pose proof Hm5 as (Hok5 & _).
    pose proof (moved_stream _ _ Hm5) as Hs5.
    pose proof (moved_available _ _ Hok4 Hm5) as Ha5.
    pose proof (scanCSI_bounds rd5 12 (pos rd5 + 1)) as Hsc. fold seqEnd in Hsc.
    destruct (setPos_consumes rd5 seqEnd Hok5) as [Hok6 Hs6]; [lia|].
    cbn [fst snd]. split; [done|].
    exists (sliceBytes (buf rd5) (pos rd5) seqEnd).
    split; [by rewrite <- Hs6, Hs5, Hs4, Hs3 | done]. }
  destruct ((32 <=? nextByte) && (nextByte <? 127)) eqn:Hpr.
  { destruct (setPos_consumes rd4 (pos rd4 + 1) Hok4) as [Hok5 Hs5]; [lia|].
    cbn [fst snd]. split; [done|].
    exists [nextByte]. split.
    - rewrite <- Hs3, <- Hs4, Hs5. destruct Hok4 as (_ & He4 & _).
      rewrite slice_one by lia. by rewrite Hnb.
    - unfold parseBytes, parseEscapeSequence. cbn [length nth Nat.eqb andb].
      change (27 =? 27) with true. cbv iota. by rewrite Hpr. }
  cbn [fst snd]. split; [done|]. exists []. by rewrite Hs4, Hs3.
Qed.

(** What one call of [ReadKey] does to the input. *)
Lemma ReadKey_stream rd :
  readerOk rd ->
  readerOk (ReadKey rd).1
  /\ match (ReadKey rd).2 with
     | Some k =>
         exists consumed,
           consumed <> []
           /\ stream rd = consumed ++ stream (ReadKey rd).1
           /\ k = parseBytes consumed
     | None =>
         buffered rd = [] /\ buffered (ReadKey rd).1 = []
         /\ stream (ReadKey rd).1 = stream rd
     end.
Proof.
  intros Hok. unfold ReadKey.
  destruct (ensureBytes rd 1) as [rd1 err] eqn:Hens.
  apply ensureBytes_moved in Hens as (Hm1 & Hlt & Herr); [|done].
  pose proof Hm1 as (Hok1 & _).
  pose proof (moved_stream _ _ Hm1) as Hs1.
  destruct err.
  { cbn [fst snd]. split; [done|]. destruct (Herr eq_refl) as [He0 He1].
    split; [|split; [|done]]; unfold buffered; apply slice_empty; lia. }
  specialize (Hlt eq_refl).
  destruct (setPos_consumes rd1 (pos rd1 + 1) Hok1) as [Hok2 Hs2]; [lia|].
  rewrite slice_one in Hs2 by (destruct Hok1 as (_ & ? & _); lia).
  set (b := nth (pos rd1) (buf rd1) 0) in *.
  set (rd2 := setPos rd1 (pos rd1 + 1)) in *.
  destruct (Z.eqb_spec b 27) as [Hb|Hb].
  2:{ cbn [fst snd]. split; [done|]. exists [b]. split; [done|].
      split; [by rewrite <- Hs1, Hs2 | done]. }
  destruct (negb (parseEscapeSequences rd2)).
  { cbn [fst snd]. split; [done|]. exists [b]. split; [done|].
    split; [by rewrite <- Hs1, Hs2 | by rewrite Hb]. }
  destruct (ReadKey_escape rd2 Hok2) as (Hok' & more & Hs' & Hk).
  cbv zeta in Hok', Hs', Hk. split; [exact Hok'|].
  rewrite Hk. exists (27 :: more). split; [done|]. split; [|done].
  rewrite <- Hs1, Hs2, Hb, Hs'. done.
Qed.

End ReaderBuffer.



(** ** Run *)

Section RunLoop.

Implicit Types (rd : Reader) (i : Input).











End RunLoop.





(** ** Escape sequences that are buffered whole *)

Section BufferedSequences.

Implicit Types (rd : Reader) (b body more seq : list Z).

Lemma buffered_length rd :
  readerOk rd -> length (buffered rd) = (end_ rd - pos rd)%nat.
Proof. intros (_ & He & _). by apply slice_length. Qed.

Lemma slice_cons b s e x l :
  (e <= length b)%nat -> sliceBytes b s e = x :: l ->
  (s < e)%nat /\ nth s b 0 = x /\ sliceBytes b (S s) e = l.
Proof.
  intros He Hs.
  assert (s < e)%nat as Hlt.
  { apply (f_equal length) in Hs. rewrite slice_length in Hs by done.
    cbn in Hs. lia. }
  split; [done|].
  rewrite (slice_split b s (s + 1) e), slice_one in Hs by lia.
  injection Hs as -> <-. by rewrite Nat.add_1_r.
Qed.

Lemma buffered_cons rd x l :
  readerOk rd -> buffered rd = x :: l ->
  (pos rd < end_ rd)%nat /\ nth (pos rd) (buf rd) 0 = x
  /\ buffered (setPos rd (pos rd + 1)) = l.
Proof.
  intros (_ & He & _) Hb. apply slice_cons in Hb as (Hlt & Hn & Hs); [|done].
  split; [done|]. split; [done|].
  unfold buffered, setPos. cbn [pos end_ buf]. by rewrite Nat.add_1_r.
Qed.

(** The scan stops behind the first terminator. *)
Lemma scanCSI_stops rd t rest : forall body fuel s,
  (end_ rd <= length (buf rd))%nat ->
  sliceBytes (buf rd) s (end_ rd) = body ++ t :: rest ->
  forallb (fun x => negb (isTerminator x)) body = true ->
  isTerminator t = true ->
  (length body < fuel)%nat -> (s + length body < pos rd + 12)%nat ->
  scanCSI fuel rd s = (s + length body + 1)%nat.
Proof.
  induction body as [|c body IH]; intros fuel s He Hs Hbody Ht Hf Hb.
  - destruct fuel as [|fuel]; [cbn in Hf; lia|]. cbn [app length] in *.
    apply slice_cons in Hs as (Hlt & Hn & _); [|done].
    cbn [scanCSI]. rewrite (proj2 (Nat.ltb_lt s (end_ rd)) Hlt).
    rewrite (proj2 (Nat.ltb_lt s (pos rd + 12))) by lia. cbn [andb].
    rewrite Hn. unfold isTerminator in Ht. rewrite Ht. lia.
  - destruct fuel as [|fuel]; [cbn in Hf; lia|]. cbn [app length forallb] in *.
    apply andb_true_iff in Hbody as [Hc Hbody]. apply negb_true_iff in Hc.
    apply slice_cons in Hs as (Hlt & Hn & Hs); [|done].
    cbn [scanCSI]. rewrite (proj2 (Nat.ltb_lt s (end_ rd)) Hlt).
    rewrite (proj2 (Nat.ltb_lt s (pos rd + 12))) by lia. cbn [andb].
    rewrite Hn. unfold isTerminator in Hc. rewrite Hc.
    rewrite (IH fuel (S s)); [lia | done.. | lia | lia].
Qed.

(** A step that only appends keeps what is at the head of the buffer. *)
Lemma moved_head rd rd' l rest :
  moved rd rd' -> buffered rd = l ++ rest ->
  exists rest', buffered rd' = l ++ rest'.
Proof.
  intros (_ & x & Hb & _) Hl. exists (rest ++ x). by rewrite Hb, Hl, app_assoc.
Qed.

(** With a byte buffered, [ReadKey] starts on it at once. *)
Lemma ReadKey_first rd x l :
  readerOk rd -> buffered rd = x :: l ->
  ensureBytes rd 1 = (rd, false)
  /\ nth (pos rd) (buf rd) 0 = x
  /\ readerOk (setPos rd (pos rd + 1))
  /\ buffered (setPos rd (pos rd + 1)) = l
  /\ stream rd = x :: stream (setPos rd (pos rd + 1)).
Proof.
  intros Hok Hb. destruct (buffered_cons rd x l Hok Hb) as (Hlt & Hn & Hl).
  split.
  { unfold ensureBytes.
    by rewrite (proj2 (Nat.leb_le 1 (end_ rd - pos rd))) by lia. }
  split; [done|].
  destruct (setPos_consumes rd (pos rd + 1) Hok) as [Hok2 Hs2]; [lia|].
  rewrite slice_one, Hn in Hs2 by (destruct Hok as (_ & ? & _); lia).
  split; [done|]. by split.
Qed.

Lemma ReadKey_csi_buffered rd body t more :
  readerOk rd -> parseEscapeSequences rd = true ->
  buffered rd = (27 :: 91 :: body ++ [t]) ++ more ->
  forallb (fun x => negb (isTerminator x)) body = true ->
  isTerminator t = true -> (length body <= 10)%nat ->
  (ReadKey rd).2 = Some (parseBytes (27 :: 91 :: body ++ [t]))
  /\ stream rd = (27 :: 91 :: body ++ [t]) ++ stream (ReadKey rd).1.
Proof.
  intros Hok Hflag Hbuf Hbody Ht Hlen. cbn [app] in Hbuf.
  destruct (ReadKey_first rd _ _ Hok Hbuf) as (Hens & Hn0 & Hok2 & Hbuf2 & Hs2).
  set (rd2 := setPos rd (pos rd + 1)) in *.
  set (seq := 91 :: body ++ [t]) in *.
  change (91 :: (body ++ [t]) ++ more) with (seq ++ more) in Hbuf2.
  (* the second byte *)
  pose proof (ensureBytesWithTimeout_moved rd2 1 Hok2) as Hm3.
  set (rd3 := ensureBytesWithTimeout rd2 1) in *.
  pose proof Hm3 as (Hok3 & _).
  destruct (moved_head _ _ _ _ Hm3 Hbuf2) as [rest3 Hbuf3].
  destruct (buffered_cons rd3 _ _ Hok3 Hbuf3) as (Hlt3 & Hn3 & _).
  (* the rest of the sequence *)
  pose proof (ensureBytesWithTimeout_moved rd3 8 Hok3) as Hm5.
  set (rd5 := ensureBytesWithTimeout rd3 8) in *.
  pose proof Hm5 as (Hok5 & _).
  destruct (moved_head _ _ _ _ Hm5 Hbuf3) as [rest5 Hbuf5].
  pose proof Hok5 as (Hp5 & He5 & _).
  pose proof (buffered_length rd5 Hok5) as Hbl5.
  rewrite Hbuf5, length_app in Hbl5. subst seq.
  cbn [length] in Hbl5. rewrite length_app in Hbl5. cbn [length] in Hbl5.
  assert (scanCSI 12 rd5 (pos rd5 + 1) = (pos rd5 + length body + 2)%nat) as Hscan.
  { pose proof Hbuf5 as Hb5. unfold buffered in Hb5. cbn [app] in Hb5.
    apply slice_cons in Hb5 as (_ & _ & Hb5); [|done].
    rewrite <- app_assoc in Hb5. cbn [app] in Hb5.
    rewrite Nat.add_1_r.
    rewrite (scanCSI_stops rd5 t rest5 body 12 (S (pos rd5))); (done || lia). }
  assert (sliceBytes (buf rd5) (pos rd5) (pos rd5 + length body + 2)
          = 91 :: body ++ [t]) as Hslice.
  { assert (buffered rd5
            = sliceBytes (buf rd5) (pos rd5) (pos rd5 + length body + 2)
              ++ sliceBytes (buf rd5) (pos rd5 + length body + 2) (end_ rd5))
      as Hsp by (apply slice_split; lia).
    rewrite Hbuf5 in Hsp. apply app_inj_1 in Hsp as [Hsp _]; [done|].
    rewrite slice_length by lia. cbn [length]. rewrite length_app. cbn. lia. }
  assert (ReadKey rd
          = (setPos rd5 (pos rd5 + length body + 2),
             Some (parseBytes (27 :: 91 :: body ++ [t])))) as HRK.
  { unfold ReadKey. rewrite Hens. cbv beta iota zeta. fold rd2.
    rewrite Hn0. change (27 =? 27) with true. cbv iota.
    change (parseEscapeSequences rd2) with (parseEscapeSequences rd).
    rewrite Hflag. cbn [negb]. fold rd3.
    rewrite (proj2 (Nat.ltb_lt (pos rd3) (end_ rd3)) Hlt3), Hn3.
    change (91 =? 79) with false. change (91 =? 91) with true.
    cbn [andb]. cbv iota. fold rd5. by rewrite Hscan, Hslice. }
  rewrite HRK. cbn [fst snd]. split; [done|].
  destruct (setPos_consumes rd5 (pos rd5 + length body + 2) Hok5) as [_ Hs6];
    [lia|].
  rewrite Hslice in Hs6.
  rewrite Hs2, <- (moved_stream _ _ Hm3), <- (moved_stream _ _ Hm5), Hs6. done.
Qed.

Lemma ReadKey_ss3_buffered rd c more :
  readerOk rd -> parseEscapeSequences rd = true ->
  buffered rd = [27; 79; c] ++ more ->
  (ReadKey rd).2 = Some (parseBytes [27; 79; c])
  /\ stream rd = [27; 79; c] ++ stream (ReadKey rd).1.
Proof.
  intros Hok Hflag Hbuf. cbn [app] in Hbuf.
  destruct (ReadKey_first rd _ _ Hok Hbuf) as (Hens & Hn0 & Hok2 & Hbuf2 & Hs2).
  set (rd2 := setPos rd (pos rd + 1)) in *.
  change (79 :: c :: more) with ([79; c] ++ more) in Hbuf2.
  pose proof (ensureBytesWithTimeout_moved rd2 1 Hok2) as Hm3.
  set (rd3 := ensureBytesWithTimeout rd2 1) in *.
  pose proof Hm3 as (Hok3 & _).
  destruct (moved_head _ _ _ _ Hm3 Hbuf2) as [rest3 Hbuf3].
  destruct (buffered_cons rd3 _ _ Hok3 Hbuf3) as (Hlt3 & Hn3 & _).
  pose proof (ensureBytesWithTimeout_moved rd3 2 Hok3) as Hm4.
  set (rd4 := ensureBytesWithTimeout rd3 2) in *.
  pose proof Hm4 as (Hok4 & _).
  destruct (moved_head _ _ _ _ Hm4 Hbuf3) as [rest4 Hbuf4].
  pose proof Hok4 as (Hp4 & He4 & _).
  pose proof (buffered_length rd4 Hok4) as Hbl4.
  rewrite Hbuf4 in Hbl4. cbn in Hbl4.
  assert (sliceBytes (buf rd4) (pos rd4) (pos rd4 + 2) = [79; c]) as Hslice.
  { assert (buffered rd4
            = sliceBytes (buf rd4) (pos rd4) (pos rd4 + 2)
              ++ sliceBytes (buf rd4) (pos rd4 + 2) (end_ rd4))
      as Hsp by (apply slice_split; lia).
    rewrite Hbuf4 in Hsp. apply app_inj_1 in Hsp as [Hsp _]; [done|].
    rewrite slice_length by lia. cbn. lia. }
  assert (nth (pos rd4 + 1) (buf rd4) 0 = c) as Hn4.
  { rewrite (slice_split _ _ (pos rd4 + 1)) in Hslice by lia.
    rewrite slice_one in Hslice by lia.
    replace (pos rd4 + 2)%nat with (pos rd4 + 1 + 1)%nat in Hslice by lia.
    rewrite slice_one in Hslice by lia. by injection Hslice. }
  assert (ReadKey rd = (setPos rd4 (pos rd4 + 2), Some (parseBytes [27; 79; c])))
    as HRK.
  { unfold ReadKey. rewrite Hens. cbv beta iota zeta. fold rd2.
    rewrite Hn0. change (27 =? 27) with true. cbv iota.
    change (parseEscapeSequences rd2) with (parseEscapeSequences rd).
    rewrite Hflag. cbn [negb]. fold rd3.
    rewrite (proj2 (Nat.ltb_lt (pos rd3) (end_ rd3)) Hlt3), Hn3.
    change (79 =? 79) with true. cbv iota. fold rd4.
    rewrite (proj2 (Nat.ltb_lt (pos rd4 + 1) (end_ rd4))) by lia.
    cbn [andb]. by rewrite Hn4. }
  rewrite HRK. cbn [fst snd]. split; [done|].
  destruct (setPos_consumes rd4 (pos rd4 + 2) Hok4) as [_ Hs5]; [lia|].
  rewrite Hslice in Hs5.
  rewrite Hs2, <- (moved_stream _ _ Hm3), <- (moved_stream _ _ Hm4), Hs5. done.
Qed.

Lemma ReadKey_alt_buffered rd c more :
  readerOk rd -> parseEscapeSequences rd = true ->
  buffered rd = [27; c] ++ more ->
  c <> 91 -> c <> 79 -> 32 <= c < 127 ->
  (ReadKey rd).2 = Some (parseBytes [27; c])
  /\ stream rd = [27; c] ++ stream (ReadKey rd).1.
Proof.
  intros Hok Hflag Hbuf Hc1 Hc2 Hc. cbn [app] in Hbuf.
  destruct (ReadKey_first rd _ _ Hok Hbuf) as (Hens & Hn0 & Hok2 & Hbuf2 & Hs2).
  set (rd2 := setPos rd (pos rd + 1)) in *.
  change (c :: more) with ([c] ++ more) in Hbuf2.
  pose proof (ensureBytesWithTimeout_moved rd2 1 Hok2) as Hm3.
  set (rd3 := ensureBytesWithTimeout rd2 1) in *.
  pose proof Hm3 as (Hok3 & _).
  destruct (moved_head _ _ _ _ Hm3 Hbuf2) as [rest3 Hbuf3].
  destruct (buffered_cons rd3 _ _ Hok3 Hbuf3) as (Hlt3 & Hn3 & _).
  assert ((32 <=? c) && (c <? 127) = true) as Hpr.
  { apply andb_true_iff. split; [apply Z.leb_le | apply Z.ltb_lt]; lia. }
  assert (ReadKey rd = (setPos rd3 (pos rd3 + 1), Some (parseBytes [27; c])))
    as HRK.
  { unfold ReadKey. rewrite Hens. cbv beta iota zeta. fold rd2.
    rewrite Hn0. change (27 =? 27) with true. cbv iota.
    change (parseEscapeSequences rd2) with (parseEscapeSequences rd).
    rewrite Hflag. cbn [negb]. fold rd3.
    rewrite (proj2 (Nat.ltb_lt (pos rd3) (end_ rd3)) Hlt3), Hn3.
    rewrite (proj2 (Z.eqb_neq c 79) Hc2), (proj2 (Z.eqb_neq c 91) Hc1).
    cbn [andb]. rewrite Hpr. f_equal. f_equal.
    unfold parseBytes, parseEscapeSequence. cbn [length nth Nat.eqb andb].
    change (27 =? 27) with true. cbv iota. by rewrite Hpr. }
  rewrite HRK. cbn [fst snd]. split; [done|].
  destruct (setPos_consumes rd3 (pos rd3 + 1) Hok3) as [_ Hs4]; [lia|].
  rewrite slice_one, Hn3 in Hs4 by (destruct Hok3 as (_ & ? & _); lia).
  rewrite Hs2, <- (moved_stream _ _ Hm3), Hs4. done.
Qed.

Lemma removelast_last_split (l : list Z) :
  l <> [] -> l = removelast l ++ [List.last l 0].
Proof. intros Hl. by apply app_removelast_last. Qed.

End BufferedSequences.

(** X20.  An escape sequence that is buffered whole is decoded whole: with
    the parsing of escape sequences on, when the buffered input starts with
    [ESC [], at most ten bytes and a terminator (a letter or ['~']), or with
    [ESC O] and one byte, or with [ESC] and a printable byte other than
    ['['] and ['O'], [ReadKey] returns [parseBytes] of exactly that
    sequence and consumes exactly it, whatever follows and whatever the
    source and the waits do. *)
Theorem ReadKey_whole_sequence (rd : Reader) (seq more : list Z) :
  readerOk rd ->
  parseEscapeSequences rd = true ->
  wholeSequence seq = true ->
  buffered rd = seq ++ more ->
  (ReadKey rd).2 = Some (parseBytes seq)
  /\ stream rd = seq ++ stream (ReadKey rd).1.
Proof.
  intros Hok Hflag Hseq Hbuf.
  destruct seq as [|e [|c rest]]; [done..|]. cbn [wholeSequence] in Hseq.
  apply andb_true_iff in Hseq as [He Hseq]. apply Z.eqb_eq in He as ->.
  destruct (Z.eqb_spec c 91) as [->|Hc1].
  - repeat (apply andb_true_iff in Hseq as [Hseq ?]).
    assert (rest <> []) as Hne.
    { intros ->. by apply Nat.ltb_lt in Hseq. }
    rewrite (removelast_last_split rest Hne) in Hbuf |- *.
    assert (length (removelast rest) <= 10)%nat as Hlen.
    { assert (length rest <= 11)%nat as Hl by (by apply Nat.leb_le).
      rewrite (removelast_last_split rest Hne), length_app in Hl. cbn in Hl. lia. }
    by apply (ReadKey_csi_buffered rd (removelast rest) (List.last rest 0) more).
  - destruct (Z.eqb_spec c 79) as [->|Hc2].
    + destruct rest as [|x [|??]]; [done| |done].
      by apply (ReadKey_ss3_buffered rd x more).
    + repeat (apply andb_true_iff in Hseq as [Hseq ?]).
      destruct rest; [|done].
      apply (ReadKey_alt_buffered rd c more); [done..|].
      split; [by apply Z.leb_le | by apply Z.ltb_lt].
Qed.

Lemma ReadKey_whole_sequence_witness :
  let rd := (ReadKey (NewReader [mkEvent [106; 27; 91; 49; 53; 59; 53; 126; 107] false] [])).1 in
  buffered rd = [27; 91; 49; 53; 59; 53; 126] ++ [107]
  /\ (ReadKey rd).2 = Some (mkKey 0 ModCtrl SpecialF5).
Proof.
  intros rd. split; [reflexivity|].
  destruct (ReadKey_whole_sequence rd [27; 91; 49; 53; 59; 53; 126] [107])
    as [Hk _]; [|reflexivity|reflexivity|reflexivity|exact Hk].
  apply ReadKey_stream, NewReader_ok. apply Forall_cons.
  split; [unfold eventOk; left; discriminate | constructor].
Defined.

(** ** The modified arrow and the lone Escape *)

Section ModifiedArrow.

Implicit Types (rd : Reader).




End ModifiedArrow.



(** ** Applying a map of bindings *)

Section ApplyBindingsSection.

Context `{CaseTables}.

Implicit Types (r : Router) (nm p : string).

Lemma Rebind_maps r nm p :
  DefaultBindingsMap (Rebind r nm p).1 = DefaultBindingsMap r
  /\ BindingsMap (Rebind r nm p).1
     = if decide (is_Some (BindingsMap r !! nm)) then <[nm := p]> (BindingsMap r)
       else BindingsMap r.
Proof.
  unfold BindingsMap, DefaultBindingsMap. rewrite lookup_fmap.
  destruct (namedBindings r !! nm) as [b|] eqn:Hb.
  - destruct (Rebind_known r nm p b Hb) as (_ & -> & _).
    rewrite !fmap_insert. cbn [defaultPattern currentPattern fmap option_fmap option_map].
    rewrite decide_True by (by eexists). split; [|done].
    apply insert_id. by rewrite lookup_fmap, Hb.
  - rewrite (Rebind_unknown r nm p Hb). cbn [fst fmap option_fmap option_map].
    rewrite decide_False; [done|]. by intros [??].
Qed.

Lemma ApplyBindings_maps order : forall r,
  NoDup order.*1 ->
  DefaultBindingsMap (ApplyBindings r order) = DefaultBindingsMap r
  /\ forall nm,
       BindingsMap (ApplyBindings r order) !! nm
       = (fun old => default old ((list_to_map order : gmap string string) !! nm))
           <$> BindingsMap r !! nm.
Proof.
  induction order as [|[n1 p1] order IH]; intros r Hnd.
  - split; [done|]. intros nm. cbn. by destruct (BindingsMap r !! nm).
  - apply NoDup_cons in Hnd as [Hn1 Hnd].
    change (ApplyBindings r ((n1, p1) :: order))
      with (ApplyBindings (Rebind r n1 p1).1 order).
    destruct (IH (Rebind r n1 p1).1 Hnd) as [Hd Hc].
    destruct (Rebind_maps r n1 p1) as [Hd1 Hc1].
    split; [by rewrite Hd|]. intros nm. rewrite Hc, Hc1.
    cbn [list_to_map foldr fst snd uncurry].
    destruct (decide (nm = n1)) as [->|Hne].
    + rewrite lookup_insert_eq.
      rewrite (not_elem_of_list_to_map_1 (M := gmap string)) by done.
      case_decide as Hk.
      * rewrite lookup_insert_eq. destruct Hk as [old ->]. done.
      * destruct (BindingsMap r !! n1); [|done]. exfalso. by apply Hk.
    + rewrite lookup_insert_ne by done.
      case_decide; [by rewrite lookup_insert_ne|done].
Qed.

Lemma ApplyBindings_map r (bindings : gmap string string) order :
  order ≡ₚ map_to_list bindings ->
  DefaultBindingsMap (ApplyBindings r order) = DefaultBindingsMap r
  /\ forall nm,
       BindingsMap (ApplyBindings r order) !! nm
       = (fun old => default old (bindings !! nm)) <$> BindingsMap r !! nm.
Proof.
  intros Hperm.
  assert (NoDup order.*1) as Hnd.
  { rewrite Hperm. apply NoDup_fst_map_to_list. }
  destruct (ApplyBindings_maps order r Hnd) as [Hd Hc]. split; [done|].
  intros nm. rewrite Hc.
  by rewrite (list_to_map_proper order (map_to_list bindings) Hnd Hperm),
    list_to_map_to_list.
Qed.

End ApplyBindingsSection.

(** X21.  [ApplyBindings], in whatever order it visits the map it is
    given, sets the current pattern of every binding the map names to the
    pattern the map gives, leaves the other bindings as they are, adds no
    binding for a name the router does not know, and changes no default
    pattern. *)
Theorem ApplyBindings_sets_known_names `{CaseTables}
        (r : Router) (bindings : gmap string string)
        (order : list (string * string)) :
  order ≡ₚ map_to_list bindings ->
  (forall nm,
     BindingsMap (ApplyBindings r order) !! nm
     = match BindingsMap r !! nm with
       | Some old => Some (default old (bindings !! nm))
       | None => None
       end)
  /\ DefaultBindingsMap (ApplyBindings r order) = DefaultBindingsMap r.
Proof.
  intros Hperm. destruct (ApplyBindings_map r bindings order Hperm) as [Hd Hc].
  split; [|done]. intros nm. rewrite Hc. by destruct (BindingsMap r !! nm).
Qed.

Lemma ApplyBindings_sets_known_names_witness :
  let r := HandleNamed (H := noFolding)
             (HandleNamed (H := noFolding) NewRouter "down" "j" (Some 1%nat))
             "up" "k" (Some 2%nat) in
  BindingsMap (ApplyBindings (H := noFolding) r [("down", "n"); ("left", "h")])
    !! "down" = Some "n"
  /\ BindingsMap (ApplyBindings (H := noFolding) r [("down", "n"); ("left", "h")])
       !! "left" = None.
Proof.
  intros r.
  destruct (ApplyBindings_sets_known_names
              (H := noFolding) r
              (list_to_map [("down", "n"); ("left", "h")])
              [("down", "n"); ("left", "h")]) as [Hc _].
  { rewrite map_to_list_to_map; [done|].
    apply NoDup_cons. split; [|apply NoDup_singleton].
    intros Hin. apply list_elem_of_singleton in Hin. discriminate Hin. }
  split; [by rewrite Hc | by rewrite Hc].
Defined.

(** X22.  The maps round trip: the map [BindingsMap] returned for a router,
    applied with [ApplyBindings] to a router that has the same named
    bindings (the same router after [ResetAll] or after other rebinds, for
    one), gives that router the same [BindingsMap]. *)
Theorem ApplyBindings_restores_BindingsMap `{CaseTables}
        (saved r : Router) (order : list (string * string)) :
  order ≡ₚ map_to_list (BindingsMap saved) ->
  (forall nm, is_Some (namedBindings r !! nm)
              <-> is_Some (namedBindings saved !! nm)) ->
  BindingsMap (ApplyBindings r order) = BindingsMap saved.
Proof.
  intros Hperm Hdom.
  destruct (ApplyBindings_map r (BindingsMap saved) order Hperm) as [_ Hc].
  apply map_eq. intros nm. rewrite Hc. specialize (Hdom nm).
  unfold BindingsMap in *. rewrite !lookup_fmap.
  destruct (namedBindings r !! nm) as [b|];
    destruct (namedBindings saved !! nm) as [b'|]; cbn; try done.
  - exfalso. destruct Hdom as [Hd _]. destruct Hd as [? Hd]; [by eexists|done].
  - exfalso. destruct Hdom as [_ Hd]. destruct Hd as [? Hd]; [by eexists|done].
Qed.

Lemma ApplyBindings_restores_BindingsMap_witness :
  let saved := (Rebind (H := noFolding)
                  (HandleNamed (H := noFolding) NewRouter "down" "j" (Some 1%nat))
                  "down" "n").1 in
  let r := ResetAll (H := noFolding) saved ["down"] in
  BindingsMap r = {[ "down" := "j" ]}
  /\ BindingsMap (ApplyBindings (H := noFolding) r [("down", "n")])
     = BindingsMap saved.
Proof.
  intros saved r.
  assert (namedBindings saved
          = {[ "down" := mkNamedBinding "j" "n" (Some 1%nat) ]}) as Hsaved
    by (vm_compute; reflexivity).
  assert (namedBindings r
          = {[ "down" := mkNamedBinding "j" "j" (Some 1%nat) ]}) as Hr
    by (vm_compute; reflexivity).
  split.
  { unfold BindingsMap. rewrite Hr. by rewrite map_fmap_singleton. }
  apply (ApplyBindings_restores_BindingsMap (H := noFolding) saved r [("down", "n")]).
  - unfold BindingsMap. rewrite Hsaved, map_fmap_singleton. cbn [currentPattern].
    by rewrite map_to_list_singleton.
  - intros nm. rewrite Hsaved, Hr.
    destruct (decide (nm = "down")) as [->|Hne].
    + rewrite !lookup_singleton_eq. split; by eexists.
    + rewrite !lookup_singleton_ne by done. split; by intros [??].
Defined.

(** ** The tables of the CSI sequences *)

Section CsiTables.

Lemma digitLists_all : forall n ds,
  Forall (fun d => 0 <= d <= 9) ds -> (length ds <= n)%nat ->
  In ds (digitLists n).
Proof.
  induction n as [|n IH]; intros ds Hds Hlen.
  - destruct ds; [by left | cbn in Hlen; lia].
  - destruct ds as [|d ds]; [by left|]. right.
    apply Forall_cons in Hds as [Hd Hds]. apply in_flat_map.
    exists d. split; [apply zrange_elem; lia|].
    apply in_map, IH; [done | cbn in Hlen; lia].
Qed.

Lemma modifierParams_all md : In md modifierParams.
Proof. destruct md as [[[[] []] []]|]; cbn; tauto. Qed.

(** Every number of up to three digits under every modifier parameter: a
    finite check. *)
Lemma tilde_sequences_checked :
  forallb (fun ds =>
             match ds with
             | [] => true
             | _ => forallb (fun md =>
                               bool_decide
                                 (parseBytes (tildeSequence ds md)
                                  = tableKey tildeKeys (decimal ds)
                                             (modifierGiven md)))
                            modifierParams
             end)
          (digitLists 3) = true.
Proof. vm_compute. reflexivity. Qed.

(** Every byte in the place of the letter, under every modifier: a finite
    check. *)
Lemma letter_sequences_checked :
  forallb (fun c =>
             forallb (fun md =>
                        match md with
                        | None => true
                        | Some _ =>
                            (c =? 126)
                            || bool_decide
                                 (parseBytes ([27; 91; 49] ++ modifierParam md ++ [c])
                                  = tableKey letterKeys c (modifierGiven md))
                        end)
                     modifierParams)
          (zrange 0 256) = true.
Proof. vm_compute. reflexivity. Qed.

End CsiTables.

(** X23.  The CSI sequences with a modifier parameter: [ESC [ N ~] and
    [ESC [ N ; M ~], for a number [N] of up to three digits, decode to the
    key xterm numbers [N] (1 to 8 the editing keys, 11 to 15, 17 to 21, 23
    and 24 the function keys) and to Escape for every other number;
    [ESC [ 1 ; M X] decodes to the arrow, Home or End lettered [X] and to
    Escape for every other byte but ['~']; in both the key carries the
    modifiers [M = 1 + shift(1) + alt(2) + ctrl(4)] encodes. *)
Theorem parseBytes_csi_tables
        (ds : list Z) (c : Z) (md : option (bool * bool * bool))
        (shift alt ctrl : bool) :
  ds <> [] -> (length ds <= 3)%nat -> Forall (fun d => 0 <= d <= 9) ds ->
  0 <= c < 256 -> c <> 126 ->
  parseBytes (tildeSequence ds md)
  = tableKey tildeKeys (decimal ds) (modifierGiven md)
  /\ parseBytes [27; 91; 49; 59; csiModifier shift alt ctrl; c]
     = tableKey letterKeys c (modifierOf shift alt ctrl).
Proof.
  intros Hne Hlen Hds Hc Hc'. split.
  - pose proof tilde_sequences_checked as Hall.
    rewrite forallb_forall in Hall.
    specialize (Hall ds (digitLists_all 3 ds Hds Hlen)).
    destruct ds as [|d ds']; [done|].
    rewrite forallb_forall in Hall.
    by apply (bool_decide_eq_true _), Hall, modifierParams_all.
  - pose proof letter_sequences_checked as Hall.
    rewrite forallb_forall in Hall.
    specialize (Hall c (zrange_elem 0 256 c ltac:(lia))).
    rewrite forallb_forall in Hall.
    specialize (Hall (Some (shift, alt, ctrl)) (modifierParams_all _)).
    cbn beta iota in Hall.
    rewrite (proj2 (Z.eqb_neq c 126) Hc') in Hall. cbn [orb] in Hall.
    apply bool_decide_eq_true_1 in Hall. exact Hall.
Qed.

Lemma parseBytes_csi_tables_witness :
  parseBytes [27; 91; 49; 53; 59; 54; 126] = mkKey 0 (Z.lor ModShift ModCtrl) SpecialF5
  /\ parseBytes [27; 91; 49; 59; 51; 68] = mkKey 0 ModAlt SpecialLeft.
Proof.
  destruct (parseBytes_csi_tables [1; 5] 68 (Some (true, false, true))
                                  false true false) as [H1 H2];
    [discriminate | cbn; lia | repeat constructor; lia | lia | lia |].
  split; [exact H1 | exact H2].
Defined.

(** ** Modifier prefixes of a bracket *)

Section ModifierPrefixes.

Context `{CaseTables}.

Implicit Types (s t last : string) (mods : list string) (key : Key).

Lemma Split_no_sep s : IndexByte s "-" = None -> Split s "-" = [s].
Proof.
  induction s as [|c s IH]; [done|]. cbn [IndexByte Split].
  destruct (Ascii.eqb c "-"); [done|].
  destruct (IndexByte s "-"); [done|]. intros _. by rewrite IH.
Qed.

Lemma Split_app_sep s t :
  IndexByte s "-" = None ->
  Split (s ++ String "-" t) "-" = s :: Split t "-".
Proof.
  induction s as [|c s IH].
  - intros _. change (("" ++ String "-" t)%string) with (String "-" t). done.
  - cbn [IndexByte]. rewrite append_cons. cbn [Split].
    destruct (Ascii.eqb c "-"); [done|].
    destruct (IndexByte s "-"); [done|]. intros _. by rewrite IH.
Qed.

Lemma modifierLetter_cases s m :
  modifierLetter s = Some m ->
  In (s, m) [("C"%string, ModCtrl); ("c"%string, ModCtrl);
             ("A"%string, ModAlt); ("a"%string, ModAlt);
             ("M"%string, ModAlt); ("m"%string, ModAlt);
             ("S"%string, ModShift); ("s"%string, ModShift)].
Proof.
  unfold modifierLetter. cbn [In].
  destruct (String.eqb_spec s "C") as [->|_]; [intros [= <-]; tauto|].
  destruct (String.eqb_spec s "c") as [->|_]; [intros [= <-]; tauto|].
  destruct (String.eqb_spec s "A") as [->|_]; [intros [= <-]; tauto|].
  destruct (String.eqb_spec s "a") as [->|_]; [intros [= <-]; tauto|].
  destruct (String.eqb_spec s "M") as [->|_]; [intros [= <-]; tauto|].
  destruct (String.eqb_spec s "m") as [->|_]; [intros [= <-]; tauto|].
  destruct (String.eqb_spec s "S") as [->|_]; [intros [= <-]; tauto|].
  destruct (String.eqb_spec s "s") as [->|_]; [intros [= <-]; tauto|].
  done.
Qed.

Ltac modifier_cases Hs :=
  apply modifierLetter_cases in Hs; cbn [In] in Hs;
  repeat (destruct Hs as [Hs|Hs]; [injection Hs as <- <-|]); [..|done].

Lemma modifierLetter_no_sep s m : modifierLetter s = Some m -> IndexByte s "-" = None.
Proof. intros Hs. modifier_cases Hs; reflexivity. Qed.

(** [strings.Split] undoes [strings.Join] on parts without the separator. *)
Lemma Split_Join mods last :
  Forall (fun s => is_Some (modifierLetter s)) mods ->
  IndexByte last "-" = None ->
  Split (Join (mods ++ [last]) "-") "-" = mods ++ [last].
Proof.
  intros Hmods Hlast. induction Hmods as [|s mods [m Hs] _ IH].
  - by apply Split_no_sep.
  - cbn [app]. destruct (mods ++ [last]) as [|p ps] eqn:E.
    { by destruct mods. }
    change (Join (s :: p :: ps) "-")
      with (s ++ String "-" (Join (p :: ps) "-"))%string.
    rewrite Split_app_sep by (by eapply modifierLetter_no_sep). by rewrite IH.
Qed.

(** The last part sets the rune and the special key, not the modifiers. *)
Lemma finalPart_mod key last :
  Rune key = 0 -> KSpecial key = SpecialNone ->
  finalPart key last
  = mkKey (Rune (finalPart KeyZero last)) (Mod key)
          (KSpecial (finalPart KeyZero last)).
Proof.
  destruct key as [r m sp]. cbn [Rune KSpecial Mod]. intros -> ->.
  unfold finalPart. destruct (vimToSpecial !! ToLower last); [done|].
  destruct (_ =? 1)%nat; [done|]. by destruct (0 <? _)%nat.
Qed.

Lemma parseParts_last key last i :
  parseParts [last] i (S i) key = finalPart key last.
Proof.
  cbn [parseParts]. replace (S i - 1)%nat with i by lia.
  by rewrite Nat.ltb_irrefl.
Qed.

(** One modifier letter before the last part sets its bit. *)
Lemma parseParts_modifier s m rest i n key :
  modifierLetter s = Some m -> (i < n - 1)%nat ->
  parseParts (s :: rest) i n key = parseParts rest (S i) n (orMod key m).
Proof.
  intros Hs Hi. cbn [parseParts]. rewrite (proj2 (Nat.ltb_lt i (n - 1)) Hi).
  modifier_cases Hs; by vm_compute (ToLower _).
Qed.

Lemma orMod_modifierOf shift alt ctrl m :
  m = ModCtrl \/ m = ModAlt \/ m = ModShift ->
  Z.lor (modifierOf shift alt ctrl) m
  = modifierOf (shift || (m =? ModShift)) (alt || (m =? ModAlt))
               (ctrl || (m =? ModCtrl)).
Proof. intros [->|[->| ->]]; by destruct shift, alt, ctrl. Qed.

Lemma modifierLetter_bits s m :
  modifierLetter s = Some m -> m = ModCtrl \/ m = ModAlt \/ m = ModShift.
Proof. intros Hs. modifier_cases Hs; tauto. Qed.

Lemma parseParts_modifiers last : forall mods i n shift alt ctrl,
  Forall (fun s => is_Some (modifierLetter s)) mods ->
  n = (i + length mods + 1)%nat ->
  parseParts (mods ++ [last]) i n (mkKey 0 (modifierOf shift alt ctrl) SpecialNone)
  = finalPart (mkKey 0 (modifierOf (shift || namesModifier mods ModShift)
                                   (alt || namesModifier mods ModAlt)
                                   (ctrl || namesModifier mods ModCtrl))
                     SpecialNone) last.
Proof.
  induction mods as [|s mods IH]; intros i n shift alt ctrl Hmods Hn.
  - cbn [app length] in *. subst n. replace (i + 0 + 1)%nat with (S i) by lia.
    rewrite parseParts_last. unfold namesModifier. cbn [existsb].
    by rewrite !orb_false_r.
  - apply Forall_cons in Hmods as [[m Hs] Hmods]. cbn [app length] in *.
    rewrite (parseParts_modifier s m) by (done || lia).
    unfold orMod. cbn [Rune Mod KSpecial].
    rewrite orMod_modifierOf by (by eapply modifierLetter_bits).
    rewrite (IH (S i) n) by (done || lia). f_equal. f_equal.
    unfold namesModifier. cbn [existsb].
    modifier_cases Hs; cbn; by destruct shift, alt, ctrl.
Qed.

End ModifierPrefixes.

(** X24.  Inside a bracket, the parts before the last that are one of the
    letters C, A, M, S, in either case, are modifiers: in whatever order
    and however often they come, they give the key Ctrl for C, Alt for A or
    M, and Shift for S; the last part alone, read as it would be without
    them, gives the rune and the special key. *)
Theorem parseVimKey_modifier_prefixes `{CaseTables}
        (mods : list string) (last : string) :
  Forall (fun s => is_Some (modifierLetter s)) mods ->
  IndexByte last "-" = None ->
  parseVimKey (Join (mods ++ [last]) "-")
  = mkKey (Rune (parseVimKey last))
          (modifierOf (namesModifier mods ModShift) (namesModifier mods ModAlt)
                      (namesModifier mods ModCtrl))
          (KSpecial (parseVimKey last)).
Proof.
  intros Hmods Hlast. unfold parseVimKey.
  rewrite (Split_Join mods last Hmods Hlast), (Split_no_sep last Hlast).
  rewrite (parseParts_last KeyZero last 0).
  change KeyZero with (mkKey 0 (modifierOf false false false) SpecialNone) at 1.
  rewrite (parseParts_modifiers last mods 0 _ false false false Hmods)
    by (rewrite length_app; cbn; lia).
  cbn [orb]. by rewrite finalPart_mod.
Qed.

Lemma parseVimKey_modifier_prefixes_witness :
  parseVimKey (H := noFolding) "m-C-c-S-Tab"
  = mkKey 0 (Z.lor (Z.lor ModShift ModAlt) ModCtrl) SpecialTab.
Proof.
  apply (parseVimKey_modifier_prefixes (H := noFolding) ["m"; "C"; "c"; "S"] "Tab").
  - repeat (apply Forall_cons; split; [by eexists|]). constructor.
  - reflexivity.
Defined.

(** ** Rebinding to a pattern without keys *)

(** X25.  [Rebind] of a known name to a pattern that compiles to no key
    (the empty pattern) returns true and leaves the action unbound: the
    handler is taken from the key sequence of the old pattern and put
    nowhere, no other key sequence changes, and the binding stays, with the
    new pattern as its current one.  [Handle] with such a pattern changes
    nothing at all. *)
Theorem Rebind_to_no_keys_unbinds `{CaseTables}
        (r : Router) (nm p : string) (b : namedBinding) (h : option Handler) :
  namedBindings r !! nm = Some b ->
  ParsePattern (expandAliases r p) = [] ->
  (Rebind r nm p).2 = true
  /\ (ParsePattern (expandAliases r (currentPattern b)) <> [] ->
      handlerAt (root (Rebind r nm p).1)
                (ParsePattern (expandAliases r (currentPattern b))) = None)
  /\ (forall ks,
        ks <> ParsePattern (expandAliases r (currentPattern b)) ->
        handlerAt (root (Rebind r nm p).1) ks = handlerAt (root r) ks)
  /\ BindingsMap (Rebind r nm p).1 !! nm = Some p
  /\ DefaultBindingsMap (Rebind r nm p).1 !! nm = Some (defaultPattern b)
  /\ Handle r p h = r.
Proof.
  intros E Hnil.
  destruct (Rebind_known r nm p b E) as (Hret & Hnb & _ & _ & Hh).
  split; [done|]. split; [|split; [|split; [|split]]].
  - intros Hold. rewrite Hh.
    rewrite decide_False by (intros [? _]; congruence). by rewrite decide_True.
  - intros ks Hks. rewrite Hh.
    rewrite decide_False by (intros [? _]; congruence).
    by rewrite decide_False by (intros [_ ?]; congruence).
  - unfold BindingsMap. by rewrite Hnb, lookup_fmap, lookup_insert_eq.
  - unfold DefaultBindingsMap. by rewrite Hnb, lookup_fmap, lookup_insert_eq.
  - unfold Handle, registerPattern. by rewrite Hnil.
Qed.

Lemma Rebind_to_no_keys_unbinds_witness :
  let r := HandleNamed (H := noFolding) NewRouter "down" "j" (Some 1%nat) in
  (Rebind (H := noFolding) r "down" "").2 = true
  /\ handlerAt (root r) [KeyRune 106] = Some 1%nat
  /\ handlerAt (root (Rebind (H := noFolding) r "down" "").1) [KeyRune 106] = None.
Proof.
  intros r.
  destruct (Rebind_to_no_keys_unbinds
              (H := noFolding) r "down" "" (mkNamedBinding "j" "j" (Some 1%nat))
              None) as (Hret & Hold & _);
    [vm_compute; reflexivity | reflexivity |].
  split; [exact Hret|]. split; [vm_compute; reflexivity|].
  apply Hold. discriminate.
Defined.
